(** * DAVE media plane of the D++ voice client

    A shallow embedding of the frame-cryptor ratchet manager
    (src/dpp/dave/cryptor_manager.cpp), the inbound decryptor
    (src/dpp/dave/decryptor.cpp), the outbound encryptor
    (src/dpp/dave/encryptor.cpp) and of the privacy code, the error handler
    and the one-second timer of the voice session
    (src/dpp/discordvoiceclient.cpp), followed by the properties the
    specification states about them.  Log output of the DAVE classes is
    left out. *)

From Stdlib Require Import ZArith List Lia Bool String Ascii Sorted.
From Stdlib Require Import Strings.Byte.
Import ListNotations.
Local Open Scope Z_scope.

(** ** Fixed-width integers

    [KeyGeneration] and [truncated_sync_nonce] are [uint32_t], [big_nonce]
    and the statistics counters are [uint64_t], time points and durations
    are [int64_t] tick counts.  They are carried as [Z]; every operation
    that can leave the range is followed by the reduction the type
    performs. *)

Definition wrap32 (z : Z) : Z := z mod 2 ^ 32.
Definition wrap64 (z : Z) : Z := z mod 2 ^ 64.

(** Two's complement reduction of a signed 64-bit result. *)
Definition wrap_s64 (z : Z) : Z := (z + 2 ^ 63) mod 2 ^ 64 - 2 ^ 63.

#[global] Arguments wrap32 : simpl never.
#[global] Arguments wrap64 : simpl never.
#[global] Arguments wrap_s64 : simpl never.

Definition is_u32 (z : Z) : Prop := 0 <= z < 2 ^ 32.
Definition is_u64 (z : Z) : Prop := 0 <= z < 2 ^ 64.
Definition is_s64 (z : Z) : Prop := - 2 ^ 63 <= z < 2 ^ 63.

Definition KeyGeneration := Z.
Definition truncated_sync_nonce := Z.
Definition big_nonce := Z.
Definition time_point := Z.
Definition duration := Z.

(** ** Constants

    The headers that declare them (common.h, cryptor_manager.h) are not
    part of the tree; the values are the ones the specification lists. *)

(** Modelled from the spec: [RATCHET_GENERATION_SHIFT_BITS = 24]. *)
Definition RATCHET_GENERATION_SHIFT_BITS : Z := 24.

(** Modelled from the spec: the wrapped generation is computed with
    [2^24] as the wrap of the truncated generation. *)
Definition GENERATION_WRAP : Z := 2 ^ 24.

(** Modelled from the spec: [MAX_GENERATION_GAP = 250]. *)
Definition MAX_GENERATION_GAP : Z := 250.

(** Modelled from the spec: [MAX_MISSING_NONCES = 50]. *)
Definition MAX_MISSING_NONCES : Z := 50.

(** Modelled from the spec: [MAX_FRAMES_PER_SECOND = 50]. *)
Definition MAX_FRAMES_PER_SECOND : Z := 50.

(** Ticks of the clock per second ([std::chrono] nanoseconds). *)
Definition ticks_per_second : Z := 1000000000.

(** Modelled from the spec: [CIPHER_EXPIRY = 10 s]. *)
Definition CIPHER_EXPIRY : duration := 10 * ticks_per_second.

(** [time_point::max()]. *)
Definition time_point_max : time_point := 2 ^ 63 - 1.

(** [std::chrono::duration_cast<std::chrono::seconds>(d).count()]:
    truncation toward zero. *)
Definition duration_cast_seconds (d : duration) : Z := Z.quot d ticks_per_second.

(** ** External collaborators

    [clock_interface], [IKeyRatchet] and [cipher_interface] are abstract
    classes of the source; the frame processors are declared in headers
    outside the tree. *)

(** [clock_reading k] is what the [k]-th call of [clock_.now()] returns. *)
Class clock_interface := { clock_reading : nat -> time_point }.

Class key_ratchet_interface := {
  IKeyRatchet : Type;
  EncryptionKey : Type;
  cipher_interface : Type;
  GetKey : IKeyRatchet -> KeyGeneration -> EncryptionKey * IKeyRatchet;
  DeleteKey : IKeyRatchet -> KeyGeneration -> IKeyRatchet;
  (* [nullptr] when the cipher cannot be set up *)
  create_cipher : EncryptionKey -> option cipher_interface;
  (* [decrypt(plaintext, ciphertext, tag, nonce, aad)]: the plaintext on
     success *)
  cipher_decrypt : cipher_interface -> list byte -> list byte -> list byte ->
                   list byte -> option (list byte);
  (* [encrypt(ciphertext, plaintext, nonce, aad, tag)]: the ciphertext and
     the tag on success *)
  cipher_encrypt : cipher_interface -> list byte -> list byte -> list byte ->
                   option (list byte * list byte)
}.

(** ** Reading the clock

    A computation that reads the clock maps the number of readings taken
    so far to its result and the new number of readings. *)

Definition Clocked (A : Type) : Type := nat -> A * nat.

Definition ret {A} (a : A) : Clocked A := fun k => (a, k).

Definition bind {A B} (m : Clocked A) (f : A -> Clocked B) : Clocked B :=
  fun k => let (a, k') := m k in f a k'.

Declare Scope clocked_scope.
Delimit Scope clocked_scope with clocked.
Notation "x <- m ;; f" := (bind m (fun x => f))
  (at level 61, m at next level, right associativity) : clocked_scope.
Notation "' pat <- m ;; f" := (bind m (fun x => match x with pat => f end))
  (at level 61, pat pattern, m at next level, right associativity) : clocked_scope.

Definition now `{clock_interface} : Clocked time_point :=
  fun k => (clock_reading k, S k).

(** ** The cipher manager (cryptor_manager.cpp) *)

Module cryptor_manager.
Section manager.
Context `{clock_interface} `{key_ratchet_interface}.
Local Open Scope clocked_scope.

(** [compute_wrapped_generation], on [uint32_t]. *)
Definition compute_wrapped_generation (oldest generation : KeyGeneration) : KeyGeneration :=
  let remainder := oldest mod GENERATION_WRAP in
  let factor := wrap32 (oldest / GENERATION_WRAP + (if generation <? remainder then 1 else 0)) in
  wrap32 (wrap32 (factor * GENERATION_WRAP) + generation).

(** [compute_wrapped_big_nonce]: the generation is widened to 64 bits
    before the shift. *)
Definition compute_wrapped_big_nonce (generation : KeyGeneration)
    (nonce : truncated_sync_nonce) : big_nonce :=
  let maskedNonce := Z.land nonce (Z.shiftl 1 RATCHET_GENERATION_SHIFT_BITS - 1) in
  Z.lor (wrap64 (Z.shiftl generation RATCHET_GENERATION_SHIFT_BITS)) maskedNonce.

Record expiring_cipher := {
  cryptor : option cipher_interface;
  expiry : time_point
}.

(** The members of [aead_cipher_manager]; [cryptors_] is kept as the
    sequence of its entries in iteration order. *)
Record aead_cipher_manager := {
  keyRatchet_ : IKeyRatchet;
  cryptors_ : list (KeyGeneration * expiring_cipher);
  ratchetCreation_ : time_point;
  ratchetExpiry_ : time_point;
  oldestGeneration_ : KeyGeneration;
  newestGeneration_ : KeyGeneration;
  newestProcessedNonce_ : option big_nonce;
  missingNonces_ : list big_nonce
}.

(** The constructor: the creation time is read from the clock, the
    expiry is [time_point::max()], every other member starts from its
    default (generations at 0, no processed nonce, no missing nonce). *)
Definition make_manager (keyRatchet : IKeyRatchet) : Clocked aead_cipher_manager :=
  t <- now ;;
  ret {| keyRatchet_ := keyRatchet;
         cryptors_ := [];
         ratchetCreation_ := t;
         ratchetExpiry_ := time_point_max;
         oldestGeneration_ := 0;
         newestGeneration_ := 0;
         newestProcessedNonce_ := None;
         missingNonces_ := [] |}.

(** [std::find(...) != end] on the missing nonces. *)
Definition find_nonce (l : list big_nonce) (n : big_nonce) : bool :=
  existsb (Z.eqb n) l.

Definition can_process_nonce (m : aead_cipher_manager) (generation : KeyGeneration)
    (nonce : truncated_sync_nonce) : bool :=
  match newestProcessedNonce_ m with
  | None => true
  | Some newest =>
      let bigNonce := compute_wrapped_big_nonce generation nonce in
      (newest <? bigNonce) || find_nonce (missingNonces_ m) bigNonce
  end.

(** [cryptors_.find(generation)]. *)
Fixpoint find_cryptor (cs : list (KeyGeneration * expiring_cipher)) (g : KeyGeneration)
    : option expiring_cipher :=
  match cs with
  | [] => None
  | (g', c) :: rest => if g' =? g then Some c else find_cryptor rest g
  end.

(** First loop of [cleanup_expired_ciphers]: every entry is compared with
    a fresh reading of the clock and erased when its expiry is past. *)
Fixpoint erase_expired (cs : list (KeyGeneration * expiring_cipher))
    : Clocked (list (KeyGeneration * expiring_cipher)) :=
  match cs with
  | [] => ret []
  | (g, c) :: rest =>
      t <- now ;;
      rest' <- erase_expired rest ;;
      ret (if expiry c <? t then rest' else (g, c) :: rest')
  end.

(** Second loop of [cleanup_expired_ciphers]: the oldest generation
    advances, deleting its key, until it has a cipher or reaches the newest
    generation.  [fuel] bounds the number of iterations. *)
Fixpoint delete_old_keys (fuel : nat) (cs : list (KeyGeneration * expiring_cipher))
    (newest oldest : KeyGeneration) (r : IKeyRatchet) : KeyGeneration * IKeyRatchet :=
  match fuel with
  | O => (oldest, r)
  | S fuel' =>
      if (oldest <? newest) &&
         (match find_cryptor cs oldest with None => true | Some _ => false end)
      then delete_old_keys fuel' cs newest (wrap32 (oldest + 1)) (DeleteKey r oldest)
      else (oldest, r)
  end.

Definition cleanup_expired_ciphers (m : aead_cipher_manager) : Clocked aead_cipher_manager :=
  cs <- erase_expired (cryptors_ m) ;;
  let '(oldest, r) :=
    delete_old_keys (Z.to_nat (newestGeneration_ m - oldestGeneration_ m)) cs
      (newestGeneration_ m) (oldestGeneration_ m) (keyRatchet_ m) in
  ret {| keyRatchet_ := r;
         cryptors_ := cs;
         ratchetCreation_ := ratchetCreation_ m;
         ratchetExpiry_ := ratchetExpiry_ m;
         oldestGeneration_ := oldest;
         newestGeneration_ := newestGeneration_ m;
         newestProcessedNonce_ := newestProcessedNonce_ m;
         missingNonces_ := missingNonces_ m |}.

(** [make_expiring_cipher]: a cipher for a generation older than the
    newest one gets a finite expiry. *)
Definition make_expiring_cipher (r : IKeyRatchet) (newest generation : KeyGeneration)
    : Clocked (expiring_cipher * IKeyRatchet) :=
  let '(encryptionKey, r') := GetKey r generation in
  if generation <? newest
  then t <- now ;;
       ret ({| cryptor := create_cipher encryptionKey;
               expiry := wrap_s64 (t + CIPHER_EXPIRY) |}, r')
  else ret ({| cryptor := create_cipher encryptionKey;
               expiry := time_point_max |}, r').

(** Age of the ratchet in whole seconds at time [t]. *)
Definition ratchet_lifetime_sec (m : aead_cipher_manager) (t : time_point) : Z :=
  duration_cast_seconds (wrap_s64 (t - ratchetCreation_ m)).

(** [get_cipher]: [None] is the null pointer.  The second gate adds in
    [uint32_t]; the third compares with a signed 64-bit count. *)
Definition get_cipher (m : aead_cipher_manager) (generation : KeyGeneration)
    : Clocked (option cipher_interface * aead_cipher_manager) :=
  m1 <- cleanup_expired_ciphers m ;;
  if generation <? oldestGeneration_ m1 then ret (None, m1)
  else if wrap32 (newestGeneration_ m1 + MAX_GENERATION_GAP) <? generation then ret (None, m1)
  else
    t <- now ;;
    let ratchetLifetimeSec := ratchet_lifetime_sec m1 t in
    let maxLifetimeFrames := MAX_FRAMES_PER_SECOND * ratchetLifetimeSec in
    let maxLifetimeGenerations := Z.shiftr maxLifetimeFrames RATCHET_GENERATION_SHIFT_BITS in
    if maxLifetimeGenerations <? generation then ret (None, m1)
    else
      match find_cryptor (cryptors_ m1) generation with
      | Some c => ret (cryptor c, m1)
      | None =>
          '(c, r) <- make_expiring_cipher (keyRatchet_ m1) (newestGeneration_ m1) generation ;;
          ret (cryptor c,
               {| keyRatchet_ := r;
                  cryptors_ := cryptors_ m1 ++ [(generation, c)];
                  ratchetCreation_ := ratchetCreation_ m1;
                  ratchetExpiry_ := ratchetExpiry_ m1;
                  oldestGeneration_ := oldestGeneration_ m1;
                  newestGeneration_ := newestGeneration_ m1;
                  newestProcessedNonce_ := newestProcessedNonce_ m1;
                  missingNonces_ := missingNonces_ m1 |})
      end.


(** [while (!missingNonces_.empty() && missingNonces_.front() < oldest)
    missingNonces_.pop_front()]. *)
Fixpoint prune_front (oldestMissingNonce : big_nonce) (q : list big_nonce) : list big_nonce :=
  match q with
  | [] => []
  | front :: rest =>
      if front <? oldestMissingNonce then prune_front oldestMissingNonce rest else q
  end.

(** [for (auto i = start; i < bigNonce; ++i) missingNonces_.push_back(i)];
    [fuel] bounds the number of iterations. *)
Fixpoint push_missing (fuel : nat) (i bigNonce : big_nonce) (q : list big_nonce)
    : list big_nonce :=
  match fuel with
  | O => q
  | S fuel' =>
      if i <? bigNonce then push_missing fuel' (wrap64 (i + 1)) bigNonce (q ++ [i]) else q
  end.

(** [std::find] followed by [erase] of the element found. *)
Fixpoint erase_first (n : big_nonce) (q : list big_nonce) : list big_nonce :=
  match q with
  | [] => []
  | x :: rest => if x =? n then rest else x :: erase_first n rest
  end.

Definition set_nonces (m : aead_cipher_manager) (newest : option big_nonce)
    (missing : list big_nonce) : aead_cipher_manager :=
  {| keyRatchet_ := keyRatchet_ m;
     cryptors_ := cryptors_ m;
     ratchetCreation_ := ratchetCreation_ m;
     ratchetExpiry_ := ratchetExpiry_ m;
     oldestGeneration_ := oldestGeneration_ m;
     newestGeneration_ := newestGeneration_ m;
     newestProcessedNonce_ := newest;
     missingNonces_ := missing |}.

(** First half of [report_cipher_success]: the bookkeeping of processed
    and missing nonces. *)
Definition record_nonce (m : aead_cipher_manager) (bigNonce : big_nonce)
    : aead_cipher_manager :=
  match newestProcessedNonce_ m with
  | None => set_nonces m (Some bigNonce) (missingNonces_ m)
  | Some newest =>
      if newest <? bigNonce then
        let oldestMissingNonce :=
          if MAX_MISSING_NONCES <? bigNonce then bigNonce - MAX_MISSING_NONCES else 0 in
        let pruned := prune_front oldestMissingNonce (missingNonces_ m) in
        let missingRangeStart := Z.max oldestMissingNonce (wrap64 (newest + 1)) in
        set_nonces m (Some bigNonce)
          (push_missing (Z.to_nat (bigNonce - missingRangeStart)) missingRangeStart
             bigNonce pruned)
      else set_nonces m (Some newest) (erase_first bigNonce (missingNonces_ m))
  end.

(** Second half of [report_cipher_success]: a success on a generation
    newer than the newest one, for which a cipher exists, makes it the newest
    and shortens the expiry of every older cipher. *)
Definition shorten_expiry (newest : KeyGeneration) (expiryTime : time_point)
    (entry : KeyGeneration * expiring_cipher) : KeyGeneration * expiring_cipher :=
  let '(gen, c) := entry in
  if gen <? newest
  then (gen, {| cryptor := cryptor c; expiry := Z.min (expiry c) expiryTime |})
  else entry.

Definition report_cipher_success (m : aead_cipher_manager) (generation : KeyGeneration)
    (nonce : truncated_sync_nonce) : Clocked aead_cipher_manager :=
  let bigNonce := compute_wrapped_big_nonce generation nonce in
  let m1 := record_nonce m bigNonce in
  if (generation <=? newestGeneration_ m1) ||
     (match find_cryptor (cryptors_ m1) generation with None => true | Some _ => false end)
  then ret m1
  else
    t <- now ;;
    let expiryTime := wrap_s64 (t + CIPHER_EXPIRY) in
    ret {| keyRatchet_ := keyRatchet_ m1;
           cryptors_ := map (shorten_expiry generation expiryTime) (cryptors_ m1);
           ratchetCreation_ := ratchetCreation_ m1;
           ratchetExpiry_ := ratchetExpiry_ m1;
           oldestGeneration_ := oldestGeneration_ m1;
           newestGeneration_ := generation;
           newestProcessedNonce_ := newestProcessedNonce_ m1;
           missingNonces_ := missingNonces_ m1 |}.

(** The member [compute_wrapped_generation]: anchored at the oldest
    generation of the manager. *)
Definition compute_wrapped_generation_of (m : aead_cipher_manager)
    (generation : KeyGeneration) : KeyGeneration :=
  compute_wrapped_generation (oldestGeneration_ m) generation.

(** Modelled from the spec: [update_expiry(deadline)] (cryptor_manager.h,
    not in the tree) clamps [ratchet_expiry] to [min(current, deadline)]. *)
Definition update_expiry (m : aead_cipher_manager) (deadline : time_point)
    : aead_cipher_manager :=
  {| keyRatchet_ := keyRatchet_ m;
     cryptors_ := cryptors_ m;
     ratchetCreation_ := ratchetCreation_ m;
     ratchetExpiry_ := Z.min (ratchetExpiry_ m) deadline;
     oldestGeneration_ := oldestGeneration_ m;
     newestGeneration_ := newestGeneration_ m;
     newestProcessedNonce_ := newestProcessedNonce_ m;
     missingNonces_ := missingNonces_ m |}.

(** Modelled from the spec: [is_expired(now)] (cryptor_manager.h, not in
    the tree): the manager is expired once the clock is past its expiry. *)
Definition is_expired (m : aead_cipher_manager) : Clocked bool :=
  t <- now ;;
  ret (ratchetExpiry_ m <? t).

(** The integers [lo], [lo + 1], ... ([n] of them), in this order. *)
Fixpoint zrange_from (n : nat) (lo : Z) : list Z :=
  match n with
  | O => []
  | S n' => lo :: zrange_from n' (lo + 1)
  end.

(** The integers from [lo] up to [hi - 1]. *)
Definition zrange (lo hi : Z) : list Z := zrange_from (Z.to_nat (hi - lo)) lo.

(** The shape of the replay bookkeeping: before the first success nothing
    is missing; afterwards the missing nonces are in increasing order, below
    the newest processed nonce and at most [MAX_MISSING_NONCES] behind it. *)
Definition nonce_window (m : aead_cipher_manager) : Prop :=
  match newestProcessedNonce_ m with
  | None => missingNonces_ m = []
  | Some newest =>
      0 <= newest < 2 ^ 56 /\
      StronglySorted Z.lt (missingNonces_ m) /\
      Forall (fun x => 0 <= x /\ newest - MAX_MISSING_NONCES <= x < newest) (missingNonces_ m)
  end.

(** Both generation counters hold [uint32_t] values. *)
Definition generations_in_range (m : aead_cipher_manager) : Prop :=
  is_u32 (oldestGeneration_ m) /\ is_u32 (newestGeneration_ m).

(** The states a manager can be in: built by the constructor and changed
    by its public operations, called with [uint32_t] arguments. *)
Inductive reachable : aead_cipher_manager -> Prop :=
| reach_make : forall r k, reachable (fst (make_manager r k))
| reach_get_cipher : forall m g k,
    reachable m -> is_u32 g -> reachable (snd (fst (get_cipher m g k)))
| reach_report : forall m g n k,
    reachable m -> is_u32 g -> is_u32 n -> reachable (fst (report_cipher_success m g n k))
| reach_update_expiry : forall m d, reachable m -> reachable (update_expiry m d).

End manager.
End cryptor_manager.

(** ** The inbound decryptor (decryptor.cpp) *)

(** What an [InboundFrameProcessor] holds after [ParseFrame]. *)
Record inbound_frame := {
  IsEncrypted : bool;
  GetTag : list byte;
  GetTruncatedNonce : truncated_sync_nonce;
  GetAuthenticatedData : list byte;
  GetCiphertext : list byte;
  GetPlaintext : list byte
}.

(** The frame processor is declared outside the tree: parsing a wire frame
    and reconstructing the decrypted frame into the output buffer (the
    number of bytes written and the buffer afterwards). *)
Class frame_processor_interface := {
  ParseFrame : list byte -> inbound_frame;
  ReconstructFrame : inbound_frame -> list byte -> Z * list byte
}.

Module decryptor.
Import cryptor_manager.
Section decryptor.
Context `{clock_interface} `{key_ratchet_interface} `{frame_processor_interface}.
Local Open Scope clocked_scope.

(** [media_type] is an enumeration over an integer; audio and video are
    its two enumerators, 0 and 1, and index the two entries of [stats_]. *)
Definition media_type := Z.
Definition media_audio : media_type := 0.
Definition media_video : media_type := 1.

(** Modelled from the spec: the canonical Opus silence packet
    [0xF8 0xFF 0xFE] (common.h, not in the tree). *)
Definition kOpusSilencePacket : list byte := [xf8; xff; xfe].

(** Modelled from the spec: the truncated nonce sits at offset
    [TRUNCATED_SYNC_NONCE_OFFSET = 4] of the 12-byte nonce. *)
Definition kAesGcm128NonceBytes : nat := 12.
Definition kAesGcm128TruncatedSyncNonceOffset : nat := 4.
Definition kAesGcm128TruncatedSyncNonceBytes : nat := 4.

Definition kStatsInterval : duration := 10 * ticks_per_second.

Record decryption_stats := {
  passthroughCount : Z;
  decryptSuccessCount : Z;
  decryptFailureCount : Z;
  decryptDuration : Z;
  decryptAttempts : Z
}.

Record decryptor := {
  cryptorManagers_ : list aead_cipher_manager;  (* front of the deque first *)
  allowPassThroughUntil_ : time_point;
  lastStatsTime_ : time_point;
  stats_audio : decryption_stats;
  stats_video : decryption_stats;
  frameProcessors_ : nat                        (* processors in the pool *)
}.

(** [stats_[mediaType]], for the two valid media types. *)
Definition stats_ (d : decryptor) (mediaType : media_type) : decryption_stats :=
  if mediaType =? media_audio then stats_audio d else stats_video d.

Definition set_stats (d : decryptor) (mediaType : media_type) (s : decryption_stats)
    : decryptor :=
  {| cryptorManagers_ := cryptorManagers_ d;
     allowPassThroughUntil_ := allowPassThroughUntil_ d;
     lastStatsTime_ := lastStatsTime_ d;
     stats_audio := if mediaType =? media_audio then s else stats_audio d;
     stats_video := if mediaType =? media_audio then stats_video d else s;
     frameProcessors_ := frameProcessors_ d |}.

Definition set_managers (d : decryptor) (ms : list aead_cipher_manager) : decryptor :=
  {| cryptorManagers_ := ms;
     allowPassThroughUntil_ := allowPassThroughUntil_ d;
     lastStatsTime_ := lastStatsTime_ d;
     stats_audio := stats_audio d;
     stats_video := stats_video d;
     frameProcessors_ := frameProcessors_ d |}.

Definition set_passthrough_until (d : decryptor) (t : time_point) : decryptor :=
  {| cryptorManagers_ := cryptorManagers_ d;
     allowPassThroughUntil_ := t;
     lastStatsTime_ := lastStatsTime_ d;
     stats_audio := stats_audio d;
     stats_video := stats_video d;
     frameProcessors_ := frameProcessors_ d |}.

Definition set_last_stats_time (d : decryptor) (t : time_point) : decryptor :=
  {| cryptorManagers_ := cryptorManagers_ d;
     allowPassThroughUntil_ := allowPassThroughUntil_ d;
     lastStatsTime_ := t;
     stats_audio := stats_audio d;
     stats_video := stats_video d;
     frameProcessors_ := frameProcessors_ d |}.

Definition set_pool (d : decryptor) (n : nat) : decryptor :=
  {| cryptorManagers_ := cryptorManagers_ d;
     allowPassThroughUntil_ := allowPassThroughUntil_ d;
     lastStatsTime_ := lastStatsTime_ d;
     stats_audio := stats_audio d;
     stats_video := stats_video d;
     frameProcessors_ := n |}.

Definition count_passthrough (s : decryption_stats) : decryption_stats :=
  {| passthroughCount := wrap64 (passthroughCount s + 1);
     decryptSuccessCount := decryptSuccessCount s;
     decryptFailureCount := decryptFailureCount s;
     decryptDuration := decryptDuration s;
     decryptAttempts := decryptAttempts s |}.

Definition count_success (s : decryption_stats) : decryption_stats :=
  {| passthroughCount := passthroughCount s;
     decryptSuccessCount := wrap64 (decryptSuccessCount s + 1);
     decryptFailureCount := decryptFailureCount s;
     decryptDuration := decryptDuration s;
     decryptAttempts := decryptAttempts s |}.

Definition count_failure (s : decryption_stats) : decryption_stats :=
  {| passthroughCount := passthroughCount s;
     decryptSuccessCount := decryptSuccessCount s;
     decryptFailureCount := wrap64 (decryptFailureCount s + 1);
     decryptDuration := decryptDuration s;
     decryptAttempts := decryptAttempts s |}.

Definition count_attempt (s : decryption_stats) : decryption_stats :=
  {| passthroughCount := passthroughCount s;
     decryptSuccessCount := decryptSuccessCount s;
     decryptFailureCount := decryptFailureCount s;
     decryptDuration := decryptDuration s;
     decryptAttempts := wrap64 (decryptAttempts s + 1) |}.

Definition add_duration (s : decryption_stats) (microseconds : Z) : decryption_stats :=
  {| passthroughCount := passthroughCount s;
     decryptSuccessCount := decryptSuccessCount s;
     decryptFailureCount := decryptFailureCount s;
     decryptDuration := wrap64 (decryptDuration s + microseconds);
     decryptAttempts := decryptAttempts s |}.

(** [UpdateCryptorManagerExpiry]. *)
Definition UpdateCryptorManagerExpiry (d : decryptor) (expiry : duration)
    : Clocked decryptor :=
  t <- now ;;
  let maxExpiryTime := wrap_s64 (t + expiry) in
  ret (set_managers d (map (fun m => update_expiry m maxExpiryTime) (cryptorManagers_ d))).

(** [TransitionToKeyRatchet]: [None] is a null ratchet. *)
Definition TransitionToKeyRatchet (d : decryptor) (keyRatchet : option IKeyRatchet)
    (transitionExpiry : duration) : Clocked decryptor :=
  d1 <- UpdateCryptorManagerExpiry d transitionExpiry ;;
  match keyRatchet with
  | Some r =>
      m <- make_manager r ;;
      ret (set_managers d1 (cryptorManagers_ d1 ++ [m]))
  | None => ret d1
  end.

(** [TransitionToPassthroughMode]. *)
Definition TransitionToPassthroughMode (d : decryptor) (passthroughMode : bool)
    (transitionExpiry : duration) : Clocked decryptor :=
  if passthroughMode then ret (set_passthrough_until d time_point_max)
  else
    t <- now ;;
    let maxExpiry := wrap_s64 (t + transitionExpiry) in
    ret (set_passthrough_until d (Z.min (allowPassThroughUntil_ d) maxExpiry)).

(** [CleanupExpiredCryptorManagers]: expired managers leave from the
    front. *)
Fixpoint CleanupExpiredCryptorManagers (ms : list aead_cipher_manager)
    : Clocked (list aead_cipher_manager) :=
  match ms with
  | [] => ret []
  | front :: rest =>
      expired <- is_expired front ;;
      if expired then CleanupExpiredCryptorManagers rest else ret ms
  end.

(** [GetOrCreateFrameProcessor] and [ReturnFrameProcessor], on the size of
    the pool. *)
Definition GetOrCreateFrameProcessor (d : decryptor) : decryptor :=
  set_pool d (Nat.pred (frameProcessors_ d)).

Definition ReturnFrameProcessor (d : decryptor) : decryptor :=
  set_pool d (S (frameProcessors_ d)).

(** The bytes of a [uint32_t], least significant first. *)
Definition byte_of_Z (z : Z) : byte :=
  match Byte.of_N (Z.to_N (z mod 256)) with Some b => b | None => x00 end.

Definition le_bytes32 (z : Z) : list byte :=
  [byte_of_Z z; byte_of_Z (Z.shiftr z 8); byte_of_Z (Z.shiftr z 16); byte_of_Z (Z.shiftr z 24)].

(** The full nonce: zero bytes with the truncated nonce copied in at its
    offset. *)
Definition expand_nonce (truncatedNonce : truncated_sync_nonce) : list byte :=
  repeat x00 kAesGcm128TruncatedSyncNonceOffset ++ le_bytes32 truncatedNonce ++
  repeat x00 (kAesGcm128NonceBytes - kAesGcm128TruncatedSyncNonceOffset
              - kAesGcm128TruncatedSyncNonceBytes).

Definition set_plaintext (f : inbound_frame) (p : list byte) : inbound_frame :=
  {| IsEncrypted := IsEncrypted f;
     GetTag := GetTag f;
     GetTruncatedNonce := GetTruncatedNonce f;
     GetAuthenticatedData := GetAuthenticatedData f;
     GetCiphertext := GetCiphertext f;
     GetPlaintext := p |}.

(** [DecryptImpl] for one manager: success, the manager, the frame
    processor and the statistics of the media type afterwards. *)
Definition DecryptImpl (cryptorManager : aead_cipher_manager) (encryptedFrame : inbound_frame)
    (s : decryption_stats)
    : Clocked (bool * aead_cipher_manager * inbound_frame * decryption_stats) :=
  let truncatedNonce := GetTruncatedNonce encryptedFrame in
  let nonceBuffer := expand_nonce truncatedNonce in
  let generation :=
    compute_wrapped_generation_of cryptorManager
      (Z.shiftr truncatedNonce RATCHET_GENERATION_SHIFT_BITS) in
  if negb (can_process_nonce cryptorManager generation truncatedNonce)
  then ret (false, cryptorManager, encryptedFrame, s)
  else
    '(c, m1) <- get_cipher cryptorManager generation ;;
    match c with
    | None => ret (false, m1, encryptedFrame, s)
    | Some cipher =>
        match cipher_decrypt cipher (GetCiphertext encryptedFrame) (GetTag encryptedFrame)
                nonceBuffer (GetAuthenticatedData encryptedFrame) with
        | Some plaintext =>
            m2 <- report_cipher_success m1 generation truncatedNonce ;;
            ret (true, m2, set_plaintext encryptedFrame plaintext, count_attempt s)
        | None => ret (false, m1, encryptedFrame, count_attempt s)
        end
    end.

(** The loop of [decrypt] over the managers, newest first ([ms] is the
    deque reversed); it stops at the first success. *)
Fixpoint try_cryptor_managers (ms : list aead_cipher_manager) (f : inbound_frame)
    (s : decryption_stats)
    : Clocked (bool * list aead_cipher_manager * inbound_frame * decryption_stats) :=
  match ms with
  | [] => ret (false, [], f, s)
  | m :: rest =>
      '(success, m', f', s') <- DecryptImpl m f s ;;
      if success then ret (true, m' :: rest, f', s')
      else
        '(success', rest', f'', s'') <- try_cryptor_managers rest f' s' ;;
        ret (success', m' :: rest', f'', s'')
  end.

(** [std::memcpy(frame.data(), encryptedFrame.data(), encryptedFrame.size())],
    into an output buffer that the caller makes at least as long as the
    frame. *)
Definition copy_into (frame encryptedFrame : list byte) : list byte :=
  encryptedFrame ++ skipn (List.length encryptedFrame) frame.

(** What a call of [decrypt] leaves behind: the return value, the output
    buffer, and the frame processor as [ParseFrame] left it when the call
    got as far as parsing. *)
Record decrypt_result := {
  bytes_written : Z;
  frame_out : list byte;
  parsed : option inbound_frame
}.

Definition is_silence (mediaType : media_type) (encryptedFrame : list byte) : bool :=
  (mediaType =? media_audio) &&
  (if list_eq_dec Byte.byte_eq_dec encryptedFrame kOpusSilencePacket then true else false).

(** [decrypt]. *)
Definition decrypt (d : decryptor) (mediaType : media_type) (encryptedFrame frame : list byte)
    : Clocked (decrypt_result * decryptor) :=
  if negb (mediaType =? media_audio) && negb (mediaType =? media_video)
  then ret ({| bytes_written := 0; frame_out := frame; parsed := None |}, d)
  else
    start <- now ;;
    let d0 := GetOrCreateFrameProcessor d in
    if is_silence mediaType encryptedFrame
    then ret ({| bytes_written := Z.of_nat (List.length encryptedFrame);
                 frame_out := copy_into frame encryptedFrame;
                 parsed := None |}, ReturnFrameProcessor d0)
    else
      ms <- CleanupExpiredCryptorManagers (cryptorManagers_ d0) ;;
      let d1 := set_managers d0 ms in
      let localFrame := ParseFrame encryptedFrame in
      let canUsePassThrough := start <? allowPassThroughUntil_ d1 in
      if negb (IsEncrypted localFrame) && canUsePassThrough
      then ret ({| bytes_written := Z.of_nat (List.length encryptedFrame);
                   frame_out := copy_into frame encryptedFrame;
                   parsed := Some localFrame |},
                ReturnFrameProcessor
                  (set_stats d1 mediaType (count_passthrough (stats_ d1 mediaType))))
      else if negb (IsEncrypted localFrame)
      then ret ({| bytes_written := 0; frame_out := frame; parsed := Some localFrame |},
                ReturnFrameProcessor
                  (set_stats d1 mediaType (count_failure (stats_ d1 mediaType))))
      else
        '(success, ms', localFrame', s') <-
          try_cryptor_managers (rev (cryptorManagers_ d1)) localFrame (stats_ d1 mediaType) ;;
        let d2 := set_stats (set_managers d1 (rev ms')) mediaType s' in
        let '(bytesWritten, frame', d3) :=
          if success
          then let '(n, out) := ReconstructFrame localFrame' frame in
               (n, out, set_stats d2 mediaType (count_success (stats_ d2 mediaType)))
          else (0, frame, set_stats d2 mediaType (count_failure (stats_ d2 mediaType))) in
        finish <- now ;;
        let d4 :=
          if wrap_s64 (lastStatsTime_ d3 + kStatsInterval) <? finish
          then set_last_stats_time d3 finish else d3 in
        let microseconds := Z.quot (wrap_s64 (finish - start)) 1000 in
        ret ({| bytes_written := bytesWritten; frame_out := frame';
                parsed := Some localFrame |},
             ReturnFrameProcessor
               (set_stats d4 mediaType (add_duration (stats_ d4 mediaType) microseconds))).

End decryptor.
End decryptor.

(** ** The outbound encryptor (encryptor.cpp) *)

(** The outbound frame processor, the LEB128 and range serialisers and the
    codec check are declared outside the tree. *)
Class outbound_interface := {
  Codec : Type;
  Codec_Unknown : Codec;
  OutboundFrameProcessor : Type;
  ProcessFrame : list byte -> Codec -> OutboundFrameProcessor;
  GetUnencryptedBytes : OutboundFrameProcessor -> list byte;
  GetEncryptedBytes : OutboundFrameProcessor -> list byte;
  (* the processor once the cipher has filled its ciphertext buffer *)
  SetCiphertextBytes : OutboundFrameProcessor -> list byte -> OutboundFrameProcessor;
  (* the bytes [ReconstructFrame] writes at the start of the output *)
  ReconstructOutboundFrame : OutboundFrameProcessor -> list byte;
  UnencryptedRangesSize : OutboundFrameProcessor -> nat;
  SerializeUnencryptedRanges : OutboundFrameProcessor -> list byte;
  Leb128Size : truncated_sync_nonce -> nat;
  WriteLeb128 : truncated_sync_nonce -> list byte;
  validate_encrypted_frame : OutboundFrameProcessor -> list byte -> bool;
  kSupplementalBytes : Z;
  MaxSupportedProtocolVersion : Z
}.

Module encryptor.
Import cryptor_manager.
Section encryptor.
Context `{clock_interface} `{key_ratchet_interface} `{outbound_interface}.
Local Open Scope clocked_scope.

Definition MediaType := Z.
Definition Audio : MediaType := 0.
Definition Video : MediaType := 1.

(** Modelled from the spec: a 12-byte nonce with the 4-byte truncated
    nonce at offset 4, a tag truncated to 8 bytes, and the magic marker
    [0xFAFA] (common.h, not in the tree). *)
Definition kAesGcm128NonceBytes : nat := 12.
Definition kAesGcm128TruncatedSyncNonceOffset : nat := 4.
Definition kAesGcm128TruncatedSyncNonceBytes : nat := 4.
Definition kAesGcm128TruncatedTagBytes : nat := 8.
Definition kMarkerBytes : list byte := [xfa; xfa].
Definition kStatsInterval : duration := 10 * ticks_per_second.
Definition MAX_CIPHERTEXT_VALIDATION_RETRIES : Z := 10.

(** What [Encrypt] returns: the literal [0] of the media-type guard, or a
    [ResultCode]. *)
Inductive encrypt_return := ReturnedZero | Success | EncryptionFailure.

Record encryption_stats := {
  passthroughCount : Z;
  encryptSuccessCount : Z;
  encryptFailureCount : Z;
  encryptDuration : Z;
  encryptAttempts : Z;
  encryptMaxAttempts : Z
}.

Record Encryptor := {
  keyRatchet_ : option IKeyRatchet;
  cryptor_ : option cipher_interface;
  currentKeyGeneration_ : KeyGeneration;
  truncatedNonce_ : truncated_sync_nonce;
  passthroughMode_ : bool;
  currentProtocolVersion_ : Z;
  protocolVersionChangedCallback_ : bool;   (* a callback is installed *)
  protocolVersionChanges : nat;             (* times it has been called *)
  ssrcCodecPairs_ : list (Z * Codec);
  stats_audio : encryption_stats;
  stats_video : encryption_stats;
  lastStatsTime_ : time_point;
  frameProcessors_ : nat
}.

Definition stats_ (e : Encryptor) (mediaType : MediaType) : encryption_stats :=
  if mediaType =? Audio then stats_audio e else stats_video e.

Definition set_stats (e : Encryptor) (mediaType : MediaType) (s : encryption_stats)
    : Encryptor :=
  {| keyRatchet_ := keyRatchet_ e; cryptor_ := cryptor_ e;
     currentKeyGeneration_ := currentKeyGeneration_ e;
     truncatedNonce_ := truncatedNonce_ e;
     passthroughMode_ := passthroughMode_ e;
     currentProtocolVersion_ := currentProtocolVersion_ e;
     protocolVersionChangedCallback_ := protocolVersionChangedCallback_ e;
     protocolVersionChanges := protocolVersionChanges e;
     ssrcCodecPairs_ := ssrcCodecPairs_ e;
     stats_audio := if mediaType =? Audio then s else stats_audio e;
     stats_video := if mediaType =? Audio then stats_video e else s;
     lastStatsTime_ := lastStatsTime_ e;
     frameProcessors_ := frameProcessors_ e |}.

Definition set_key_state (e : Encryptor) (r : option IKeyRatchet)
    (c : option cipher_interface) (g : KeyGeneration) (n : truncated_sync_nonce)
    : Encryptor :=
  {| keyRatchet_ := r; cryptor_ := c;
     currentKeyGeneration_ := g;
     truncatedNonce_ := n;
     passthroughMode_ := passthroughMode_ e;
     currentProtocolVersion_ := currentProtocolVersion_ e;
     protocolVersionChangedCallback_ := protocolVersionChangedCallback_ e;
     protocolVersionChanges := protocolVersionChanges e;
     ssrcCodecPairs_ := ssrcCodecPairs_ e;
     stats_audio := stats_audio e;
     stats_video := stats_video e;
     lastStatsTime_ := lastStatsTime_ e;
     frameProcessors_ := frameProcessors_ e |}.

Definition set_protocol (e : Encryptor) (passthrough : bool) (version : Z) (calls : nat)
    : Encryptor :=
  {| keyRatchet_ := keyRatchet_ e; cryptor_ := cryptor_ e;
     currentKeyGeneration_ := currentKeyGeneration_ e;
     truncatedNonce_ := truncatedNonce_ e;
     passthroughMode_ := passthrough;
     currentProtocolVersion_ := version;
     protocolVersionChangedCallback_ := protocolVersionChangedCallback_ e;
     protocolVersionChanges := calls;
     ssrcCodecPairs_ := ssrcCodecPairs_ e;
     stats_audio := stats_audio e;
     stats_video := stats_video e;
     lastStatsTime_ := lastStatsTime_ e;
     frameProcessors_ := frameProcessors_ e |}.

Definition set_codecs (e : Encryptor) (pairs : list (Z * Codec)) : Encryptor :=
  {| keyRatchet_ := keyRatchet_ e; cryptor_ := cryptor_ e;
     currentKeyGeneration_ := currentKeyGeneration_ e;
     truncatedNonce_ := truncatedNonce_ e;
     passthroughMode_ := passthroughMode_ e;
     currentProtocolVersion_ := currentProtocolVersion_ e;
     protocolVersionChangedCallback_ := protocolVersionChangedCallback_ e;
     protocolVersionChanges := protocolVersionChanges e;
     ssrcCodecPairs_ := pairs;
     stats_audio := stats_audio e;
     stats_video := stats_video e;
     lastStatsTime_ := lastStatsTime_ e;
     frameProcessors_ := frameProcessors_ e |}.

Definition set_pool_and_time (e : Encryptor) (pool : nat) (t : time_point) : Encryptor :=
  {| keyRatchet_ := keyRatchet_ e; cryptor_ := cryptor_ e;
     currentKeyGeneration_ := currentKeyGeneration_ e;
     truncatedNonce_ := truncatedNonce_ e;
     passthroughMode_ := passthroughMode_ e;
     currentProtocolVersion_ := currentProtocolVersion_ e;
     protocolVersionChangedCallback_ := protocolVersionChangedCallback_ e;
     protocolVersionChanges := protocolVersionChanges e;
     ssrcCodecPairs_ := ssrcCodecPairs_ e;
     stats_audio := stats_audio e;
     stats_video := stats_video e;
     lastStatsTime_ := t;
     frameProcessors_ := pool |}.

(** [SetKeyRatchet]. *)
Definition SetKeyRatchet (e : Encryptor) (keyRatchet : option IKeyRatchet) : Encryptor :=
  set_key_state e keyRatchet None 0 0.

(** [UpdateCurrentProtocolVersion] and [SetPassthroughMode]. *)
Definition SetPassthroughMode (e : Encryptor) (passthroughMode : bool) : Encryptor :=
  let version := if passthroughMode then 0 else MaxSupportedProtocolVersion in
  if version =? currentProtocolVersion_ e
  then set_protocol e passthroughMode (currentProtocolVersion_ e) (protocolVersionChanges e)
  else set_protocol e passthroughMode version
         (if protocolVersionChangedCallback_ e then S (protocolVersionChanges e)
          else protocolVersionChanges e).

(** [AssignSsrcToCodec] and [CodecForSsrc]. *)
Fixpoint assign_codec (pairs : list (Z * Codec)) (ssrc : Z) (codecType : Codec)
    : list (Z * Codec) :=
  match pairs with
  | [] => [(ssrc, codecType)]
  | (s, c) :: rest =>
      if s =? ssrc then (s, codecType) :: rest else (s, c) :: assign_codec rest ssrc codecType
  end.

Definition AssignSsrcToCodec (e : Encryptor) (ssrc : Z) (codecType : Codec) : Encryptor :=
  set_codecs e (assign_codec (ssrcCodecPairs_ e) ssrc codecType).

Fixpoint codec_for (pairs : list (Z * Codec)) (ssrc : Z) : Codec :=
  match pairs with
  | [] => Codec_Unknown
  | (s, c) :: rest => if s =? ssrc then c else codec_for rest ssrc
  end.

Definition CodecForSsrc (e : Encryptor) (ssrc : Z) : Codec :=
  codec_for (ssrcCodecPairs_ e) ssrc.

(** [GetNextCryptorAndNonce]: the cipher (null without a ratchet) and the
    truncated nonce to use. *)
Definition GetNextCryptorAndNonce (e : Encryptor)
    : option cipher_interface * truncated_sync_nonce * Encryptor :=
  match keyRatchet_ e with
  | None => (None, 0, e)
  | Some r =>
      let nonce := wrap32 (truncatedNonce_ e + 1) in
      let generation :=
        compute_wrapped_generation (currentKeyGeneration_ e)
          (Z.shiftr nonce RATCHET_GENERATION_SHIFT_BITS) in
      if negb (generation =? currentKeyGeneration_ e) ||
         (match cryptor_ e with None => true | Some _ => false end)
      then
        let '(encryptionKey, r') := GetKey r generation in
        let c := create_cipher encryptionKey in
        (c, nonce, set_key_state e (Some r') c generation nonce)
      else (cryptor_ e, nonce, set_key_state e (Some r) (cryptor_ e) (currentKeyGeneration_ e) nonce)
  end.

Definition count_attempt (s : encryption_stats) (attempt : Z) : encryption_stats :=
  {| passthroughCount := passthroughCount s;
     encryptSuccessCount := encryptSuccessCount s;
     encryptFailureCount := encryptFailureCount s;
     encryptDuration := encryptDuration s;
     encryptAttempts := wrap64 (encryptAttempts s + 1);
     encryptMaxAttempts := Z.max (encryptMaxAttempts s) attempt |}.

Definition count_passthrough (s : encryption_stats) : encryption_stats :=
  {| passthroughCount := wrap64 (passthroughCount s + 1);
     encryptSuccessCount := encryptSuccessCount s;
     encryptFailureCount := encryptFailureCount s;
     encryptDuration := encryptDuration s;
     encryptAttempts := encryptAttempts s;
     encryptMaxAttempts := encryptMaxAttempts s |}.

Definition count_failure (s : encryption_stats) : encryption_stats :=
  {| passthroughCount := passthroughCount s;
     encryptSuccessCount := encryptSuccessCount s;
     encryptFailureCount := wrap64 (encryptFailureCount s + 1);
     encryptDuration := encryptDuration s;
     encryptAttempts := encryptAttempts s;
     encryptMaxAttempts := encryptMaxAttempts s |}.

Definition count_success (s : encryption_stats) : encryption_stats :=
  {| passthroughCount := passthroughCount s;
     encryptSuccessCount := wrap64 (encryptSuccessCount s + 1);
     encryptFailureCount := encryptFailureCount s;
     encryptDuration := encryptDuration s;
     encryptAttempts := encryptAttempts s;
     encryptMaxAttempts := encryptMaxAttempts s |}.

Definition add_duration (s : encryption_stats) (microseconds : Z) : encryption_stats :=
  {| passthroughCount := passthroughCount s;
     encryptSuccessCount := encryptSuccessCount s;
     encryptFailureCount := encryptFailureCount s;
     encryptDuration := wrap64 (encryptDuration s + microseconds);
     encryptAttempts := encryptAttempts s;
     encryptMaxAttempts := encryptMaxAttempts s |}.

(** Writing [bytes] into a buffer at [offset]. *)
Definition write_at (buf : list byte) (offset : nat) (bytes : list byte) : list byte :=
  firstn offset buf ++ bytes ++ skipn (offset + List.length bytes) buf.

Definition expand_nonce (truncatedNonce : truncated_sync_nonce) : list byte :=
  repeat x00 kAesGcm128TruncatedSyncNonceOffset ++
  decryptor.le_bytes32 truncatedNonce ++
  repeat x00 (kAesGcm128NonceBytes - kAesGcm128TruncatedSyncNonceOffset
              - kAesGcm128TruncatedSyncNonceBytes).

(** How one iteration of the retry loop of [Encrypt] ends. *)
Inductive attempt_outcome :=
| Validated (encryptedFrameBytes : Z)   (* [*bytesWritten] is set, the loop is left *)
| Broken                                (* [EncryptionFailure], the loop is left *)
| Retry.                                (* the ciphertext is not valid for the codec *)

(** The body of the retry loop for attempt number [attempt]: the outcome,
    the encryptor, the output buffer, and the generation and truncated
    nonce that [GetNextCryptorAndNonce] handed out. *)
Definition encrypt_attempt (e : Encryptor) (mediaType : MediaType)
    (frameProcessor : OutboundFrameProcessor) (encryptedFrame : list byte) (attempt : Z)
    : attempt_outcome * Encryptor * list byte * (KeyGeneration * truncated_sync_nonce) :=
  let '(cryptor, truncatedNonce, e1) := GetNextCryptorAndNonce e in
  let used := (currentKeyGeneration_ e1, truncatedNonce) in
  match cryptor with
  | None => (Broken, e1, encryptedFrame, used)
  | Some c =>
      let nonceBuffer := expand_nonce truncatedNonce in
      let frameSize :=
        (List.length (GetEncryptedBytes frameProcessor) +
         List.length (GetUnencryptedBytes frameProcessor))%nat in
      let e2 := set_stats e1 mediaType (count_attempt (stats_ e1 mediaType) attempt) in
      match cipher_encrypt c (GetEncryptedBytes frameProcessor) nonceBuffer
              (GetUnencryptedBytes frameProcessor) with
      | None => (Broken, e2, encryptedFrame, used)
      | Some (ciphertext, tag) =>
          let out1 := write_at encryptedFrame frameSize tag in
          let reconstructed :=
            ReconstructOutboundFrame (SetCiphertextBytes frameProcessor ciphertext) in
          let out2 := write_at out1 0 reconstructed in
          let nonceSize := Leb128Size truncatedNonce in
          let unencryptedRangesSize := UnencryptedRangesSize frameProcessor in
          let nonceAt := (frameSize + kAesGcm128TruncatedTagBytes)%nat in
          let out3 := write_at out2 nonceAt (WriteLeb128 truncatedNonce) in
          if negb (List.length (WriteLeb128 truncatedNonce) =? nonceSize)%nat
          then (Broken, e2, out3, used)
          else
            let rangesAt := (nonceAt + nonceSize)%nat in
            let out4 := write_at out3 rangesAt (SerializeUnencryptedRanges frameProcessor) in
            if negb (List.length (SerializeUnencryptedRanges frameProcessor)
                     =? unencryptedRangesSize)%nat
            then (Broken, e2, out4, used)
            else
              let supplementalBytes :=
                (kSupplementalBytes + Z.of_nat nonceSize + Z.of_nat unencryptedRangesSize)
                mod 256 in
              let suppAt := (rangesAt + unencryptedRangesSize)%nat in
              let out5 := write_at out4 suppAt [decryptor.byte_of_Z supplementalBytes] in
              let out6 := write_at out5 (suppAt + 1)%nat kMarkerBytes in
              let encryptedFrameBytes :=
                (List.length reconstructed + kAesGcm128TruncatedTagBytes + nonceSize +
                 unencryptedRangesSize + 1 + 2)%nat in
              if validate_encrypted_frame (SetCiphertextBytes frameProcessor ciphertext)
                   (firstn encryptedFrameBytes out6)
              then (Validated (Z.of_nat encryptedFrameBytes), e2, out6, used)
              else if MAX_CIPHERTEXT_VALIDATION_RETRIES <=? attempt
              then (Broken, e2, out6, used)
              else (Retry, e2, out6, used)
      end
  end.

(** The retry loop, from attempt number [attempt]; [fuel] bounds the
    number of iterations.  The last component lists, in order, what each
    iteration obtained from [GetNextCryptorAndNonce]. *)
Fixpoint encrypt_loop (fuel : nat) (attempt : Z) (e : Encryptor) (mediaType : MediaType)
    (frameProcessor : OutboundFrameProcessor) (encryptedFrame : list byte)
    : encrypt_return * option Z * Encryptor * list byte *
      list (KeyGeneration * truncated_sync_nonce) :=
  match fuel with
  | O => (Success, None, e, encryptedFrame, [])
  | S fuel' =>
      if attempt <=? MAX_CIPHERTEXT_VALIDATION_RETRIES then
        let '(outcome, e1, out, used) :=
          encrypt_attempt e mediaType frameProcessor encryptedFrame attempt in
        match outcome with
        | Validated n => (Success, Some n, e1, out, [used])
        | Broken => (EncryptionFailure, None, e1, out, [used])
        | Retry =>
            let '(r, n, e2, out', rest) :=
              encrypt_loop fuel' (attempt + 1) e1 mediaType frameProcessor out in
            (r, n, e2, out', used :: rest)
        end
      else (Success, None, e, encryptedFrame, [])
  end.

Record encrypt_result := {
  result : encrypt_return;
  bytesWritten : option Z;        (* [None]: [*bytesWritten] is left alone *)
  encryptedFrame_out : list byte;
  attempts : list (KeyGeneration * truncated_sync_nonce)
}.

(** [Encrypt]. *)
Definition Encrypt (e : Encryptor) (mediaType : MediaType) (ssrc : Z)
    (frame encryptedFrame : list byte) : Clocked (encrypt_result * Encryptor) :=
  if negb (mediaType =? Audio) && negb (mediaType =? Video)
  then ret ({| result := ReturnedZero; bytesWritten := None;
               encryptedFrame_out := encryptedFrame; attempts := [] |}, e)
  else if passthroughMode_ e
  then ret ({| result := Success; bytesWritten := Some (Z.of_nat (List.length frame));
               encryptedFrame_out := decryptor.copy_into encryptedFrame frame;
               attempts := [] |},
            set_stats e mediaType (count_passthrough (stats_ e mediaType)))
  else
    match keyRatchet_ e with
    | None =>
        ret ({| result := EncryptionFailure; bytesWritten := None;
                encryptedFrame_out := encryptedFrame; attempts := [] |},
             set_stats e mediaType (count_failure (stats_ e mediaType)))
    | Some _ =>
        start <- now ;;
        let codec := CodecForSsrc e ssrc in
        let frameProcessor := ProcessFrame frame codec in
        let '(r, n, e1, out, used) :=
          encrypt_loop (Z.to_nat MAX_CIPHERTEXT_VALIDATION_RETRIES) 1 e mediaType
            frameProcessor encryptedFrame in
        finish <- now ;;
        let microseconds := Z.quot (wrap_s64 (finish - start)) 1000 in
        let e2 := set_stats e1 mediaType (add_duration (stats_ e1 mediaType) microseconds) in
        let e3 :=
          match r with
          | Success => set_stats e2 mediaType (count_success (stats_ e2 mediaType))
          | _ => set_stats e2 mediaType (count_failure (stats_ e2 mediaType))
          end in
        let pool := S (Nat.pred (frameProcessors_ e3)) in
        let e4 :=
          if wrap_s64 (lastStatsTime_ e3 + kStatsInterval) <? finish
          then set_pool_and_time e3 pool finish
          else set_pool_and_time e3 pool (lastStatsTime_ e3) in
        ret ({| result := r; bytesWritten := n; encryptedFrame_out := out;
                attempts := used |}, e4)
    end.

(** The calls a user of the encryptor makes between two installations of
    a key ratchet. *)
Inductive encryptor_call :=
| call_Encrypt (mediaType : MediaType) (ssrc : Z) (frame encryptedFrame : list byte)
| call_SetPassthroughMode (passthroughMode : bool)
| call_AssignSsrcToCodec (ssrc : Z) (codecType : Codec).

(** Running a sequence of calls: the encryptor afterwards and, in order,
    the generation and truncated nonce of every encryption attempt made. *)
Fixpoint run_calls (calls : list encryptor_call) (e : Encryptor)
    : Clocked (list (KeyGeneration * truncated_sync_nonce) * Encryptor) :=
  match calls with
  | [] => ret ([], e)
  | call_Encrypt mediaType ssrc frame encryptedFrame :: rest =>
      '(r, e1) <- Encrypt e mediaType ssrc frame encryptedFrame ;;
      '(used, e2) <- run_calls rest e1 ;;
      ret (attempts r ++ used, e2)
  | call_SetPassthroughMode passthroughMode :: rest =>
      run_calls rest (SetPassthroughMode e passthroughMode)
  | call_AssignSsrcToCodec ssrc codecType :: rest =>
      run_calls rest (AssignSsrcToCodec e ssrc codecType)
  end.

(** *** Sequences of attempts *)

(** The truncated nonces [n + 1], [n + 2], ... ([len] of them), as the
    32-bit counter yields them. *)
Definition counted_from (n : Z) (len : nat) : list Z :=
  map (fun i => wrap32 (n + Z.of_nat i)) (seq 1 len).

(** The key state of an encryptor straight after [SetKeyRatchet]. *)
Definition fresh (e : Encryptor) : Prop :=
  cryptor_ e = None /\ currentKeyGeneration_ e = 0 /\ truncatedNonce_ e = 0.

(** What a sequence of attempts looks like when it starts from counter
    value [n], and from a fresh key state. *)
Definition attempts_from (e e' : Encryptor)
    (used : list (KeyGeneration * truncated_sync_nonce)) : Prop :=
  map snd used = counted_from (truncatedNonce_ e) (List.length used) /\
  truncatedNonce_ e' = wrap32 (truncatedNonce_ e + Z.of_nat (List.length used)) /\
  (fresh e -> (used = [] /\ fresh e') \/ hd_error used = Some (0, 1)).

End encryptor.
End encryptor.

(** ** The voice session (discordvoiceclient.cpp) *)

(** The C library and the JSON serialiser as the session uses them:
    [time(nullptr)] and [rand()] at the [k]-th call into the library, the
    test that a heartbeat is due (a comparison of floating-point values in
    the source), and the text of a heartbeat message. *)
Class system_interface := {
  time_reading : nat -> Z;
  rand_reading : nat -> Z;
  heartbeat_due : Z -> Z -> Z -> bool;   (* now, last heartbeat, interval *)
  heartbeat_json : Z -> Z -> string      (* token, acknowledged sequence *)
}.

Module voice_client.

(** What a call that may throw, or may fail to return, does. *)
Inductive outcome (A : Type) :=
| returns (a : A)
| throws_out_of_range
| never_returns.
#[global] Arguments returns {A} a.
#[global] Arguments throws_out_of_range {A}.
#[global] Arguments never_returns {A}.

Section voice_client.
Context `{system_interface}.
Local Open Scope clocked_scope.


(** [std::to_string] of an unsigned value: its decimal digits. *)
Definition digit_char (d : Z) : ascii := ascii_of_nat (48 + Z.to_nat d).

Fixpoint to_string_from (fuel : nat) (n : Z) (acc : string) : string :=
  match fuel with
  | O => acc
  | S fuel' =>
      let acc' := String (digit_char (n mod 10)) acc in
      if n / 10 =? 0 then acc' else to_string_from fuel' (n / 10) acc'
  end.

Definition to_string (n : Z) : string := to_string_from 20 n EmptyString.

(** [std::setw(width) << std::setfill(fill) << s]: padded on the left. *)
Fixpoint fill_string (n : nat) (fill : ascii) : string :=
  match n with
  | O => EmptyString
  | S n' => String fill (fill_string n' fill)
  end.

Definition setw_setfill (width : nat) (fill : ascii) (s : string) : string :=
  String.append (fill_string (width - String.length s) fill) s.

(** The inner loop of [generate_displayable_code]: [j] counts down from
    [group_size]; [data.at] throws beyond the end of the data. *)
Fixpoint group_value_from (j : nat) (data : list byte) (i group_size : nat)
    (group_value : Z) : option Z :=
  match j with
  | O => Some group_value
  | S j' =>
      match nth_error data (i + (group_size - j)) with
      | None => None
      | Some next_byte =>
          group_value_from j' data i group_size
            (Z.lor (wrap64 (Z.shiftl group_value 8)) (Z.of_N (Byte.to_N next_byte)))
      end
  end.

(** The outer loop; [fuel] bounds the number of iterations. *)
Fixpoint code_from (fuel : nat) (data : list byte) (desired_length group_size i : nat)
    (result : string) : outcome string :=
  if (i <? desired_length)%nat then
    match fuel with
    | O => never_returns
    | S fuel' =>
        match group_value_from group_size data i group_size 0 with
        | None => throws_out_of_range
        | Some group_value =>
            let group_modulus := 10 ^ Z.of_nat group_size in
            let group_value := group_value mod group_modulus in
            code_from fuel' data desired_length group_size (i + group_size)
              (String.append result
                 (String.append (setw_setfill group_size "0"%char (to_string group_value))
                    " "%string))
        end
    end
  else returns result.

(** [generate_displayable_code(data, desired_length = 30, group_size = 5)]. *)
Definition generate_displayable_code (data : list byte) (desired_length group_size : nat)
    : outcome string :=
  code_from desired_length data desired_length group_size 0 EmptyString.

Inductive websocket_state := HTTP_HEADERS | CONNECTED.

Inductive loglevel := ll_debug | ll_warning | ll_error.

(** The members of [discord_voice_client] the modelled routines touch.
    [privacy_code] is [None] without an MLS state; [written] lists what was
    handed to [write], oldest first. *)
Record discord_voice_client := {
  privacy_code : option string;
  channel_id : Z;
  outbuf : list (string * Z);
  track_meta : list string;
  tracks : Z;
  terminating : bool;
  message_queue : list string;
  state : websocket_state;
  heartbeat_interval : Z;
  last_heartbeat : Z;
  receive_sequence : Z;
  written : list string;
  logged : list (loglevel * string)
}.

(** [log]: the lines handed to the owner's logger. *)
Definition log (c : discord_voice_client) (severity : loglevel) (msg : string)
    : discord_voice_client :=
  {| privacy_code := privacy_code c; channel_id := channel_id c;
     outbuf := outbuf c; track_meta := track_meta c; tracks := tracks c;
     terminating := terminating c; message_queue := message_queue c;
     state := state c; heartbeat_interval := heartbeat_interval c;
     last_heartbeat := last_heartbeat c; receive_sequence := receive_sequence c;
     written := written c; logged := logged c ++ [(severity, msg)] |}.

(** [is_end_to_end_encrypted]. *)
Definition is_end_to_end_encrypted (c : discord_voice_client) : bool :=
  match privacy_code c with
  | None => false
  | Some code => negb (String.eqb code EmptyString)
  end.

(** [get_privacy_code]. *)
Definition get_privacy_code (c : discord_voice_client) : string :=
  match privacy_code c with
  | Some code => if is_end_to_end_encrypted c then code else EmptyString
  | None => EmptyString
  end.

Definition set_privacy_code_field (c : discord_voice_client) (code : string)
    : discord_voice_client :=
  {| privacy_code := Some code; channel_id := channel_id c;
     outbuf := outbuf c; track_meta := track_meta c; tracks := tracks c;
     terminating := terminating c; message_queue := message_queue c;
     state := state c; heartbeat_interval := heartbeat_interval c;
     last_heartbeat := last_heartbeat c; receive_sequence := receive_sequence c;
     written := written c; logged := logged c |}.

(** What the handlers of a commit and of a welcome do once the MLS session
    has produced its epoch authenticator:
    [mls_state->privacy_code = generate_displayable_code(authenticator)],
    followed by a debug log of the code. *)
Definition update_privacy_code (c : discord_voice_client) (authenticator : list byte)
    : outcome discord_voice_client :=
  match generate_displayable_code authenticator 30 5 with
  | returns code =>
      returns (log (set_privacy_code_field c code) ll_debug
                 (String.append "E2EE Privacy Code: " code))
  | throws_out_of_range => throws_out_of_range
  | never_returns => never_returns
  end.

(** [get_user_privacy_code]: what the callback receives when the MLS
    session answers [GetPairwiseFingerprint] with [data]. *)
Definition get_user_privacy_code (c : discord_voice_client) (data : list byte)
    : outcome string :=
  if negb (is_end_to_end_encrypted c) then returns EmptyString
  else if (List.length data =? 64)%nat then generate_displayable_code data 45 5
  else returns EmptyString.

(** [stop_audio]. *)
Definition stop_audio (c : discord_voice_client) : discord_voice_client :=
  {| privacy_code := privacy_code c; channel_id := channel_id c;
     outbuf := []; track_meta := []; tracks := 0;
     terminating := terminating c; message_queue := message_queue c;
     state := state c; heartbeat_interval := heartbeat_interval c;
     last_heartbeat := last_heartbeat c; receive_sequence := receive_sequence c;
     written := written c; logged := logged c |}.

Definition set_terminating (c : discord_voice_client) (b : bool) : discord_voice_client :=
  {| privacy_code := privacy_code c; channel_id := channel_id c;
     outbuf := outbuf c; track_meta := track_meta c; tracks := tracks c;
     terminating := b; message_queue := message_queue c;
     state := state c; heartbeat_interval := heartbeat_interval c;
     last_heartbeat := last_heartbeat c; receive_sequence := receive_sequence c;
     written := written c; logged := logged c |}.

Definition errortext : list (Z * string) :=
  [ (1000, "Socket shutdown");
    (1001, "Client is leaving");
    (1002, "Endpoint received a malformed frame");
    (1003, "Endpoint received an unsupported frame");
    (1004, "Reserved code");
    (1005, "Expected close status, received none");
    (1006, "No close code frame has been received");
    (1007, "Endpoint received inconsistent message (e.g. malformed UTF-8)");
    (1008, "Generic error");
    (1009, "Endpoint won't process large frame");
    (1010, "Client wanted an extension which server did not negotiate");
    (1011, "Internal server error while operating");
    (1012, "Server/service is restarting");
    (1013, "Temporary server condition forced blocking client's request");
    (1014, "Server acting as gateway received an invalid response");
    (1015, "Transport Layer Security handshake failure");
    (4001, "Unknown opcode");
    (4002, "Failed to decode payload");
    (4003, "Not authenticated");
    (4004, "Authentication failed");
    (4005, "Already authenticated");
    (4006, "Session no longer valid");
    (4009, "Session timeout");
    (4011, "Server not found");
    (4012, "Unknown protocol");
    (4014, "Disconnected");
    (4015, "Voice server crashed");
    (4016, "Unknown encryption mode") ]%string.

Fixpoint find_errortext (table : list (Z * string)) (errorcode : Z) : option string :=
  match table with
  | [] => None
  | (code, text) :: rest => if code =? errorcode then Some text else find_errortext rest errorcode
  end.

(** [error(errorcode)], on a [uint32_t] code. *)
Definition error (c : discord_voice_client) (errorcode : Z) : discord_voice_client :=
  let error :=
    match find_errortext errortext errorcode with
    | Some text => text
    | None => "Unknown error"%string
    end in
  let c1 :=
    log c ll_warning
      (String.append "Voice session error: "
         (String.append (to_string errorcode)
            (String.append " on channel "
               (String.append (to_string (channel_id c)) (String.append ": " error))))) in
  if 4003 <=? errorcode then
    log (set_terminating (stop_audio c1) true) ll_error
      "This is a non-recoverable error, giving up on voice connection"
  else c1.

Definition set_queue (c : discord_voice_client) (q : list string) : discord_voice_client :=
  {| privacy_code := privacy_code c; channel_id := channel_id c;
     outbuf := outbuf c; track_meta := track_meta c; tracks := tracks c;
     terminating := terminating c; message_queue := q;
     state := state c; heartbeat_interval := heartbeat_interval c;
     last_heartbeat := last_heartbeat c; receive_sequence := receive_sequence c;
     written := written c; logged := logged c |}.

(** [queue_message] and [clear_queue]. *)
Definition queue_message (c : discord_voice_client) (j : string) (to_front : bool)
    : discord_voice_client :=
  if to_front then set_queue c (j :: message_queue c) else set_queue c (message_queue c ++ [j]).

Definition clear_queue (c : discord_voice_client) : discord_voice_client := set_queue c [].

(** [write(message, OP_TEXT)]. *)
Definition write (c : discord_voice_client) (message : string) : discord_voice_client :=
  {| privacy_code := privacy_code c; channel_id := channel_id c;
     outbuf := outbuf c; track_meta := track_meta c; tracks := tracks c;
     terminating := terminating c; message_queue := message_queue c;
     state := state c; heartbeat_interval := heartbeat_interval c;
     last_heartbeat := last_heartbeat c; receive_sequence := receive_sequence c;
     written := written c ++ [message]; logged := logged c |}.

Definition set_last_heartbeat (c : discord_voice_client) (t : Z) : discord_voice_client :=
  {| privacy_code := privacy_code c; channel_id := channel_id c;
     outbuf := outbuf c; track_meta := track_meta c; tracks := tracks c;
     terminating := terminating c; message_queue := message_queue c;
     state := state c; heartbeat_interval := heartbeat_interval c;
     last_heartbeat := t; receive_sequence := receive_sequence c;
     written := written c; logged := logged c |}.

Definition time_now : Clocked Z := fun k => (time_reading k, S k).
Definition rand : Clocked Z := fun k => (rand_reading k, S k).

(** The sending loop of [one_second_timer],
    [for (int x = 0; x < (time(nullptr) % 2) + 1; ++x)]: the bound is
    computed afresh before every iteration.  [fuel] bounds the number of
    iterations. *)
Fixpoint send_queued (fuel : nat) (x : Z) (c : discord_voice_client)
    : Clocked discord_voice_client :=
  match fuel with
  | O => ret c
  | S fuel' =>
      t <- time_now ;;
      if x <? Z.rem t 2 + 1 then
        match message_queue c with
        | message :: rest => send_queued fuel' (x + 1) (write (set_queue c rest) message)
        | [] => send_queued fuel' (x + 1) c
        end
      else ret c
  end.

(** [one_second_timer]: [None] when it throws the connection exception
    of a terminating session. *)
Definition one_second_timer (c : discord_voice_client) : Clocked (option discord_voice_client) :=
  if terminating c then ret None
  else
    match state c with
    | CONNECTED =>
        c1 <- send_queued 3 0 c ;;
        if negb (heartbeat_interval c1 =? 0) then
          t <- time_now ;;
          if heartbeat_due t (last_heartbeat c1) (heartbeat_interval c1) then
            token <- rand ;;
            let c2 := queue_message c1 (heartbeat_json token (receive_sequence c1)) true in
            t' <- time_now ;;
            ret (Some (set_last_heartbeat c2 t'))
          else ret (Some c1)
        else ret (Some c1)
    | _ => ret (Some c)
    end.

(** *** The privacy code as the specification words it *)

(** A group of bytes read as a big-endian unsigned integer. *)
Definition big_endian (group : list byte) : Z :=
  fold_left (fun acc b => acc * 256 + Z.of_N (Byte.to_N b)) group 0.

(** The five decimal digits of a value below [10^5], zero-padded. *)
Definition five_digits (v : Z) : string :=
  String (digit_char (v / 10000 mod 10))
    (String (digit_char (v / 1000 mod 10))
       (String (digit_char (v / 100 mod 10))
          (String (digit_char (v / 10 mod 10))
             (String (digit_char (v mod 10)) EmptyString)))).

Definition group_code (group : list byte) : string :=
  five_digits (big_endian group mod 10 ^ 5).

(** The first [n] consecutive groups of 5 bytes. *)
Fixpoint groups_of_5 (n : nat) (data : list byte) : list (list byte) :=
  match n with
  | O => []
  | S n' => firstn 5 data :: groups_of_5 n' (skipn 5 data)
  end.

(** The code with its groups separated by spaces. *)
Definition space_separated (data : list byte) (n : nat) : string :=
  String.concat " " (map group_code (groups_of_5 n data)).

(** The code with a space after each of its groups. *)
Fixpoint space_terminated (codes : list string) : string :=
  match codes with
  | [] => EmptyString
  | code :: rest => String.append code (String.append " " (space_terminated rest))
  end.

End voice_client.
End voice_client.

(** ** Histories of a cipher manager *)

Module manager_history.
Import cryptor_manager.
Section history.
Context `{clock_interface} `{key_ratchet_interface}.

(** One call of a public operation, with [uint32_t] arguments. *)
Inductive step : aead_cipher_manager -> aead_cipher_manager -> Prop :=
| step_get_cipher : forall m g k,
    is_u32 g -> step m (snd (fst (get_cipher m g k)))
| step_report : forall m g n k,
    is_u32 g -> is_u32 n -> step m (fst (report_cipher_success m g n k))
| step_update_expiry : forall m d, step m (update_expiry m d).

(** Any number of calls. *)
Inductive steps : aead_cipher_manager -> aead_cipher_manager -> Prop :=
| steps_none : forall m, steps m m
| steps_more : forall m1 m2 m3, step m1 m2 -> steps m2 m3 -> steps m1 m3.

(** A big nonce that can no longer be processed: it is not above the
    newest processed nonce and not among the missing ones. *)
Definition settled (b : big_nonce) (m : aead_cipher_manager) : Prop :=
  exists newest,
    newestProcessedNonce_ m = Some newest /\ b <= newest /\ ~ In b (missingNonces_ m).

(** The generations that hold a cipher are pairwise different and none is
    below the oldest generation. *)
Definition ciphers_in_order (m : aead_cipher_manager) : Prop :=
  NoDup (map fst (cryptors_ m)) /\
  Forall (fun entry => oldestGeneration_ m <= fst entry) (cryptors_ m).

(** What [std::chrono::steady_clock] promises: a later reading is never
    smaller than an earlier one. *)
Definition steady_clock : Prop :=
  forall i j, (i <= j)%nat -> clock_reading i <= clock_reading j.

End history.
End manager_history.

(** ** Reading the result of [DecryptImpl] *)

Module decryptor_history.
Import cryptor_manager decryptor.
Section history.
Context `{clock_interface} `{key_ratchet_interface}.

Definition impl_result : Type :=
  bool * aead_cipher_manager * inbound_frame * decryption_stats.

(** Whether [DecryptImpl] returned [true], and the manager it leaves. *)
Definition impl_success (r : impl_result) : bool := fst (fst (fst r)).
Definition impl_manager (r : impl_result) : aead_cipher_manager := snd (fst (fst r)).
Definition impl_stats (r : impl_result) : decryption_stats := snd r.

(** The counters of [decrypt] itself; [DecryptImpl] has [decryptAttempts]
    to itself. *)
Definition same_outcome_counts (s s' : decryption_stats) : Prop :=
  passthroughCount s' = passthroughCount s /\
  decryptSuccessCount s' = decryptSuccessCount s /\
  decryptFailureCount s' = decryptFailureCount s /\
  decryptDuration s' = decryptDuration s.

End history.
End decryptor_history.

(** ** The layout of an encrypted frame *)

Module encryptor_layout.
Import encryptor.
Section layout.
Context `{key_ratchet_interface} `{outbound_interface}.

(** The sections the retry loop of [Encrypt] writes, in the order in
    which they lie in the output: the reconstructed frame, the truncated
    tag, the truncated nonce, the unencrypted ranges, the size of the
    supplemental section and the magic marker. *)
Definition encrypted_frame_layout (frameProcessor : OutboundFrameProcessor)
    (ciphertext tag : list byte) (truncatedNonce : truncated_sync_nonce) : list byte :=
  ReconstructOutboundFrame (SetCiphertextBytes frameProcessor ciphertext) ++
  tag ++
  WriteLeb128 truncatedNonce ++
  SerializeUnencryptedRanges frameProcessor ++
  [decryptor.byte_of_Z
     ((kSupplementalBytes + Z.of_nat (Leb128Size truncatedNonce)
       + Z.of_nat (UnencryptedRangesSize frameProcessor)) mod 256)] ++
  kMarkerBytes.

(** [out] is [buf] with its first bytes overwritten by [prefix]. *)
Definition overwritten (buf prefix out : list byte) : Prop :=
  out = prefix ++ skipn (List.length prefix) buf.

(** The counters that tell how calls of [Encrypt] ended; the retry loop
    has [encryptAttempts] and [encryptMaxAttempts] to itself. *)
Definition same_outcome_counts (s s' : encryption_stats) : Prop :=
  passthroughCount s' = passthroughCount s /\
  encryptSuccessCount s' = encryptSuccessCount s /\
  encryptFailureCount s' = encryptFailureCount s /\
  encryptDuration s' = encryptDuration s.


End layout.
End encryptor_layout.

(** ** Received payloads and the gain average (discordvoiceclient.cpp) *)

Module voice_receive.

Definition wrap16 (z : Z) : Z := z mod 2 ^ 16.
Definition is_u16 (z : Z) : Prop := 0 <= z < 2 ^ 16.

(** The two members of [voice_payload] that its order reads: an
    [rtp_seq_t] (16 bits) and an [rtp_timestamp_t] (32 bits). *)
Record voice_payload := {
  seq : Z;
  timestamp : Z
}.

Definition wrap_around_test_boundary : Z := 5000.

(** [voice_payload::operator<].  The two sums are computed in [int] and
    cast back to [rtp_seq_t]. *)
Definition payload_lt (this other : voice_payload) : bool :=
  if negb (timestamp this =? timestamp other) then timestamp other <? timestamp this
  else if ((seq this <? wrap_around_test_boundary) &&
           (wrap_around_test_boundary <=? seq other)) ||
          ((wrap_around_test_boundary <=? seq this) &&
           (seq other <? wrap_around_test_boundary))
  then wrap16 (seq other + wrap_around_test_boundary)
       <? wrap16 (seq this + wrap_around_test_boundary)
  else seq other <? seq this.

(** [moving_averager]: the values, newest first, and the collection
    count it was built with (a [uint64_t]). *)
Record moving_averager := {
  values : list Z;
  collectionCount : Z
}.

Definition make_moving_averager (collection_count_new : Z) : moving_averager :=
  {| values := []; collectionCount := collection_count_new |}.

(** [moving_averager::operator+=]. *)
Definition averager_add (m : moving_averager) (value : Z) : moving_averager :=
  let pushed := value :: values m in
  {| values := if collectionCount m <=? Z.of_nat (List.length pushed)
               then removelast pushed else pushed;
     collectionCount := collectionCount m |}.

End voice_receive.

(** ** The queue of outgoing audio (discordvoiceclient.cpp) *)

Module voice_audio.
Import voice_client.

(** Modelled from the spec: [AUDIO_TRACK_MARKER = 0xFFFF] (the header is
    not in the tree; the comment in [insert_marker] says the same). *)
Definition AUDIO_TRACK_MARKER : Z := 65535.

Definition byte_value (b : byte) : Z := Z.of_N (Byte.to_N b).

(** The [uint16_t] read at the start of the data of a packet, on a
    little-endian host. *)
Definition read_uint16 (bytes : list byte) : Z :=
  match bytes with
  | low :: high :: _ => byte_value low + 256 * byte_value high
  | _ => 0
  end.

(** The two bytes of [uint16_t tm = AUDIO_TRACK_MARKER]. *)
Definition marker_packet : string := string_of_list_byte [xff; xff].

(** The test that [write_ready] and [skip_to_next_marker] make on a queued
    packet. *)
Definition is_track_marker (packet : string) : bool :=
  (String.length packet =? 2)%nat &&
  (read_uint16 (list_byte_of_string packet) =? AUDIO_TRACK_MARKER).

Definition set_audio (c : discord_voice_client) (q : list (string * Z))
    (meta : list string) (n : Z) : discord_voice_client :=
  {| privacy_code := privacy_code c; channel_id := channel_id c;
     outbuf := q; track_meta := meta; tracks := n;
     terminating := terminating c; message_queue := message_queue c;
     state := state c; heartbeat_interval := heartbeat_interval c;
     last_heartbeat := last_heartbeat c; receive_sequence := receive_sequence c;
     written := written c; logged := logged c |}.

(** [is_playing]. *)
Definition is_playing (c : discord_voice_client) : bool :=
  match outbuf c with [] => false | _ :: _ => true end.

(** [INVALID_SOCKET].  Its value comes from the platform headers ([~0] on
    POSIX systems); what is proved uses only that a descriptor in use
    differs from it. *)
Definition INVALID_SOCKET : Z := -1.

(** [want_write], for a given value of [paused] and descriptor [fd]. *)
Definition want_write (paused : bool) (fd : Z) (c : discord_voice_client) : Z :=
  if negb paused && negb (match outbuf c with [] => true | _ :: _ => false end)
  then fd else INVALID_SOCKET.

(** [send(packet, len, duration)]. *)
Definition send (c : discord_voice_client) (packet : string) (duration : Z)
    : discord_voice_client :=
  set_audio c (outbuf c ++ [(packet, duration)]) (track_meta c) (tracks c).

(** [insert_marker]; [tracks] is a [uint32_t], as [get_tracks_remaining]
    returns it. *)
Definition insert_marker (c : discord_voice_client) (metadata : string)
    : discord_voice_client :=
  let c1 := send c marker_packet 0 in
  set_audio c1 (outbuf c1) (track_meta c1 ++ [metadata]) (wrap32 (tracks c1 + 1)).

(** [get_tracks_remaining]. *)
Definition get_tracks_remaining (c : discord_voice_client) : Z :=
  match outbuf c with
  | [] => 0
  | _ :: _ => wrap32 (tracks c + 1)
  end.

(** [std::find_if] for the first marker, then [erase(begin, i + 1)]:
    [None] when there is no marker. *)
Fixpoint after_first_marker (q : list (string * Z)) : option (list (string * Z)) :=
  match q with
  | [] => None
  | (packet, _) :: rest =>
      if is_track_marker packet then Some rest else after_first_marker rest
  end.

Definition decrement_tracks (n : Z) : Z := if 0 <? n then n - 1 else n.

(** [skip_to_next_marker]. *)
Definition skip_to_next_marker (c : discord_voice_client) : discord_voice_client :=
  let q :=
    match outbuf c with
    | [] => []
    | _ :: _ =>
        match after_first_marker (outbuf c) with
        | Some rest => rest
        | None => []
        end
    end in
  set_audio c q (tl (track_meta c)) (decrement_tracks (tracks c)).

(** What a call of [write_ready] does: the client afterwards, the packet it
    handed to [udp_send] if any, and the metadata it passed to the
    [on_voice_track_marker] handlers if it called them. *)
Record write_ready_result := {
  client_after : discord_voice_client;
  handed_to_udp : option string;
  marker_event : option string
}.

(** [write_ready], for a given value of [paused], a given behaviour of
    [udp_send] ([true]: it returns the length of the packet) and with or
    without a handler of track markers.  The pacing that follows a
    successful send (the sleep computed from the duration of the packet) and
    the [on_voice_buffer_send] event are left out: they do not touch the
    queue. *)
Definition write_ready (paused : bool) (udp_send_all : string -> bool)
    (has_marker_handler : bool) (c : discord_voice_client) : write_ready_result :=
  match outbuf c with
  | [] => {| client_after := c; handed_to_udp := None; marker_event := None |}
  | (front, _) :: behind =>
      if paused then {| client_after := c; handed_to_udp := None; marker_event := None |}
      else
        let track_marker_found := is_track_marker front in
        let q1 := if track_marker_found then behind else outbuf c in
        let tracks1 := if track_marker_found then decrement_tracks (tracks c) else tracks c in
        let '(q2, handed) :=
          match q1 with
          | [] => (q1, None)
          | (packet, _) :: rest =>
              (if udp_send_all packet then rest else q1, Some packet)
          end in
        if track_marker_found && has_marker_handler
        then {| client_after := set_audio c q2 (tl (track_meta c)) tracks1;
                handed_to_udp := handed;
                marker_event := Some (hd EmptyString (track_meta c)) |}
        else {| client_after := set_audio c q2 (track_meta c) tracks1;
                handed_to_udp := handed;
                marker_event := None |}
  end.

(** The markers queued. *)
Definition count_markers (q : list (string * Z)) : Z :=
  Z.of_nat (List.length (filter (fun entry => is_track_marker (fst entry)) q)).

(** No marker directly behind a marker at the front of the queue. *)
Definition single_marker_in_front (q : list (string * Z)) : Prop :=
  match q with
  | (first, _) :: (second, _) :: _ =>
      is_track_marker first = true -> is_track_marker second = false
  | _ => True
  end.

(** The calls that change the queue.  [send] is private to the client:
    what it queues is a marker, through [insert_marker], or an RTP packet of
    32 bytes or more. *)
Inductive audio_step : discord_voice_client -> discord_voice_client -> Prop :=
| step_send : forall c packet duration,
    is_track_marker packet = false -> audio_step c (send c packet duration)
| step_insert_marker : forall c metadata,
    tracks c + 1 < 2 ^ 32 -> audio_step c (insert_marker c metadata)
| step_skip_to_next_marker : forall c, audio_step c (skip_to_next_marker c)
| step_stop_audio : forall c, audio_step c (stop_audio c)
| step_write_ready : forall c paused udp_send_all has_marker_handler,
    single_marker_in_front (outbuf c) ->
    audio_step c (client_after (write_ready paused udp_send_all has_marker_handler c)).

Inductive audio_steps : discord_voice_client -> discord_voice_client -> Prop :=
| audio_steps_none : forall c, audio_steps c c
| audio_steps_more : forall c1 c2 c3,
    audio_step c1 c2 -> audio_steps c2 c3 -> audio_steps c1 c3.

End voice_audio.

(** ** Voice packets on the wire (discordvoiceclient.cpp) *)

(** What the voice client takes from libsodium, from libopus and from the
    JSON library.  [aead_encrypt m ad npub k] is the ciphertext and tag that
    [crypto_aead_xchacha20poly1305_ietf_encrypt] writes, [aead_decrypt] is
    [None] when the call returns non-zero.  [opus_encode_frames] is what
    [encode] gets out of the encoder and the repacketizer (empty when one
    of them fails).  [send_audio_raw_max_length] is a constant of the
    header, which is not in the tree; nothing below depends on its value. *)
Class voice_codec := {
  aead_encrypt : list byte -> list byte -> list byte -> list byte -> list byte;
  aead_decrypt : list byte -> list byte -> list byte -> list byte -> option (list byte);
  speaking_json : Z -> string;
  opus_encode_frames : list byte -> list byte;
  opus_packet_get_nb_samples : list byte -> Z;
  send_audio_raw_max_length : nat
}.

Module voice_rtp.
Import voice_client voice_audio.

(** How a call of the sending routines ends. *)
Inductive sent (A : Type) :=
| done (a : A)
| throws_voice_exception
| divides_by_zero
| out_of_fuel.
#[global] Arguments done {A} a.
#[global] Arguments throws_voice_exception {A}.
#[global] Arguments divides_by_zero {A}.
#[global] Arguments out_of_fuel {A}.

(** How a call of [read_ready] ends: the datagram is ignored, the
    decryption fails, a length goes below zero and wraps around (with the
    length then used), or a payload is ready for the parking lot of its
    speaker. *)
Inductive received :=
| ignored
| undecryptable
| length_wraps (len : Z)
| payload_ready (speaker_ssrc seq timestamp : Z) (audio_data : list byte).

Section rtp.
Context `{voice_codec}.

Definition wrap16 (z : Z) : Z := z mod 2 ^ 16.

(** [(int)] of a [uint64_t]. *)
Definition to_int (z : Z) : Z :=
  let low := z mod 2 ^ 32 in if low <? 2 ^ 31 then low else low - 2 ^ 32.

(** Modelled from the spec: the authentication tag of the transport AEAD
    has 16 bytes and its nonce 24 (the constants of libsodium). *)
Definition crypto_aead_xchacha20poly1305_ietf_ABYTES : nat := 16.
Definition crypto_aead_xchacha20poly1305_ietf_NPUBBYTES : nat := 24.

Definition byte_of (z : Z) : byte := decryptor.byte_of_Z z.

(** [htons] and [htonl], as the bytes in memory. *)
Definition be16 (z : Z) : list byte := [byte_of (z / 2 ^ 8); byte_of z].
Definition be32 (z : Z) : list byte :=
  [byte_of (z / 2 ^ 24); byte_of (z / 2 ^ 16); byte_of (z / 2 ^ 8); byte_of z].

(** [ntohs] and [ntohl] of the bytes at an offset of a buffer. *)
Definition at_ (buffer : list byte) (i : nat) : Z := byte_value (nth i buffer x00).
Definition read_be16 (buffer : list byte) (i : nat) : Z :=
  2 ^ 8 * at_ buffer i + at_ buffer (i + 1).
Definition read_be32 (buffer : list byte) (i : nat) : Z :=
  2 ^ 24 * at_ buffer i + 2 ^ 16 * at_ buffer (i + 1) + 2 ^ 8 * at_ buffer (i + 2)
  + at_ buffer (i + 3).

(** The twelve bytes of [rtp_header(seq, ts, ssrc)]. *)
Definition rtp_header (seq ts ssrc : Z) : list byte :=
  be16 32888 ++ be16 seq ++ be32 ts ++ be32 ssrc.

(** The members the sending side adds to the client: [sequence] is a
    [uint16_t], [timestamp] and [packet_nonce] are [uint32_t] (they are
    what the header and [htonl] take), [ssrc] and [timescale] are
    [uint64_t]. *)
Record rtp_sender := {
  client : discord_voice_client;
  sequence : Z;
  timestamp : Z;
  packet_nonce : Z;
  ssrc : Z;
  sending : bool;
  timescale : Z;
  secret_key : list byte
}.

Definition set_client (s : rtp_sender) (c : discord_voice_client) : rtp_sender :=
  {| client := c; sequence := sequence s; timestamp := timestamp s;
     packet_nonce := packet_nonce s; ssrc := ssrc s; sending := sending s;
     timescale := timescale s; secret_key := secret_key s |}.

(** [speak]. *)
Definition speak (s : rtp_sender) : rtp_sender :=
  if sending s then s
  else
    {| client := queue_message (client s) (speaking_json (ssrc s)) true;
       sequence := sequence s; timestamp := timestamp s;
       packet_nonce := packet_nonce s; ssrc := ssrc s; sending := true;
       timescale := timescale s; secret_key := secret_key s |}.

(** The nonce handed to the cipher: the packet nonce in network order,
    then zeros. *)
Definition encrypt_nonce (packet_nonce : Z) : list byte :=
  be32 packet_nonce ++ repeat x00 (crypto_aead_xchacha20poly1305_ietf_NPUBBYTES - 4).

(** The payload [send_audio_opus] builds: the header, the encrypted Opus
    packet with its tag, and the packet nonce. *)
Definition voice_packet (seq ts ssrc packet_nonce : Z) (key opus_packet : list byte)
    : list byte :=
  let header := rtp_header seq ts ssrc in
  header ++ aead_encrypt opus_packet header (encrypt_nonce packet_nonce) key
  ++ be32 packet_nonce.

(** [send_audio_opus(opus_packet, length, duration)]. *)
Definition send_audio_opus (s : rtp_sender) (opus_packet : list byte) (duration : Z)
    : rtp_sender :=
  let frame_size := to_int (wrap64 (wrap64 (48 * duration) * (timescale s / 1000000))) in
  let sequence' := wrap16 (sequence s + 1) in
  let payload :=
    voice_packet sequence' (timestamp s) (wrap32 (ssrc s)) (packet_nonce s)
      (secret_key s) opus_packet in
  speak
    {| client := send (client s) (string_of_list_byte payload) duration;
       sequence := sequence';
       timestamp := wrap32 (timestamp s + frame_size);
       packet_nonce := wrap32 (packet_nonce s + 1);
       ssrc := ssrc s; sending := sending s;
       timescale := timescale s; secret_key := secret_key s |}.

(** [send_audio_opus(opus_packet, length)]: the duration comes from the
    number of samples of the packet. *)
Definition send_audio_opus_timed (s : rtp_sender) (opus_packet : list byte)
    : sent rtp_sender :=
  let samples := opus_packet_get_nb_samples opus_packet in
  if timescale s / 1000000 =? 0 then divides_by_zero
  else done (send_audio_opus s opus_packet
               (wrap64 (Z.quot samples 48) / (timescale s / 1000000))).

(** [send_silence]. *)
Definition send_silence (s : rtp_sender) (duration : Z) : rtp_sender :=
  send_audio_opus s [xf8; xff; xfe] duration.

(** [encode]: it throws unless the input is a whole number of frames of
    11520 bytes. *)
Definition mEncFrameBytes : Z := 11520.

Definition encode (input : list byte) : sent (list byte) :=
  if Z.of_nat (List.length input) mod mEncFrameBytes =? 0 then done (opus_encode_frames input)
  else throws_voice_exception.

(** The [while] loop of [send_audio_raw]: as long as more than the maximum
    is left, the first bytes of what is left are sent as a packet, through
    [call], and erased. *)
Fixpoint send_chunks (fuel : nat) (call : list byte -> rtp_sender -> sent rtp_sender)
    (s_audio_data : list byte) (s : rtp_sender) : sent rtp_sender :=
  match fuel with
  | O => out_of_fuel
  | S fuel' =>
      if (send_audio_raw_max_length <? List.length s_audio_data)%nat then
        let packet := firstn send_audio_raw_max_length s_audio_data in
        match call packet s with
        | done s' =>
            send_chunks fuel' call (skipn (List.length packet) s_audio_data) s'
        | failure => failure
        end
      else done s
  end.

(** [send_audio_raw(audio_data, length)], on the bytes of the audio;
    [fuel] bounds the depth of the recursion and the iterations of the
    loop. *)
Fixpoint send_audio_raw (fuel : nat) (audio_data : list byte) (s : rtp_sender)
    : sent rtp_sender :=
  match fuel with
  | O => out_of_fuel
  | S fuel' =>
      let length := List.length audio_data in
      if (length <? 4)%nat then throws_voice_exception
      else if negb (length mod 4 =? 0)%nat then throws_voice_exception
      else if (send_audio_raw_max_length <? length)%nat
      then send_chunks fuel' (send_audio_raw fuel') audio_data s
      else if (length <? send_audio_raw_max_length)%nat
      then send_audio_raw fuel'
             (audio_data ++ repeat x00 (send_audio_raw_max_length - length)) s
      else
        match encode audio_data with
        | done encoded_audio => send_audio_opus_timed s encoded_audio
        | throws_voice_exception => throws_voice_exception
        | divides_by_zero => divides_by_zero
        | out_of_fuel => out_of_fuel
        end
  end.

(** [read_ready], up to the payload it parks: [buffer] is the datagram
    that [udp_recv] has delivered, [has_receive_handler] tells whether a
    handler of received audio is attached.  The user of the speaker is
    looked up from the SSRC afterwards. *)
Definition read_ready (has_receive_handler : bool) (key buffer : list byte) : received :=
  let packet_size := List.length buffer in
  if (packet_size =? 0)%nat || negb has_receive_handler then ignored
  else if (packet_size <? 12)%nat then ignored
  else if (packet_size <? 44)%nat then ignored
  else
    let payload_type := Z.land (at_ buffer 1) 127 in
    if (72 <=? payload_type) && (payload_type <=? 76) then ignored
    else
      let speaker_ssrc := read_be32 buffer 8 in
      let seq := read_be16 buffer 2 in
      let timestamp := read_be32 buffer 4 in
      let nonce :=
        skipn (packet_size - 4) buffer
        ++ repeat x00 (crypto_aead_xchacha20poly1305_ietf_NPUBBYTES - 4) in
      let csrc_count := Z.to_nat (Z.land (at_ buffer 0) 15) in
      let offset_to_data := (12 + 4 * csrc_count)%nat in
      let uses_extension := negb (Z.land (Z.shiftr (at_ buffer 0) 4) 1 =? 0) in
      let ext_len :=
        if uses_extension then Z.to_nat (4 * read_be16 buffer (offset_to_data + 2)) else 0%nat in
      let total_header_len :=
        if uses_extension then (offset_to_data + 4)%nat else offset_to_data in
      let ciphertext_len := wrap64 (Z.of_nat packet_size - Z.of_nat total_header_len - 4) in
      if Z.of_nat packet_size <? Z.of_nat total_header_len + 4
      then length_wraps ciphertext_len
      else
        let ciphertext := firstn (Z.to_nat ciphertext_len) (skipn total_header_len buffer) in
        match aead_decrypt ciphertext (firstn total_header_len buffer) nonce key with
        | None => undecryptable
        | Some decrypted =>
            if (List.length decrypted <? ext_len)%nat
            then length_wraps (wrap64 (Z.of_nat (List.length decrypted) - Z.of_nat ext_len))
            else payload_ready speaker_ssrc seq timestamp (skipn ext_len decrypted)
        end.

(** Sending Opus packets, each with its duration, one after the other. *)
Definition send_all (s : rtp_sender) (frames : list (list byte * Z)) : rtp_sender :=
  fold_left (fun s0 frame => send_audio_opus s0 (fst frame) (snd frame)) frames s.

(** The packets that these calls of [send_audio_opus] build. *)
Fixpoint packets_of (s : rtp_sender) (frames : list (list byte * Z)) : list (string * Z) :=
  match frames with
  | [] => []
  | (opus_packet, duration) :: rest =>
      (string_of_list_byte
         (voice_packet (wrap16 (sequence s + 1)) (timestamp s) (wrap32 (ssrc s))
            (packet_nonce s) (secret_key s) opus_packet), duration)
      :: packets_of (send_audio_opus s opus_packet duration) rest
  end.

(** The sequence number and the nonce that a queued packet carries, as
    [read_ready] reads them: at offset 2, and in the last four bytes. *)
Definition carried_sequence (entry : string * Z) : Z :=
  read_be16 (list_byte_of_string (fst entry)) 2.

Definition carried_nonce (entry : string * Z) : Z :=
  let bytes := list_byte_of_string (fst entry) in
  read_be32 bytes (List.length bytes - 4).

(** The first [count] consecutive blocks of [size] bytes. *)
Fixpoint blocks (size count : nat) (data : list byte) : list (list byte) :=
  match count with
  | O => []
  | S count' => firstn size data :: blocks size count' (skipn size data)
  end.

(** Sending the frames of a list one after the other, stopping at the
    first that fails. *)
Fixpoint send_frames (frames : list (list byte)) (s : rtp_sender) : sent rtp_sender :=
  match frames with
  | [] => done s
  | frame :: rest =>
      match encode frame with
      | done encoded_audio =>
          match send_audio_opus_timed s encoded_audio with
          | done s' => send_frames rest s'
          | failure => failure
          end
      | throws_voice_exception => throws_voice_exception
      | divides_by_zero => divides_by_zero
      | out_of_fuel => out_of_fuel
      end
  end.

End rtp.
End voice_rtp.

(** ** IP discovery (voice/enabled/discover_ip.cpp) *)

Module voice_discovery.
Import voice_rtp.

(** What the socket calls of one run of [discover_ip] return: the
    descriptor from [socket], the results of [bind], [connect], [send] and
    [poll], and the datagram that [recv] delivers ([None]: it returns -1). *)
Record network := {
  socket_fd : Z;
  bind_result : Z;
  connect_result : Z;
  send_result : Z;
  poll_result : Z;
  recv_datagram : option (list byte)
}.

(** What [discover_ip] returns, [reads_beyond_packet] when the
    construction of the string does not meet a zero byte inside the packet;
    and the packet it has handed to [send], if it got that far. *)
Inductive discovered :=
| ip_string (address : string)
| reads_beyond_packet.

Record discovery := {
  discovered_ip : discovered;
  request_sent : option (list byte)
}.

(** [ip_discovery_packet(ssrc)]: type 1, length 70, the SSRC, 64 bytes of
    address and the port, all zero; 74 bytes, packed. *)
Definition ip_discovery_packet (ssrc : Z) : list byte :=
  be16 1 ++ be16 70 ++ be32 ssrc ++ repeat x00 64 ++ [x00; x00].

(** The characters of a C string: the bytes before the first zero byte. *)
Fixpoint c_string (bytes : list byte) : option (list byte) :=
  match bytes with
  | [] => None
  | b :: rest =>
      if Byte.eqb b x00 then Some []
      else match c_string rest with
           | Some characters => Some (b :: characters)
           | None => None
           end
  end.

(** [recv(fd, &discovery, sizeof(discovery), 0)]: the datagram, cut to the
    size of the packet, overwrites the packet from its start. *)
Definition received_over (packet datagram : list byte) : list byte :=
  let copied := firstn (List.length packet) datagram in
  copied ++ skipn (List.length copied) packet.

Definition nothing_found (sent : option (list byte)) : discovery :=
  {| discovered_ip := ip_string EmptyString; request_sent := sent |}.

(** [discover_ip]; [external_ip] is the address found by an earlier run,
    [ssrc] the [uint64_t] of the client. *)
Definition discover_ip (net : network) (external_ip : string) (ssrc : Z) : discovery :=
  if negb (String.eqb external_ip EmptyString)
  then {| discovered_ip := ip_string external_ip; request_sent := None |}
  else
    let request := ip_discovery_packet (wrap32 ssrc) in
    if socket_fd net <? 0 then nothing_found None
    else if bind_result net <? 0 then nothing_found None
    else if connect_result net <? 0 then nothing_found None
    else if send_result net =? -1 then nothing_found (Some request)
    else if poll_result net =? -1 then nothing_found (Some request)
    else if poll_result net =? 0 then nothing_found (Some request)
    else
      match recv_datagram net with
      | None => nothing_found (Some request)
      | Some datagram =>
          {| discovered_ip :=
               match c_string (skipn 8 (received_over request datagram)) with
               | Some characters => ip_string (string_of_list_byte characters)
               | None => reads_beyond_packet
               end;
             request_sent := Some request |}
      end.

End voice_discovery.

(** ** A mock platform

    Concrete collaborators on which the model runs: a clock that advances
    by one second at every reading, a ratchet whose key for a generation is
    the generation itself, and a cipher that copies its input and uses the
    key as the tag. *)

Module mock.

Definition clock : clock_interface :=
  {| clock_reading := fun k => Z.of_nat k * ticks_per_second |}.

(** A clock read once a day. *)
Definition daily_clock : clock_interface :=
  {| clock_reading := fun k => Z.of_nat k * 86400 * ticks_per_second |}.

Definition tag_of (key : Z) : list byte := [decryptor.byte_of_Z key].

Definition crypto : key_ratchet_interface :=
  {| IKeyRatchet := list KeyGeneration;        (* the generations deleted so far *)
     EncryptionKey := Z;
     cipher_interface := Z;
     GetKey := fun r g => (g, r);
     DeleteKey := fun r g => g :: r;
     create_cipher := fun key => Some key;
     cipher_decrypt := fun key ciphertext tag _ _ =>
       if list_eq_dec Byte.byte_eq_dec tag (tag_of key) then Some ciphertext else None;
     cipher_encrypt := fun key plaintext _ _ => Some (plaintext, tag_of key) |}.

(** The same ciphers with a tag of the eight bytes the wire format has. *)
Definition crypto8 : key_ratchet_interface :=
  {| IKeyRatchet := list KeyGeneration;
     EncryptionKey := Z;
     cipher_interface := Z;
     GetKey := fun r g => (g, r);
     DeleteKey := fun r g => g :: r;
     create_cipher := fun key => Some key;
     cipher_decrypt := fun key ciphertext tag _ _ =>
       if list_eq_dec Byte.byte_eq_dec tag (repeat (decryptor.byte_of_Z key) 8)
       then Some ciphertext else None;
     cipher_encrypt := fun key plaintext _ _ =>
       Some (plaintext, repeat (decryptor.byte_of_Z key) 8) |}.

(** A frame counts as encrypted when it ends with the magic marker
    [0xFA 0xFA]; nothing else of the layout is looked at. *)
Definition ends_with_marker (wire : list byte) : bool :=
  match rev wire with
  | b1 :: b2 :: _ => Byte.eqb b1 xfa && Byte.eqb b2 xfa
  | _ => false
  end.

Definition frame_processor : frame_processor_interface :=
  {| ParseFrame := fun wire =>
       {| IsEncrypted := ends_with_marker wire;
          GetTag := []; GetTruncatedNonce := 0; GetAuthenticatedData := [];
          GetCiphertext := wire; GetPlaintext := [] |};
     ReconstructFrame := fun f out =>
       (Z.of_nat (List.length (GetPlaintext f)), decryptor.copy_into out (GetPlaintext f)) |}.

Definition outbound : outbound_interface :=
  {| Codec := unit;
     Codec_Unknown := tt;
     OutboundFrameProcessor := list byte * list byte;   (* plaintext, ciphertext *)
     ProcessFrame := fun frame _ => (frame, []);
     GetUnencryptedBytes := fun _ => [];
     GetEncryptedBytes := fun p => fst p;
     SetCiphertextBytes := fun p ciphertext => (fst p, ciphertext);
     ReconstructOutboundFrame := fun p => snd p;
     UnencryptedRangesSize := fun _ => 0%nat;
     SerializeUnencryptedRanges := fun _ => [];
     Leb128Size := fun _ => 1%nat;
     WriteLeb128 := fun n => [decryptor.byte_of_Z n];
     (* the codec refuses every frame whose nonce is odd *)
     validate_encrypted_frame := fun _ wire =>
       match rev wire with
       | _ :: _ :: _ :: n :: _ => N.even (Byte.to_N n)
       | _ => false
       end;
     kSupplementalBytes := 11;
     MaxSupportedProtocolVersion := 1 |}.

(** A codec that seals a packet by appending sixteen zero bytes, encodes
    every frame to the silence packet, and finds 960 samples in every
    packet. *)
Definition codec : voice_codec :=
  {| aead_encrypt := fun m _ _ _ => m ++ repeat x00 16;
     aead_decrypt := fun c _ _ _ => Some (firstn (List.length c - 16) c);
     speaking_json := fun _ => "speaking"%string;
     opus_encode_frames := fun _ => [xf8; xff; xfe];
     opus_packet_get_nb_samples := fun _ => 960;
     send_audio_raw_max_length := Z.to_nat 11520 |}.

(** An odd second on every call of [time(nullptr)]. *)
Definition odd_second : system_interface :=
  {| time_reading := fun _ => 1700000001;
     rand_reading := fun _ => 4;
     heartbeat_due := fun _ _ _ => false;
     heartbeat_json := fun _ _ => "heartbeat"%string |}.

(** An even second on every call of [time(nullptr)]. *)
Definition even_second : system_interface :=
  {| time_reading := fun _ => 1700000000;
     rand_reading := fun _ => 4;
     heartbeat_due := fun _ _ _ => false;
     heartbeat_json := fun _ _ => "heartbeat"%string |}.

End mock.

(** ** Scenarios on the mock platform *)

Module scenario.
Import cryptor_manager.
#[local] Existing Instance mock.clock.
#[local] Existing Instance mock.crypto.
#[local] Existing Instance mock.frame_processor.
#[local] Existing Instance mock.outbound.

(** A manager that has processed truncated nonce 5 of generation 0. *)
Definition manager_after_5 : aead_cipher_manager :=
  fst (report_cipher_success (fst (make_manager [] 0%nat)) 0 5 1%nat).

(** The same manager after it has gone on to process nonce 100. *)
Definition manager_after_100 : aead_cipher_manager :=
  fst (report_cipher_success manager_after_5 0 100 1%nat).

(** The manager that has processed nonce 5, after two more frames and one
    more request for the cipher. *)
Definition manager_busy : aead_cipher_manager :=
  snd (fst (get_cipher
              (fst (report_cipher_success
                      (fst (report_cipher_success manager_after_5 0 100 2%nat))
                      0 200 3%nat))
              0 4%nat)).

Import decryptor.

Definition no_decryption_stats : decryption_stats :=
  {| passthroughCount := 0; decryptSuccessCount := 0; decryptFailureCount := 0;
     decryptDuration := 0; decryptAttempts := 0 |}.

(** A decryptor in passthrough mode, without any key ratchet. *)
Definition passthrough_decryptor : decryptor :=
  {| cryptorManagers_ := []; allowPassThroughUntil_ := time_point_max;
     lastStatsTime_ := 0; stats_audio := no_decryption_stats; stats_video := no_decryption_stats;
     frameProcessors_ := 0 |}.

(** The same decryptor once passthrough has been switched off, at time 0,
    with five seconds of grace. *)
Definition closing_decryptor : decryptor :=
  fst (TransitionToPassthroughMode passthrough_decryptor false (5 * ticks_per_second) 0%nat).

Definition plain_frame : list byte := [x01; x02; x03; x04].
Definition output_buffer : list byte := [x00; x00; x00; x00; x00; x00].

(** A decryptor that has been given one key ratchet, and a frame that
    carries the magic marker. *)
Definition keyed_decryptor : decryptor :=
  fst (TransitionToKeyRatchet passthrough_decryptor (Some []) 0 0%nat).

Definition marked_frame : list byte := [x01; x02; xfa; xfa].

(** A parsed frame of generation 0 with truncated nonce 5, sealed under
    the key of generation 0. *)
Definition sealed_frame : inbound_frame :=
  {| IsEncrypted := true; GetTag := mock.tag_of 0; GetTruncatedNonce := 5;
     GetAuthenticatedData := []; GetCiphertext := [x01; x02]; GetPlaintext := [] |}.

Definition new_manager : aead_cipher_manager := fst (make_manager [] 0%nat).

End scenario.

Module history_scenario.
Import cryptor_manager.
#[local] Existing Instance mock.daily_clock.
#[local] Existing Instance mock.crypto.

(** A long-lived manager: a cipher for generation 0 made on the first day,
    one for generation 1 made on the fifth day, when the lifetime gate
    allows it. *)
Definition manager_two_generations : aead_cipher_manager :=
  snd (fst (get_cipher (snd (fst (get_cipher (fst (make_manager [] 0%nat)) 0 1%nat)))
              1 5%nat)).

(** The second generation proves itself two days later, and the manager
    is asked for its cipher again the day after. *)
Definition manager_second_generation : aead_cipher_manager :=
  fst (report_cipher_success manager_two_generations 1 16777216 8%nat).

Definition manager_retired : aead_cipher_manager :=
  snd (fst (get_cipher manager_second_generation 1 9%nat)).

End history_scenario.

Module layout_scenario.
Import encryptor.
#[local] Existing Instance mock.clock.
#[local] Existing Instance mock.crypto8.
#[local] Existing Instance mock.outbound.

Definition no_encryption_stats : encryption_stats :=
  {| passthroughCount := 0; encryptSuccessCount := 0; encryptFailureCount := 0;
     encryptDuration := 0; encryptAttempts := 0; encryptMaxAttempts := 0 |}.

(** An encryptor of generation 3 whose next truncated nonce is even, so
    that the mock codec accepts the frame at once. *)
Definition ready_encryptor : Encryptor :=
  {| keyRatchet_ := Some [0; 1; 2]; cryptor_ := Some 3;
     currentKeyGeneration_ := 3; truncatedNonce_ := 50331701;
     passthroughMode_ := false; currentProtocolVersion_ := 1;
     protocolVersionChangedCallback_ := false; protocolVersionChanges := 0;
     ssrcCodecPairs_ := []; stats_audio := no_encryption_stats; stats_video := no_encryption_stats;
     lastStatsTime_ := 0; frameProcessors_ := 0 |}.

Definition four_bytes : list byte := [x01; x02; x03; x04].

(** An encryptor of generation 3 that has used up the nonces of its
    generation: the next truncated nonce is [4 * 2 ^ 24]. *)
Definition rotating_encryptor : Encryptor :=
  {| keyRatchet_ := Some [0; 1; 2]; cryptor_ := Some 3;
     currentKeyGeneration_ := 3; truncatedNonce_ := 67108863;
     passthroughMode_ := false; currentProtocolVersion_ := 1;
     protocolVersionChangedCallback_ := false; protocolVersionChanges := 0;
     ssrcCodecPairs_ := []; stats_audio := no_encryption_stats; stats_video := no_encryption_stats;
     lastStatsTime_ := 0; frameProcessors_ := 0 |}.

End layout_scenario.

Module discovery_scenario.
Import voice_rtp voice_discovery.

(** The bytes of ["1.2.3.4"]. *)
Definition dotted_address : list byte := [x31; x2e; x32; x2e; x33; x2e; x34].

(** The header of an answer: type 2, length 70, SSRC 42. *)
Definition answer_header : list byte := [x00; x02; x00; x46; x00; x00; x00; x2a].

(** A network on which every call succeeds and the server answers with
    the address above and port 50000. *)
Definition answering_network : network :=
  {| socket_fd := 3; bind_result := 0; connect_result := 0; send_result := 74;
     poll_result := 1;
     recv_datagram :=
       Some (answer_header ++ dotted_address ++ x00 :: (repeat x00 56 ++ [xc3; x50])) |}.

End discovery_scenario.

Module encryptor_scenario.
Import encryptor.
#[local] Existing Instance mock.clock.
#[local] Existing Instance mock.crypto.
#[local] Existing Instance mock.outbound.

Definition no_encryption_stats : encryption_stats :=
  {| passthroughCount := 0; encryptSuccessCount := 0; encryptFailureCount := 0;
     encryptDuration := 0; encryptAttempts := 0; encryptMaxAttempts := 0 |}.

(** An encryptor that has been in use: generation 3, counter far from 0. *)
Definition used_encryptor : Encryptor :=
  {| keyRatchet_ := Some [0; 1; 2]; cryptor_ := Some 3;
     currentKeyGeneration_ := 3; truncatedNonce_ := 50331700;
     passthroughMode_ := false; currentProtocolVersion_ := 1;
     protocolVersionChangedCallback_ := false; protocolVersionChanges := 0;
     ssrcCodecPairs_ := []; stats_audio := no_encryption_stats; stats_video := no_encryption_stats;
     lastStatsTime_ := 0; frameProcessors_ := 0 |}.

(** Two frames sent after a new ratchet has been installed; the mock
    codec refuses every odd nonce, so each frame takes two attempts. *)
Definition two_frames : list encryptor_call :=
  [ call_Encrypt Audio 7 [x01; x02; x03; x04] (repeat x00 32);
    call_SetPassthroughMode false;
    call_Encrypt Audio 7 [x05; x06] (repeat x00 32) ].

End encryptor_scenario.

Module voice_scenario.
Import voice_client.

(** Thirty bytes, [0x00] to [0x1d]. *)
Definition sample_authenticator : list byte :=
  [x00; x01; x02; x03; x04; x05; x06; x07; x08; x09;
   x0a; x0b; x0c; x0d; x0e; x0f; x10; x11; x12; x13;
   x14; x15; x16; x17; x18; x19; x1a; x1b; x1c; x1d].

(** A connected session with three control messages queued and no
    heartbeat configured. *)
Definition connected_client : discord_voice_client :=
  {| privacy_code := None; channel_id := 1; outbuf := []; track_meta := []; tracks := 0;
     terminating := false; message_queue := ["a"; "b"; "c"]%string;
     state := CONNECTED; heartbeat_interval := 0; last_heartbeat := 0;
     receive_sequence := 0; written := []; logged := [] |}.

End voice_scenario.

Module audio_scenario.
Import voice_client voice_audio voice_scenario.

(** Two tracks of two packets each, with a marker behind each track. *)
Definition two_tracks : discord_voice_client :=
  insert_marker
    (send (send (insert_marker (send (send connected_client "a1" 20) "a2" 20) "first")
             "b1" 20) "b2" 20)
    "second".

(** Two markers inserted one after the other, then a packet. *)
Definition double_marker : discord_voice_client :=
  send (insert_marker (insert_marker connected_client "first") "second") "b1" 20.

End audio_scenario.

Module rtp_scenario.
Import voice_client voice_rtp voice_scenario.
#[local] Existing Instance mock.codec.

Definition new_sender : rtp_sender :=
  {| client := connected_client; sequence := 65535; timestamp := 1000;
     packet_nonce := 7; ssrc := 42; sending := false; timescale := 1000000;
     secret_key := repeat x01 32 |}.

(** Twelve bytes of an Opus packet. *)
Definition twelve_bytes : list byte :=
  [x01; x02; x03; x04; x05; x06; x07; x08; x09; x0a; x0b; x0c].

(** A datagram of 44 bytes whose first byte announces fifteen CSRC
    entries. *)
Definition short_datagram : list byte := x8f :: repeat x00 43.

(** Two frames and a half of raw audio. *)
Definition raw_audio : list byte := repeat x00 (Z.to_nat 28800).

End rtp_scenario.

(** * Properties *)

(** ** Fixed-width arithmetic *)

Lemma wrap32_small z : 0 <= z < 2 ^ 32 -> wrap32 z = z.
Proof. intros Hz. unfold wrap32. apply Z.mod_small. exact Hz. Qed.

Lemma wrap64_small z : 0 <= z < 2 ^ 64 -> wrap64 z = z.
Proof. intros Hz. unfold wrap64. apply Z.mod_small. exact Hz. Qed.

Lemma wrap32_range z : is_u32 (wrap32 z).
Proof. unfold is_u32, wrap32. apply Z.mod_pos_bound. lia. Qed.

Lemma wrap32_le z : 0 <= z -> wrap32 z <= z.
Proof. intros Hz. unfold wrap32. apply Z.mod_le; lia. Qed.

Lemma wrap_s64_small z : is_s64 z -> wrap_s64 z = z.
Proof.
  unfold is_s64, wrap_s64. intros Hz.
  rewrite Z.mod_small by lia. lia.
Qed.

(** A value below [2^n] has no bit in common with a multiple of [2^n]. *)
Lemma lor_shiftl_low a b n :
  0 <= n -> 0 <= b < 2 ^ n -> Z.lor (Z.shiftl a n) b = a * 2 ^ n + b.
Proof.
  intros Hn Hb.
  assert (Hland : Z.land (Z.shiftl a n) b = 0).
  { apply Z.bits_inj'. intros i Hi.
    rewrite Z.land_spec, Z.bits_0.
    destruct (Z.lt_ge_cases i n) as [Hlt | Hge].
    - rewrite Z.shiftl_spec_low by exact Hlt. reflexivity.
    - replace b with (b mod 2 ^ n) by (apply Z.mod_small; exact Hb).
      rewrite Z.mod_pow2_bits_high by lia. apply andb_false_r. }
  rewrite <- Z.lxor_lor by exact Hland.
  rewrite <- Z.add_nocarry_lxor by exact Hland.
  rewrite Z.shiftl_mul_pow2 by exact Hn. reflexivity.
Qed.

Lemma mask24 n : Z.land n (Z.shiftl 1 24 - 1) = n mod 2 ^ 24.
Proof.
  change (Z.shiftl 1 24 - 1) with (Z.ones 24).
  apply Z.land_ones. lia.
Qed.

(** ** The cipher manager *)

Section manager_properties.
Import cryptor_manager.
Context `{clock_interface} `{key_ratchet_interface}.

(** Reduction of pairs and of the projections of a manager, and of
    nothing else. *)
Ltac manager_cbn :=
  cbn [fst snd keyRatchet_ cryptors_ ratchetCreation_ ratchetExpiry_ oldestGeneration_
       newestGeneration_ newestProcessedNonce_ missingNonces_ set_nonces update_expiry].

(** The big nonce of [uint32_t] arguments: no bit is lost by the shift. *)
Lemma big_nonce_sum g n :
  is_u32 g ->
  compute_wrapped_big_nonce g n = g * 2 ^ 24 + n mod 2 ^ 24.
Proof.
  unfold is_u32, compute_wrapped_big_nonce, RATCHET_GENERATION_SHIFT_BITS. intros Hg.
  rewrite mask24.
  assert (Hr : 0 <= n mod 2 ^ 24 < 2 ^ 24) by (apply Z.mod_pos_bound; lia).
  rewrite wrap64_small.
  - apply lor_shiftl_low; [lia | exact Hr].
  - rewrite Z.shiftl_mul_pow2 by lia. lia.
Qed.

Lemma big_nonce_spec g n :
  is_u32 g ->
  compute_wrapped_big_nonce g n = Z.lor (Z.shiftl g 24) (Z.land n 16777215).
Proof.
  intros Hg. unfold compute_wrapped_big_nonce, RATCHET_GENERATION_SHIFT_BITS.
  rewrite wrap64_small; [reflexivity |].
  unfold is_u32 in Hg. rewrite Z.shiftl_mul_pow2 by lia. lia.
Qed.

Lemma big_nonce_range g n :
  is_u32 g -> 0 <= compute_wrapped_big_nonce g n < 2 ^ 56.
Proof.
  intros Hg. rewrite big_nonce_sum by exact Hg.
  unfold is_u32 in Hg.
  assert (Hr : 0 <= n mod 2 ^ 24 < 2 ^ 24) by (apply Z.mod_pos_bound; lia).
  lia.
Qed.

(** *** Ranges of consecutive integers *)

Lemma zrange_from_bounds n lo :
  Forall (fun x => lo <= x < lo + Z.of_nat n) (zrange_from n lo).
Proof.
  revert lo. induction n as [| n IH]; intros lo; simpl zrange_from.
  - constructor.
  - constructor; [lia |].
    eapply Forall_impl; [| apply IH]. simpl. intros x Hx. lia.
Qed.

Lemma zrange_from_sorted n lo : StronglySorted Z.lt (zrange_from n lo).
Proof.
  revert lo. induction n as [| n IH]; intros lo; simpl.
  - constructor.
  - constructor; [apply IH |].
    eapply Forall_impl; [| apply zrange_from_bounds]. simpl. intros x Hx. lia.
Qed.

Lemma zrange_from_length n lo : List.length (zrange_from n lo) = n.
Proof. revert lo. induction n as [| n IH]; intros lo; simpl; [| rewrite IH]; reflexivity. Qed.

Lemma in_zrange lo hi x : In x (zrange lo hi) <-> lo <= x < hi.
Proof.
  unfold zrange. split.
  - intros Hin.
    pose proof (zrange_from_bounds (Z.to_nat (hi - lo)) lo) as Hb.
    rewrite Forall_forall in Hb. specialize (Hb x Hin). lia.
  - intros Hx.
    remember (Z.to_nat (hi - lo)) as n eqn:Hn.
    assert (Hlen : lo + Z.of_nat n = hi) by lia. clear Hn.
    revert lo Hx Hlen. induction n as [| n IH]; intros lo Hx Hlen; simpl.
    + lia.
    + destruct (Z.eq_dec lo x) as [-> | Hne]; [left; reflexivity | right].
      apply IH; lia.
Qed.

(** The loop that pushes the missing nonces appends exactly the range it
    walks through. *)
Lemma push_missing_range fuel i bigNonce q :
  0 <= i -> bigNonce < 2 ^ 64 -> i + Z.of_nat fuel = bigNonce ->
  push_missing fuel i bigNonce q = q ++ zrange_from fuel i.
Proof.
  revert i q. induction fuel as [| fuel IH]; intros i q Hi Hbig Hlen; simpl.
  - rewrite app_nil_r. reflexivity.
  - assert (Hlt : (i <? bigNonce) = true) by (apply Z.ltb_lt; lia).
    rewrite Hlt, wrap64_small by lia.
    rewrite IH by lia.
    rewrite <- app_assoc. reflexivity.
Qed.

(** *** Sorted queues *)

Lemma sorted_app (l1 l2 : list Z) :
  StronglySorted Z.lt l1 -> StronglySorted Z.lt l2 ->
  (forall x y, In x l1 -> In y l2 -> x < y) ->
  StronglySorted Z.lt (l1 ++ l2).
Proof.
  intros H1 H2 Hlt. induction H1 as [| a l Hl IH Ha]; simpl.
  - exact H2.
  - constructor.
    + apply IH. intros x y Hx Hy. apply Hlt; [right; exact Hx | exact Hy].
    + apply Forall_app. split; [exact Ha |].
      apply Forall_forall. intros y Hy. apply Hlt; [left; reflexivity | exact Hy].
Qed.

Lemma sorted_length_bound (l : list Z) lo hi :
  StronglySorted Z.lt l -> Forall (fun x => lo <= x < hi) l -> lo <= hi ->
  Z.of_nat (List.length l) <= hi - lo.
Proof.
  intros Hs. revert lo. induction Hs as [| a l Hl IH Ha]; intros lo Hb Hle; simpl List.length.
  - lia.
  - inversion Hb as [| ? ? Hab Hbl]; subst.
    assert (Hb' : Forall (fun x => a + 1 <= x < hi) l).
    { rewrite Forall_forall in *. intros x Hx.
      specialize (Ha x Hx). specialize (Hbl x Hx). lia. }
    specialize (IH (a + 1) Hb'). lia.
Qed.

(** Pruning splits the queue into the entries dropped from the front and
    the entries kept. *)
Lemma prune_front_split oldest q :
  exists dropped,
    q = dropped ++ prune_front oldest q /\ Forall (fun x => x < oldest) dropped.
Proof.
  induction q as [| a q IH]; simpl.
  - exists []. split; [reflexivity | constructor].
  - destruct (a <? oldest) eqn:Ha.
    + destruct IH as [dropped [Heq Hd]].
      exists (a :: dropped). split.
      * simpl. rewrite <- Heq. reflexivity.
      * constructor; [apply Z.ltb_lt; exact Ha | exact Hd].
    + exists []. split; [reflexivity | constructor].
Qed.

Lemma prune_front_sorted oldest q :
  StronglySorted Z.lt q -> StronglySorted Z.lt (prune_front oldest q).
Proof.
  intros Hs. induction Hs as [| a l Hl IH Ha]; simpl.
  - constructor.
  - destruct (a <? oldest); [exact IH | constructor; assumption].
Qed.

Lemma prune_front_kept oldest q :
  StronglySorted Z.lt q -> Forall (fun x => oldest <= x) (prune_front oldest q).
Proof.
  intros Hs. induction Hs as [| a l Hl IH Ha]; simpl.
  - constructor.
  - destruct (a <? oldest) eqn:Hlt; [exact IH |].
    apply Z.ltb_ge in Hlt.
    constructor; [exact Hlt |].
    eapply Forall_impl; [| exact Ha]. simpl. intros x Hx. lia.
Qed.

Lemma prune_front_incl oldest q x : In x (prune_front oldest q) -> In x q.
Proof.
  induction q as [| a q IH]; simpl; [tauto |].
  destruct (a <? oldest); simpl; tauto.
Qed.

Lemma erase_first_incl n q x : In x (erase_first n q) -> In x q.
Proof.
  induction q as [| a q IH]; simpl; [tauto |].
  destruct (a =? n); simpl; tauto.
Qed.

Lemma erase_first_sorted n q :
  StronglySorted Z.lt q -> StronglySorted Z.lt (erase_first n q).
Proof.
  intros Hs. induction Hs as [| a l Hl IH Ha]; simpl.
  - constructor.
  - destruct (a =? n); [exact Hl |].
    constructor; [exact IH |].
    apply Forall_forall. intros x Hx.
    rewrite Forall_forall in Ha. apply Ha. eapply erase_first_incl. exact Hx.
Qed.

(** In a queue without repetition, erasing the first occurrence erases
    the nonce. *)
Lemma erase_first_filter n q :
  StronglySorted Z.lt q ->
  erase_first n q = filter (fun x => negb (x =? n)) q.
Proof.
  intros Hs. induction Hs as [| a l Hl IH Ha]; simpl.
  - reflexivity.
  - destruct (a =? n) eqn:Han; simpl.
    + apply Z.eqb_eq in Han. subst a.
      symmetry. apply forallb_filter_id.
      apply forallb_forall. intros x Hx.
      rewrite Forall_forall in Ha. specialize (Ha x Hx).
      apply negb_true_iff. apply Z.eqb_neq. lia.
    + rewrite IH. reflexivity.
Qed.

(** *** The nonce bookkeeping of [report_cipher_success] *)

(** What [record_nonce] does when the nonce is a new maximum. *)
Lemma record_nonce_advance m prev bigNonce :
  nonce_window m -> newestProcessedNonce_ m = Some prev ->
  prev < bigNonce -> bigNonce < 2 ^ 56 ->
  newestProcessedNonce_ (record_nonce m bigNonce) = Some bigNonce /\
  missingNonces_ (record_nonce m bigNonce) =
    prune_front (Z.max (bigNonce - MAX_MISSING_NONCES) 0) (missingNonces_ m) ++
    zrange (Z.max (bigNonce - MAX_MISSING_NONCES) (prev + 1)) bigNonce.
Proof.
  intros Hw Hnew Hlt Hbig.
  unfold nonce_window in Hw. rewrite Hnew in Hw. destruct Hw as [Hprev _].
  unfold record_nonce. rewrite Hnew.
  assert (Hltb : (prev <? bigNonce) = true) by (apply Z.ltb_lt; exact Hlt).
  rewrite Hltb. manager_cbn. split; [reflexivity |].
  rewrite wrap64_small by lia.
  assert (Hold : (if MAX_MISSING_NONCES <? bigNonce then bigNonce - MAX_MISSING_NONCES else 0)
                 = Z.max (bigNonce - MAX_MISSING_NONCES) 0).
  { unfold MAX_MISSING_NONCES. destruct (50 <? bigNonce) eqn:E;
      [apply Z.ltb_lt in E | apply Z.ltb_ge in E]; lia. }
  rewrite Hold.
  assert (Hstart : Z.max (Z.max (bigNonce - MAX_MISSING_NONCES) 0) (prev + 1)
                   = Z.max (bigNonce - MAX_MISSING_NONCES) (prev + 1)) by lia.
  rewrite Hstart.
  rewrite push_missing_range; [reflexivity | | |];
    unfold MAX_MISSING_NONCES in *; lia.
Qed.

(** What [record_nonce] does when the nonce is not a new maximum. *)
Lemma record_nonce_late m prev bigNonce :
  newestProcessedNonce_ m = Some prev -> bigNonce <= prev ->
  newestProcessedNonce_ (record_nonce m bigNonce) = Some prev /\
  missingNonces_ (record_nonce m bigNonce) = erase_first bigNonce (missingNonces_ m).
Proof.
  intros Hnew Hle. unfold record_nonce. rewrite Hnew.
  assert (Hltb : (prev <? bigNonce) = false) by (apply Z.ltb_ge; exact Hle).
  rewrite Hltb. manager_cbn. split; reflexivity.
Qed.

Lemma record_nonce_first m bigNonce :
  newestProcessedNonce_ m = None ->
  newestProcessedNonce_ (record_nonce m bigNonce) = Some bigNonce /\
  missingNonces_ (record_nonce m bigNonce) = missingNonces_ m.
Proof.
  intros Hnew. unfold record_nonce. rewrite Hnew. manager_cbn. split; reflexivity.
Qed.

Lemma record_nonce_window m bigNonce :
  nonce_window m -> 0 <= bigNonce < 2 ^ 56 -> nonce_window (record_nonce m bigNonce).
Proof.
  intros Hw Hbig.
  destruct (newestProcessedNonce_ m) as [prev |] eqn:Hnew.
  - destruct (Z.lt_ge_cases prev bigNonce) as [Hlt | Hge].
    + destruct (record_nonce_advance m prev bigNonce Hw Hnew Hlt) as [Hn Hm]; [lia |].
      unfold nonce_window in *. rewrite Hn, Hm. rewrite Hnew in Hw.
      destruct Hw as [Hprev [Hsorted Hall]].
      rewrite Forall_forall in Hall.
      pose proof (prune_front_kept (Z.max (bigNonce - MAX_MISSING_NONCES) 0) _ Hsorted) as Hkept.
      rewrite Forall_forall in Hkept.
      split; [exact Hbig | split].
      * apply sorted_app.
        -- apply prune_front_sorted. exact Hsorted.
        -- apply zrange_from_sorted.
        -- intros x y Hx Hy. apply in_zrange in Hy.
           apply prune_front_incl in Hx. specialize (Hall x Hx). lia.
      * apply Forall_forall. intros x Hx. apply in_app_or in Hx.
        destruct Hx as [Hx | Hx].
        -- specialize (Hkept x Hx). apply prune_front_incl in Hx.
           specialize (Hall x Hx). lia.
        -- apply in_zrange in Hx. unfold MAX_MISSING_NONCES in *. lia.
    + destruct (record_nonce_late m prev bigNonce Hnew Hge) as [Hn Hm].
      unfold nonce_window in *. rewrite Hn, Hm. rewrite Hnew in Hw.
      destruct Hw as [Hprev [Hsorted Hall]].
      split; [exact Hprev | split].
      * apply erase_first_sorted. exact Hsorted.
      * apply Forall_forall. intros x Hx. apply erase_first_incl in Hx.
        rewrite Forall_forall in Hall. apply Hall. exact Hx.
  - destruct (record_nonce_first m bigNonce Hnew) as [Hn Hm].
    unfold nonce_window in *. rewrite Hn, Hm. rewrite Hnew in Hw. rewrite Hw.
    split; [exact Hbig | split; constructor].
Qed.

(** *** What each operation leaves alone *)

Lemma cleanup_expired_ciphers_frame m k :
  let m' := fst (cleanup_expired_ciphers m k) in
  newestProcessedNonce_ m' = newestProcessedNonce_ m /\
  missingNonces_ m' = missingNonces_ m /\
  newestGeneration_ m' = newestGeneration_ m /\
  ratchetCreation_ m' = ratchetCreation_ m.
Proof.
  unfold cleanup_expired_ciphers, bind, ret.
  destruct (erase_expired (cryptors_ m) k) as [cs k1].
  destruct (delete_old_keys _ cs _ _ _) as [oldest r]. manager_cbn. auto.
Qed.

Lemma make_expiring_cipher_cases r newest g k :
  exists c r' k', make_expiring_cipher r newest g k = (c, r', k').
Proof.
  destruct (make_expiring_cipher r newest g k) as [[c r'] k']. eauto.
Qed.

(** [get_cipher] is the clean-up followed by an update of nothing but the
    key ratchet and the ciphers. *)
Lemma get_cipher_frame m g k :
  let m1 := fst (cleanup_expired_ciphers m k) in
  let m' := snd (fst (get_cipher m g k)) in
  newestProcessedNonce_ m' = newestProcessedNonce_ m1 /\
  missingNonces_ m' = missingNonces_ m1 /\
  newestGeneration_ m' = newestGeneration_ m1 /\
  oldestGeneration_ m' = oldestGeneration_ m1 /\
  ratchetCreation_ m' = ratchetCreation_ m1.
Proof.
  unfold get_cipher, bind, ret, now.
  destruct (cleanup_expired_ciphers m k) as [m1 k1]. manager_cbn.
  destruct (g <? oldestGeneration_ m1); [manager_cbn; auto |].
  destruct (wrap32 (newestGeneration_ m1 + MAX_GENERATION_GAP) <? g); [manager_cbn; auto |].
  destruct (Z.shiftr _ _ <? g); [manager_cbn; auto |].
  destruct (find_cryptor (cryptors_ m1) g); [manager_cbn; auto |].
  destruct (make_expiring_cipher (keyRatchet_ m1) (newestGeneration_ m1) g (S k1))
    as [[c r] k2].
  manager_cbn. auto.
Qed.

Lemma report_cipher_success_nonces m g n k :
  let m' := fst (report_cipher_success m g n k) in
  newestProcessedNonce_ m' =
    newestProcessedNonce_ (record_nonce m (compute_wrapped_big_nonce g n)) /\
  missingNonces_ m' = missingNonces_ (record_nonce m (compute_wrapped_big_nonce g n)).
Proof.
  unfold report_cipher_success, bind, ret, now.
  destruct (_ || _); manager_cbn; auto.
Qed.

Lemma record_nonce_generations m b :
  oldestGeneration_ (record_nonce m b) = oldestGeneration_ m /\
  newestGeneration_ (record_nonce m b) = newestGeneration_ m.
Proof.
  unfold record_nonce.
  destruct (newestProcessedNonce_ m) as [p |]; [destruct (p <? b) |]; manager_cbn; auto.
Qed.

(** *** Invariants of the reachable states *)

Lemma reachable_nonce_window m : reachable m -> nonce_window m.
Proof.
  induction 1 as [r k | m g k Hm IH Hg | m g n k Hm IH Hg Hn | m d Hm IH].
  - unfold make_manager, bind, ret, now, nonce_window. manager_cbn. reflexivity.
  - destruct (get_cipher_frame m g k) as [Hn [Hmiss _]].
    destruct (cleanup_expired_ciphers_frame m k) as [Hn1 [Hmiss1 _]].
    unfold nonce_window in *. rewrite Hn, Hmiss, Hn1, Hmiss1. exact IH.
  - destruct (report_cipher_success_nonces m g n k) as [Hnew Hmiss].
    pose proof (record_nonce_window m (compute_wrapped_big_nonce g n) IH) as Hw.
    assert (Hb : 0 <= compute_wrapped_big_nonce g n < 2 ^ 56)
      by (apply big_nonce_range; exact Hg).
    specialize (Hw Hb).
    unfold nonce_window in *. rewrite Hnew, Hmiss. exact Hw.
  - exact IH.
Qed.

Lemma delete_old_keys_range fuel cs newest oldest r :
  is_u32 oldest -> is_u32 (fst (delete_old_keys fuel cs newest oldest r)).
Proof.
  revert oldest r. induction fuel as [| fuel IH]; intros oldest r Ho; simpl.
  - exact Ho.
  - destruct (_ && _); [apply IH; apply wrap32_range | exact Ho].
Qed.

Lemma cleanup_expired_ciphers_oldest m k :
  is_u32 (oldestGeneration_ m) ->
  is_u32 (oldestGeneration_ (fst (cleanup_expired_ciphers m k))).
Proof.
  intros Ho. unfold cleanup_expired_ciphers, bind, ret.
  destruct (erase_expired (cryptors_ m) k) as [cs k1].
  pose proof (delete_old_keys_range
                (Z.to_nat (newestGeneration_ m - oldestGeneration_ m)) cs
                (newestGeneration_ m) (oldestGeneration_ m) (keyRatchet_ m) Ho) as Hr.
  destruct (delete_old_keys _ cs _ _ _) as [oldest r]. manager_cbn. exact Hr.
Qed.

Lemma reachable_generations m : reachable m -> generations_in_range m.
Proof.
  induction 1 as [r k | m g k Hm IH Hg | m g n k Hm IH Hg Hn | m d Hm IH].
  - unfold make_manager, bind, ret, now, generations_in_range, is_u32. manager_cbn. lia.
  - destruct IH as [Ho Hn].
    destruct (get_cipher_frame m g k) as [_ [_ [Hnew [Hold _]]]].
    destruct (cleanup_expired_ciphers_frame m k) as [_ [_ [Hnew1 _]]].
    unfold generations_in_range. rewrite Hnew, Hold, Hnew1.
    split; [apply cleanup_expired_ciphers_oldest; exact Ho | exact Hn].
  - destruct IH as [Ho Hnw].
    destruct (record_nonce_generations m (compute_wrapped_big_nonce g n)) as [Ho1 Hn1].
    unfold generations_in_range, report_cipher_success, bind, ret, now.
    destruct (_ || _); manager_cbn; rewrite ?Ho1, ?Hn1; auto.
  - exact IH.
Qed.

(** The second loop of the clean-up is given enough iterations: it stops
    because its condition fails, with a cipher at the oldest generation or
    the oldest generation level with the newest. *)
Lemma delete_old_keys_done cs newest oldest r :
  is_u32 oldest -> is_u32 newest ->
  let oldest' := fst (delete_old_keys (Z.to_nat (newest - oldest)) cs newest oldest r) in
  ~ (oldest' < newest /\ find_cryptor cs oldest' = None).
Proof.
  intros Ho Hn.
  assert (Hgen : forall fuel oldest0 r0,
            is_u32 oldest0 -> newest - oldest0 <= Z.of_nat fuel ->
            let oldest' := fst (delete_old_keys fuel cs newest oldest0 r0) in
            ~ (oldest' < newest /\ find_cryptor cs oldest' = None)).
  { induction fuel as [| fuel IH]; intros oldest0 r0 Ho0 Hfuel; cbn [delete_old_keys].
    - cbn [fst]. lia.
    - destruct (oldest0 <? newest) eqn:Hlt; cbn [andb].
      + apply Z.ltb_lt in Hlt.
        destruct (find_cryptor cs oldest0) as [c |] eqn:Hfind.
        * cbn [fst]. rewrite Hfind. intros [_ Hnone]. discriminate.
        * unfold is_u32 in *. rewrite (wrap32_small (oldest0 + 1)) by lia.
          apply IH; [unfold is_u32; lia | lia].
      + apply Z.ltb_ge in Hlt. cbn [fst]. lia. }
  apply Hgen; [exact Ho | lia].
Qed.

(** *** Replay protection *)

(** C1. In a manager that has not processed any nonce,
    [can_process_nonce] accepts every generation and nonce.  Otherwise it
    accepts exactly when the big nonce [(generation << 24) | (nonce &
    0xFFFFFF)] is strictly greater than the newest processed nonce or is one
    of the missing nonces; a big nonce equal to the newest processed nonce
    is refused. *)
Theorem can_process_nonce_replay_protection m generation nonce :
  reachable m -> is_u32 generation -> is_u32 nonce ->
  let bigNonce := Z.lor (Z.shiftl generation 24) (Z.land nonce 16777215) in
  (newestProcessedNonce_ m = None -> can_process_nonce m generation nonce = true) /\
  (forall newest, newestProcessedNonce_ m = Some newest ->
     (can_process_nonce m generation nonce = true <->
      newest < bigNonce \/ In bigNonce (missingNonces_ m)) /\
     (bigNonce = newest -> can_process_nonce m generation nonce = false)).
Proof.
  intros Hreach Hg Hn bigNonce.
  unfold can_process_nonce. rewrite big_nonce_spec by exact Hg. fold bigNonce.
  split.
  - intros Hnone. rewrite Hnone. reflexivity.
  - intros newest Hnewest. rewrite Hnewest.
    assert (Hfind : find_nonce (missingNonces_ m) bigNonce = true <->
                    In bigNonce (missingNonces_ m)).
    { unfold find_nonce. rewrite existsb_exists. split.
      - intros [x [Hin Heq]]. apply Z.eqb_eq in Heq. subst x. exact Hin.
      - intros Hin. exists bigNonce. split; [exact Hin | apply Z.eqb_refl]. }
    split.
    + rewrite orb_true_iff, Z.ltb_lt, Hfind. reflexivity.
    + intros Heq.
      apply reachable_nonce_window in Hreach.
      unfold nonce_window in Hreach. rewrite Hnewest in Hreach.
      destruct Hreach as [_ [_ Hall]]. rewrite Forall_forall in Hall.
      apply orb_false_iff. split.
      * apply Z.ltb_ge. lia.
      * apply not_true_is_false. intros E.
        apply Hfind in E. specialize (Hall bigNonce E). lia.
Qed.

(** *** The gates of [get_cipher] *)

(** C2. With [t] the reading of the clock at the third gate and the
    manager [m'] as [get_cipher] leaves it: a cipher is returned only for a
    generation that is at least the oldest generation, at most the newest
    generation plus [MAX_GENERATION_GAP] and at most
    [(MAX_FRAMES_PER_SECOND * age in seconds) / 2^24]; a generation that
    violates one of the three bounds gets no cipher. *)
Theorem get_cipher_gates m generation k :
  reachable m -> is_u32 generation ->
  let returned := fst (fst (get_cipher m generation k)) in
  let m' := snd (fst (get_cipher m generation k)) in
  let t := clock_reading (snd (cleanup_expired_ciphers m k)) in
  let max_generations := (MAX_FRAMES_PER_SECOND * ratchet_lifetime_sec m' t) / 2 ^ 24 in
  (returned <> None ->
     oldestGeneration_ m' <= generation /\
     generation <= newestGeneration_ m' + MAX_GENERATION_GAP /\
     generation <= max_generations) /\
  (generation < oldestGeneration_ m' \/
   newestGeneration_ m' + MAX_GENERATION_GAP < generation \/
   max_generations < generation ->
     returned = None).
Proof.
  intros Hreach Hg.
  pose proof (reachable_generations m Hreach) as [_ Hnewest].
  pose proof (cleanup_expired_ciphers_frame m k) as [_ [_ [Hn1 _]]].
  unfold get_cipher, bind, ret, now, ratchet_lifetime_sec.
  destruct (cleanup_expired_ciphers m k) as [m1 k1]. manager_cbn.
  cbn [fst] in Hn1. rewrite <- Hn1 in Hnewest.
  unfold is_u32, MAX_GENERATION_GAP in *.
  rewrite <- (Z.shiftr_div_pow2 _ 24) by lia.
  change RATCHET_GENERATION_SHIFT_BITS with 24.
  destruct (generation <? oldestGeneration_ m1) eqn:E1.
  { manager_cbn. split; [intros Hc; congruence | reflexivity]. }
  destruct (wrap32 (newestGeneration_ m1 + 250) <? generation) eqn:E2.
  { manager_cbn. split; [intros Hc; congruence | reflexivity]. }
  destruct (Z.shiftr _ 24 <? generation) eqn:E3.
  { manager_cbn. split; [intros Hc; congruence | reflexivity]. }
  apply Z.ltb_ge in E1, E2, E3.
  assert (Hgap : generation <= newestGeneration_ m1 + 250).
  { pose proof (wrap32_le (newestGeneration_ m1 + 250)). lia. }
  destruct (find_cryptor (cryptors_ m1) generation) as [c |].
  - manager_cbn. split; [intros _; lia | intros Hv; lia].
  - destruct (make_expiring_cipher (keyRatchet_ m1) (newestGeneration_ m1) generation (S k1))
      as [[c r] k2].
    manager_cbn. split; [intros _; lia | intros Hv; lia].
Qed.

(** *** The window of missing nonces *)

(** C3. [report_cipher_success] on a big nonce that is a new maximum makes
    it the newest processed nonce, drops from the front of the queue the
    missing nonces smaller than it minus [MAX_MISSING_NONCES] and keeps the
    others, and appends exactly the big nonces from
    [max (new - MAX_MISSING_NONCES) (previous + 1)] up to [new - 1]; on a
    big nonce that is not a new maximum it leaves the newest processed
    nonce alone and removes that big nonce from the queue.  After the call
    every missing nonce lies in [[newest - MAX_MISSING_NONCES, newest)], and
    there are at most 50 of them. *)
Theorem report_cipher_success_missing_window m generation nonce k :
  reachable m -> is_u32 generation -> is_u32 nonce ->
  let bigNonce := compute_wrapped_big_nonce generation nonce in
  let m' := fst (report_cipher_success m generation nonce k) in
  (forall previous,
     newestProcessedNonce_ m = Some previous -> previous < bigNonce ->
     newestProcessedNonce_ m' = Some bigNonce /\
     exists dropped kept,
       missingNonces_ m = dropped ++ kept /\
       Forall (fun x => x < bigNonce - MAX_MISSING_NONCES) dropped /\
       Forall (fun x => bigNonce - MAX_MISSING_NONCES <= x) kept /\
       missingNonces_ m' =
         kept ++ zrange (Z.max (bigNonce - MAX_MISSING_NONCES) (previous + 1)) bigNonce) /\
  (forall previous,
     newestProcessedNonce_ m = Some previous -> bigNonce <= previous ->
     newestProcessedNonce_ m' = Some previous /\
     missingNonces_ m' = filter (fun x => negb (x =? bigNonce)) (missingNonces_ m)) /\
  (newestProcessedNonce_ m = None ->
     newestProcessedNonce_ m' = Some bigNonce /\ missingNonces_ m' = []) /\
  (exists newest,
     newestProcessedNonce_ m' = Some newest /\
     Forall (fun x => newest - MAX_MISSING_NONCES <= x < newest) (missingNonces_ m') /\
     (List.length (missingNonces_ m') <= 50)%nat).
Proof.
  intros Hreach Hg Hn bigNonce m'.
  pose proof (reachable_nonce_window m Hreach) as Hw.
  assert (Hbig : 0 <= bigNonce < 2 ^ 56) by (apply big_nonce_range; exact Hg).
  destruct (report_cipher_success_nonces m generation nonce k) as [Hnew' Hmiss'].
  fold bigNonce in Hnew', Hmiss'. fold m' in Hnew', Hmiss'.
  rewrite Hnew', Hmiss'.
  split; [| split; [| split]].
  - intros previous Hprev Hlt.
    destruct (record_nonce_advance m previous bigNonce Hw Hprev Hlt) as [Hn' Hm']; [lia |].
    split; [exact Hn' |].
    unfold nonce_window in Hw. rewrite Hprev in Hw. destruct Hw as [_ [Hsorted Hall]].
    destruct (prune_front_split (Z.max (bigNonce - MAX_MISSING_NONCES) 0) (missingNonces_ m))
      as [dropped [Hsplit Hdropped]].
    exists dropped, (prune_front (Z.max (bigNonce - MAX_MISSING_NONCES) 0) (missingNonces_ m)).
    split; [exact Hsplit | split; [| split; [| exact Hm']]].
    + rewrite Forall_forall in *. intros x Hx.
      specialize (Hdropped x Hx).
      assert (Hin : In x (missingNonces_ m)) by (rewrite Hsplit; apply in_or_app; left; exact Hx).
      specialize (Hall x Hin). lia.
    + eapply Forall_impl; [| apply prune_front_kept; exact Hsorted].
      simpl. intros x Hx. lia.
  - intros previous Hprev Hle.
    destruct (record_nonce_late m previous bigNonce Hprev Hle) as [Hn' Hm'].
    split; [exact Hn' |]. rewrite Hm'.
    unfold nonce_window in Hw. rewrite Hprev in Hw. destruct Hw as [_ [Hsorted _]].
    apply erase_first_filter. exact Hsorted.
  - intros Hnone.
    destruct (record_nonce_first m bigNonce Hnone) as [Hn' Hm'].
    unfold nonce_window in Hw. rewrite Hnone in Hw.
    rewrite Hn', Hm', Hw. split; reflexivity.
  - pose proof (record_nonce_window m bigNonce Hw Hbig) as Hw'.
    unfold nonce_window in Hw'.
    assert (Hsome : exists newest, newestProcessedNonce_ (record_nonce m bigNonce) = Some newest).
    { unfold record_nonce. destruct (newestProcessedNonce_ m) as [p |];
        [destruct (p <? bigNonce) |]; manager_cbn; eauto. }
    destruct Hsome as [newest Hnewest]. rewrite Hnewest in Hw'.
    destruct Hw' as [_ [Hsorted Hall]].
    assert (Hrange : Forall (fun x => newest - MAX_MISSING_NONCES <= x < newest)
                       (missingNonces_ (record_nonce m bigNonce))).
    { eapply Forall_impl; [| exact Hall]. simpl. intros x Hx. lia. }
    exists newest. split; [exact Hnewest | split; [exact Hrange |]].
    assert (Hlen : Z.of_nat (List.length (missingNonces_ (record_nonce m bigNonce)))
                   <= newest - (newest - MAX_MISSING_NONCES)).
    { apply sorted_length_bound; [exact Hsorted | exact Hrange |].
      unfold MAX_MISSING_NONCES. lia. }
    unfold MAX_MISSING_NONCES in Hlen. lia.
Qed.

(** *** The wrapped generation *)

(** C4 (amended). For [uint32_t] arguments, [compute_wrapped_generation]
    is [(oldest / 2^24 + (1 if generation < oldest mod 2^24, else 0)) * 2^24
    + generation] reduced modulo [2^32]; it is that value itself whenever the
    value fits in 32 bits. *)
Theorem compute_wrapped_generation_modulo oldest generation :
  is_u32 oldest -> is_u32 generation ->
  let exact :=
    (oldest / 2 ^ 24 + (if generation <? oldest mod 2 ^ 24 then 1 else 0)) * 2 ^ 24
    + generation in
  compute_wrapped_generation oldest generation = exact mod 2 ^ 32 /\
  (exact < 2 ^ 32 -> compute_wrapped_generation oldest generation = exact).
Proof.
  intros Ho Hg exact.
  assert (Hmod : compute_wrapped_generation oldest generation = exact mod 2 ^ 32).
  { unfold compute_wrapped_generation, wrap32, GENERATION_WRAP.
    rewrite Z.mul_mod_idemp_l by lia.
    rewrite Z.add_mod_idemp_l by lia.
    reflexivity. }
  split; [exact Hmod |].
  intros Hfit. rewrite Hmod. apply Z.mod_small.
  split; [| exact Hfit].
  unfold is_u32 in *. subst exact.
  assert (0 <= oldest / 2 ^ 24) by (apply Z.div_pos; lia).
  destruct (generation <? oldest mod 2 ^ 24); lia.
Qed.

End manager_properties.

(** *** The manager on the mock platform *)

Section manager_examples.
Import cryptor_manager scenario.
#[local] Existing Instance mock.clock.
#[local] Existing Instance mock.crypto.

Lemma manager_after_5_reachable : reachable manager_after_5.
Proof.
  unfold manager_after_5.
  apply reach_report; [apply reach_make | |]; unfold is_u32; lia.
Qed.

Lemma can_process_nonce_replay_protection_witness :
  reachable manager_after_5 /\ is_u32 0 /\ is_u32 5 /\
  can_process_nonce manager_after_5 0 5 = false.
Proof.
  assert (H0 : is_u32 0) by (unfold is_u32; lia).
  assert (H5 : is_u32 5) by (unfold is_u32; lia).
  split; [exact manager_after_5_reachable | split; [exact H0 | split; [exact H5 |]]].
  apply (proj2 (can_process_nonce_replay_protection manager_after_5 0 5
                  manager_after_5_reachable H0 H5) 5); reflexivity.
Defined.

Lemma get_cipher_gates_witness :
  reachable manager_after_5 /\ is_u32 0 /\
  fst (fst (get_cipher manager_after_5 0 1%nat)) <> None /\
  oldestGeneration_ (snd (fst (get_cipher manager_after_5 0 1%nat))) <= 0.
Proof.
  assert (H0 : is_u32 0) by (unfold is_u32; lia).
  assert (Hc : fst (fst (get_cipher manager_after_5 0 1%nat)) <> None)
    by (vm_compute; discriminate).
  split; [exact manager_after_5_reachable | split; [exact H0 | split; [exact Hc |]]].
  apply (proj1 (get_cipher_gates manager_after_5 0 1%nat manager_after_5_reachable H0) Hc).
Defined.

Lemma report_cipher_success_missing_window_witness :
  reachable manager_after_5 /\ is_u32 0 /\ is_u32 100 /\
  exists newest,
    newestProcessedNonce_ manager_after_100 = Some newest /\
    Forall (fun x => newest - MAX_MISSING_NONCES <= x < newest)
      (missingNonces_ manager_after_100) /\
    (List.length (missingNonces_ manager_after_100) <= 50)%nat.
Proof.
  assert (H0 : is_u32 0) by (unfold is_u32; lia).
  assert (H100 : is_u32 100) by (unfold is_u32; lia).
  split; [exact manager_after_5_reachable | split; [exact H0 | split; [exact H100 |]]].
  apply (report_cipher_success_missing_window manager_after_5 0 100 1%nat
           manager_after_5_reachable H0 H100).
Defined.

(** The queue of the second manager: the fifty nonces before 100. *)
Example manager_after_100_missing :
  newestProcessedNonce_ manager_after_100 = Some 100 /\
  missingNonces_ manager_after_100 = zrange 50 100.
Proof. vm_compute. split; reflexivity. Qed.

Lemma compute_wrapped_generation_modulo_witness :
  is_u32 16777217 /\ is_u32 0 /\
  compute_wrapped_generation 16777217 0 = 33554432.
Proof.
  assert (Ho : is_u32 16777217) by (unfold is_u32; lia).
  assert (H0 : is_u32 0) by (unfold is_u32; lia).
  split; [exact Ho | split; [exact H0 |]].
  apply (proj2 (compute_wrapped_generation_modulo 16777217 0 Ho H0)).
  vm_compute. reflexivity.
Defined.

(** C4, as the specification states it, fails where the factor reaches
    [2^8]: the product leaves the 32 bits of the result. *)
Lemma compute_wrapped_generation_not_exact :
  compute_wrapped_generation 4294967295 0
  <> (4294967295 / 2 ^ 24 + (if 0 <? 4294967295 mod 2 ^ 24 then 1 else 0)) * 2 ^ 24 + 0.
Proof. vm_compute. discriminate. Qed.

End manager_examples.

(** ** The decryptor *)

Section decryptor_properties.
Import cryptor_manager decryptor.
Context `{clock_interface} `{key_ratchet_interface} `{frame_processor_interface}.

(** Reduction of pairs and of the projections of a decryptor and of its
    results. *)
Ltac decryptor_cbn :=
  cbn [fst snd bytes_written frame_out parsed
       cryptorManagers_ allowPassThroughUntil_ lastStatsTime_ stats_audio stats_video
       frameProcessors_ set_stats set_managers set_passthrough_until set_last_stats_time
       set_pool GetOrCreateFrameProcessor ReturnFrameProcessor
       passthroughCount decryptSuccessCount decryptFailureCount decryptDuration
       decryptAttempts count_passthrough count_failure count_success add_duration].

Lemma media_type_valid_dec (mediaType : media_type) :
  negb (mediaType =? media_audio) && negb (mediaType =? media_video) = false <->
  mediaType = media_audio \/ mediaType = media_video.
Proof.
  rewrite andb_false_iff, !negb_false_iff, !Z.eqb_eq. reflexivity.
Qed.

Lemma stats_set_stats d mediaType s : stats_ (set_stats d mediaType s) mediaType = s.
Proof. unfold stats_, set_stats. decryptor_cbn. destruct (mediaType =? media_audio); reflexivity. Qed.

Lemma stats_ReturnFrameProcessor d mediaType :
  stats_ (ReturnFrameProcessor d) mediaType = stats_ d mediaType.
Proof. reflexivity. Qed.

Lemma stats_GetOrCreateFrameProcessor d mediaType :
  stats_ (GetOrCreateFrameProcessor d) mediaType = stats_ d mediaType.
Proof. reflexivity. Qed.

Lemma stats_set_managers d ms mediaType : stats_ (set_managers d ms) mediaType = stats_ d mediaType.
Proof. reflexivity. Qed.

Lemma copy_into_verbatim frame encryptedFrame :
  firstn (List.length encryptedFrame) (copy_into frame encryptedFrame) = encryptedFrame.
Proof.
  unfold copy_into. rewrite firstn_app, Nat.sub_diag, firstn_all. cbn [firstn].
  apply app_nil_r.
Qed.

(** [decrypt] gets as far as parsing exactly for a valid media type and
    a frame that is not the silence packet of an audio stream; what it then
    holds is [ParseFrame] of the wire frame. *)
Lemma decrypt_parses d mediaType encryptedFrame frame k f :
  parsed (fst (fst (decrypt d mediaType encryptedFrame frame k))) = Some f <->
  (mediaType = media_audio \/ mediaType = media_video) /\
  is_silence mediaType encryptedFrame = false /\
  f = ParseFrame encryptedFrame.
Proof.
  unfold decrypt, bind, ret, now.
  destruct (negb (mediaType =? media_audio) && negb (mediaType =? media_video)) eqn:Emt.
  { decryptor_cbn. split; [discriminate |].
    intros [Hv _]. apply media_type_valid_dec in Hv. congruence. }
  apply media_type_valid_dec in Emt.
  destruct (is_silence mediaType encryptedFrame) eqn:Esil.
  { decryptor_cbn. split; [discriminate | intros [_ [Hs _]]; discriminate]. }
  destruct (CleanupExpiredCryptorManagers _ (S k)) as [ms k1].
  assert (Hgoal : forall r : decrypt_result * decryptor * nat,
            parsed (fst (fst r)) = Some (ParseFrame encryptedFrame) ->
            (parsed (fst (fst r)) = Some f <->
             (mediaType = media_audio \/ mediaType = media_video) /\
             false = false /\ f = ParseFrame encryptedFrame)).
  { intros r Hr. rewrite Hr. split.
    - intros Hf. inversion Hf. auto.
    - intros [_ [_ ->]]. reflexivity. }
  apply Hgoal.
  destruct (negb (IsEncrypted (ParseFrame encryptedFrame)) && _); [reflexivity |].
  destruct (negb (IsEncrypted (ParseFrame encryptedFrame))); [reflexivity |].
  destruct (try_cryptor_managers _ _ _ k1) as [[[[success ms'] f'] s'] k2].
  destruct success; [destruct (ReconstructFrame f' frame) as [n out] |]; reflexivity.
Qed.

(** C10. [decrypt] with a media type that is neither audio nor video
    returns 0 and changes nothing: the output buffer and the whole
    decryptor (cipher managers, passthrough deadline, statistics, pool of
    frame processors) are as before, the frame is not parsed, and the clock
    is not read. *)
Theorem decrypt_invalid_media_type d mediaType encryptedFrame frame k :
  mediaType <> media_audio -> mediaType <> media_video ->
  decrypt d mediaType encryptedFrame frame k =
    ({| bytes_written := 0; frame_out := frame; parsed := None |}, d, k).
Proof.
  intros Ha Hv. unfold decrypt.
  apply Z.eqb_neq in Ha, Hv. rewrite Ha, Hv. reflexivity.
Qed.

(** C5. [TransitionToPassthroughMode] with [true] sets the passthrough
    deadline to the maximal time point; with [false] it sets it to the
    minimum of the previous deadline and the clock plus the expiry (when
    that sum is a time point).  A call of [decrypt] that parses its frame
    as not encrypted copies the frame verbatim, returns its size and counts
    a passthrough when the clock, read on entry, is strictly before the
    deadline; otherwise it leaves the output alone, returns 0 and counts a
    decrypt failure. *)
Theorem passthrough_window d mediaType encryptedFrame frame transitionExpiry k :
  let start := clock_reading k in
  let r := fst (fst (decrypt d mediaType encryptedFrame frame k)) in
  let d' := snd (fst (decrypt d mediaType encryptedFrame frame k)) in
  allowPassThroughUntil_ (fst (TransitionToPassthroughMode d true transitionExpiry k))
    = time_point_max /\
  (is_s64 (start + transitionExpiry) ->
   allowPassThroughUntil_ (fst (TransitionToPassthroughMode d false transitionExpiry k))
     = Z.min (allowPassThroughUntil_ d) (start + transitionExpiry)) /\
  (forall f, parsed r = Some f -> IsEncrypted f = false ->
     (start < allowPassThroughUntil_ d ->
        bytes_written r = Z.of_nat (List.length encryptedFrame) /\
        firstn (List.length encryptedFrame) (frame_out r) = encryptedFrame /\
        passthroughCount (stats_ d' mediaType)
          = wrap64 (passthroughCount (stats_ d mediaType) + 1) /\
        decryptFailureCount (stats_ d' mediaType) = decryptFailureCount (stats_ d mediaType)) /\
     (allowPassThroughUntil_ d <= start ->
        bytes_written r = 0 /\
        frame_out r = frame /\
        passthroughCount (stats_ d' mediaType) = passthroughCount (stats_ d mediaType) /\
        decryptFailureCount (stats_ d' mediaType)
          = wrap64 (decryptFailureCount (stats_ d mediaType) + 1))).
Proof.
  intros start r d'.
  split; [reflexivity | split].
  - intros Hsum. unfold TransitionToPassthroughMode, bind, ret, now. decryptor_cbn.
    fold start. rewrite wrap_s64_small by exact Hsum. reflexivity.
  - intros f Hparsed Hplain.
    pose proof (proj1 (decrypt_parses d mediaType encryptedFrame frame k f) Hparsed)
      as [Hmt [Hsil Hf]].
    subst f. subst r d'. clear Hparsed.
    apply media_type_valid_dec in Hmt.
    unfold decrypt, bind, ret, now. rewrite Hmt, Hsil.
    destruct (CleanupExpiredCryptorManagers _ (S k)) as [ms k1].
    rewrite Hplain. cbn [negb andb]. decryptor_cbn. fold start.
    split.
    + intros Hbefore.
      assert (Hltb : (start <? allowPassThroughUntil_ d) = true) by (apply Z.ltb_lt; exact Hbefore).
      rewrite Hltb. decryptor_cbn.
      rewrite stats_ReturnFrameProcessor, stats_set_stats.
      rewrite stats_set_managers, stats_GetOrCreateFrameProcessor. decryptor_cbn.
      split; [reflexivity | split; [apply copy_into_verbatim | split; reflexivity]].
    + intros Hafter.
      assert (Hltb : (start <? allowPassThroughUntil_ d) = false) by (apply Z.ltb_ge; exact Hafter).
      rewrite Hltb. decryptor_cbn.
      rewrite stats_ReturnFrameProcessor, stats_set_stats.
      rewrite stats_set_managers, stats_GetOrCreateFrameProcessor. decryptor_cbn.
      repeat split; reflexivity.
Qed.

End decryptor_properties.

(** *** The decryptor on the mock platform *)

Section decryptor_examples.
Import cryptor_manager decryptor scenario.
#[local] Existing Instance mock.clock.
#[local] Existing Instance mock.crypto.
#[local] Existing Instance mock.frame_processor.

(** One second after the switch the plain frame still passes. *)
Lemma passthrough_window_witness :
  clock_reading 1%nat < allowPassThroughUntil_ closing_decryptor /\
  bytes_written (fst (fst (decrypt closing_decryptor media_audio plain_frame output_buffer 1%nat)))
    = 4 /\
  firstn 4 (frame_out (fst (fst (decrypt closing_decryptor media_audio plain_frame
                                   output_buffer 1%nat))))
    = plain_frame.
Proof.
  assert (Hbefore : clock_reading 1%nat < allowPassThroughUntil_ closing_decryptor)
    by (vm_compute; reflexivity).
  split; [exact Hbefore |].
  pose proof (proj2 (proj2 (passthrough_window closing_decryptor media_audio plain_frame
                              output_buffer 0 1%nat))
                (ParseFrame plain_frame) eq_refl eq_refl) as [Hpass _].
  destruct (Hpass Hbefore) as [Hbytes [Hcopy _]].
  split; [exact Hbytes | exact Hcopy].
Defined.

(** Seven seconds after the switch the same frame is refused. *)
Example passthrough_window_closed :
  decrypt closing_decryptor media_audio plain_frame output_buffer 7%nat
  = ({| bytes_written := 0; frame_out := output_buffer;
        parsed := Some (ParseFrame plain_frame) |},
     {| cryptorManagers_ := []; allowPassThroughUntil_ := 5 * ticks_per_second;
        lastStatsTime_ := 0;
        stats_audio := {| passthroughCount := 0; decryptSuccessCount := 0;
                          decryptFailureCount := 1; decryptDuration := 0;
                          decryptAttempts := 0 |};
        stats_video := no_decryption_stats; frameProcessors_ := 1 |},
     8%nat).
Proof. vm_compute. reflexivity. Qed.

(** The silence packet of an audio stream is copied whatever the
    deadline, and never parsed. *)
Example silence_bypasses_passthrough :
  fst (fst (decrypt closing_decryptor media_audio kOpusSilencePacket output_buffer 7%nat))
  = {| bytes_written := 3; frame_out := [xf8; xff; xfe; x00; x00; x00]; parsed := None |}.
Proof. vm_compute. reflexivity. Qed.

Lemma decrypt_invalid_media_type_witness :
  2 <> media_audio /\ 2 <> media_video /\
  decrypt closing_decryptor 2 plain_frame output_buffer 7%nat
  = ({| bytes_written := 0; frame_out := output_buffer; parsed := None |},
     closing_decryptor, 7%nat).
Proof.
  assert (Ha : 2 <> media_audio) by (unfold media_audio; lia).
  assert (Hv : 2 <> media_video) by (unfold media_video; lia).
  split; [exact Ha | split; [exact Hv |]].
  apply (decrypt_invalid_media_type closing_decryptor 2 plain_frame output_buffer 7%nat Ha Hv).
Defined.

End decryptor_examples.

(** ** The encryptor *)

Section encryptor_properties.
Import cryptor_manager encryptor.
Context `{clock_interface} `{key_ratchet_interface} `{outbound_interface}.

(** Reduction of pairs and of the projections of an encryptor. *)
Ltac encryptor_cbn :=
  cbn [fst snd keyRatchet_ cryptor_ currentKeyGeneration_ truncatedNonce_ passthroughMode_
       currentProtocolVersion_ protocolVersionChangedCallback_ protocolVersionChanges
       ssrcCodecPairs_ stats_audio stats_video lastStatsTime_ frameProcessors_
       set_stats set_key_state set_protocol set_codecs set_pool_and_time
       result bytesWritten encryptedFrame_out attempts].

Lemma counted_from_cons n len :
  is_u32 n -> counted_from n (S len) = wrap32 (n + 1) :: counted_from (wrap32 (n + 1)) len.
Proof.
  intros Hn. unfold counted_from. cbn [seq map]. f_equal.
  rewrite <- seq_shift, map_map. apply map_ext. intros i.
  unfold wrap32. rewrite Z.add_mod_idemp_l by lia. f_equal. lia.
Qed.

Lemma seq_add_map len a b : seq (a + b) len = map (fun i => (a + i)%nat) (seq b len).
Proof.
  revert b. induction len as [| len IH]; intros b; cbn [seq map].
  - reflexivity.
  - f_equal. rewrite <- IH. f_equal. lia.
Qed.

Lemma counted_from_app n len1 len2 :
  counted_from n (len1 + len2) =
  counted_from n len1 ++ counted_from (wrap32 (n + Z.of_nat len1)) len2.
Proof.
  unfold counted_from. rewrite seq_app, map_app. f_equal.
  rewrite (Nat.add_comm 1 len1), seq_add_map, map_map.
  apply map_ext. intros i.
  unfold wrap32. rewrite Z.add_mod_idemp_l by lia. f_equal. lia.
Qed.

(** Before the counter wraps, these are the integers themselves. *)
Lemma counted_from_zero len :
  Z.of_nat len < 2 ^ 32 -> counted_from 0 len = map Z.of_nat (seq 1 len).
Proof.
  intros Hlen. unfold counted_from. apply map_ext_in. intros i Hi.
  apply in_seq in Hi. apply wrap32_small. lia.
Qed.

Lemma seq_sorted a len : StronglySorted Z.lt (map Z.of_nat (seq a len)).
Proof.
  revert a. induction len as [| len IH]; intros a; cbn [seq map].
  - constructor.
  - constructor; [apply IH |].
    apply Forall_forall. intros x Hx. apply in_map_iff in Hx.
    destruct Hx as [i [<- Hi]]. apply in_seq in Hi. lia.
Qed.

Lemma sorted_NoDup (l : list Z) : StronglySorted Z.lt l -> NoDup l.
Proof.
  induction 1 as [| a l Hl IH Ha]; constructor; [| exact IH].
  intros Hin. rewrite Forall_forall in Ha. specialize (Ha a Hin). lia.
Qed.

(** [GetNextCryptorAndNonce] increments the counter before handing it
    out; the ratchet stays installed. *)
Lemma GetNextCryptorAndNonce_increments e r :
  keyRatchet_ e = Some r ->
  let nonce := snd (fst (GetNextCryptorAndNonce e)) in
  let e' := snd (GetNextCryptorAndNonce e) in
  nonce = wrap32 (truncatedNonce_ e + 1) /\
  truncatedNonce_ e' = nonce /\
  (exists r', keyRatchet_ e' = Some r') /\
  passthroughMode_ e' = passthroughMode_ e.
Proof.
  intros Hr. unfold GetNextCryptorAndNonce. rewrite Hr.
  destruct (negb _ || _).
  - destruct (GetKey r _) as [key r']. encryptor_cbn. eauto.
  - encryptor_cbn. eauto.
Qed.

(** On a freshly installed ratchet the first call hands out nonce 1 and
    sets up the cipher of generation 0. *)
Lemma GetNextCryptorAndNonce_fresh e r :
  keyRatchet_ e = Some r -> cryptor_ e = None ->
  currentKeyGeneration_ e = 0 -> truncatedNonce_ e = 0 ->
  snd (fst (GetNextCryptorAndNonce e)) = 1 /\
  currentKeyGeneration_ (snd (GetNextCryptorAndNonce e)) = 0.
Proof.
  intros Hr Hc Hg Hn. unfold GetNextCryptorAndNonce. rewrite Hr, Hc, Hg, Hn.
  change (wrap32 (0 + 1)) with 1.
  change (compute_wrapped_generation 0 (Z.shiftr 1 RATCHET_GENERATION_SHIFT_BITS)) with 0.
  cbn [Z.eqb negb orb].
  destruct (GetKey r 0) as [key r']. encryptor_cbn. split; reflexivity.
Qed.

(** One iteration of the retry loop uses the incremented counter. *)
Lemma encrypt_attempt_used e mediaType frameProcessor encryptedFrame attempt r :
  keyRatchet_ e = Some r ->
  let e' := snd (fst (fst (encrypt_attempt e mediaType frameProcessor encryptedFrame attempt))) in
  let used := snd (encrypt_attempt e mediaType frameProcessor encryptedFrame attempt) in
  snd used = wrap32 (truncatedNonce_ e + 1) /\
  truncatedNonce_ e' = wrap32 (truncatedNonce_ e + 1) /\
  (exists r', keyRatchet_ e' = Some r') /\
  (fresh e -> used = (0, 1)).
Proof.
  intros Hr.
  pose proof (GetNextCryptorAndNonce_increments e r Hr) as [Hn [Hn' [Hr' _]]].
  assert (Hfresh : fresh e ->
            (currentKeyGeneration_ (snd (GetNextCryptorAndNonce e)),
             snd (fst (GetNextCryptorAndNonce e))) = (0, 1)).
  { intros [Hc [Hg Hz]].
    destruct (GetNextCryptorAndNonce_fresh e r Hr Hc Hg Hz) as [-> ->]. reflexivity. }
  unfold encrypt_attempt.
  destruct (GetNextCryptorAndNonce e) as [[c nonce] e1]. cbn [fst snd] in *.
  destruct c as [c |]; [| encryptor_cbn; subst; auto].
  destruct (cipher_encrypt c _ _ _) as [[ciphertext tag] |]; [| encryptor_cbn; subst; auto].
  destruct (negb (_ =? Leb128Size nonce)%nat); [encryptor_cbn; subst; auto |].
  destruct (negb (_ =? UnencryptedRangesSize frameProcessor)%nat); [encryptor_cbn; subst; auto |].
  destruct (validate_encrypted_frame _ _); [encryptor_cbn; subst; auto |].
  destruct (MAX_CIPHERTEXT_VALIDATION_RETRIES <=? attempt); encryptor_cbn; subst; auto.
Qed.

(** The retry loop uses consecutive values of the counter. *)
Lemma encrypt_loop_used fuel attempt e mediaType frameProcessor encryptedFrame r :
  keyRatchet_ e = Some r -> is_u32 (truncatedNonce_ e) ->
  let run := encrypt_loop fuel attempt e mediaType frameProcessor encryptedFrame in
  let e' := snd (fst (fst run)) in
  let used := snd run in
  map snd used = counted_from (truncatedNonce_ e) (List.length used) /\
  truncatedNonce_ e' = wrap32 (truncatedNonce_ e + Z.of_nat (List.length used)) /\
  (exists r', keyRatchet_ e' = Some r') /\
  (fresh e -> (used = [] /\ fresh e') \/ hd_error used = Some (0, 1)).
Proof.
  revert attempt e encryptedFrame r.
  assert (Hstay : forall e0 : Encryptor, is_u32 (truncatedNonce_ e0) ->
            truncatedNonce_ e0 = wrap32 (truncatedNonce_ e0 + Z.of_nat 0)).
  { intros e0 He0. rewrite Z.add_0_r, wrap32_small by exact He0. reflexivity. }
  assert (Hnone : forall e0 r0, keyRatchet_ e0 = Some r0 -> is_u32 (truncatedNonce_ e0) ->
            [] = counted_from (truncatedNonce_ e0) 0 /\
            truncatedNonce_ e0 = wrap32 (truncatedNonce_ e0 + Z.of_nat 0) /\
            (exists r', keyRatchet_ e0 = Some r') /\
            (fresh e0 -> ([] = @nil (KeyGeneration * truncated_sync_nonce) /\ fresh e0) \/
                         hd_error (@nil (KeyGeneration * truncated_sync_nonce)) = Some (0, 1))).
  { intros e0 r0 Hr0 He0.
    split; [reflexivity | split; [apply Hstay; exact He0 | split; [eauto |]]].
    intros Hf. left. split; [reflexivity | exact Hf]. }
  induction fuel as [| fuel IH]; intros attempt e encryptedFrame r Hr Hn; cbn [encrypt_loop].
  - encryptor_cbn. cbn [List.length map]. eapply Hnone; eassumption.
  - destruct (attempt <=? MAX_CIPHERTEXT_VALIDATION_RETRIES).
    2: { encryptor_cbn. cbn [List.length map]. eapply Hnone; eassumption. }
    pose proof (encrypt_attempt_used e mediaType frameProcessor encryptedFrame attempt r Hr)
      as [Hused [Hnonce [[r1 Hr1] Hfresh]]].
    destruct (encrypt_attempt e mediaType frameProcessor encryptedFrame attempt)
      as [[[outcome e1] out] used1]. cbn [fst snd] in *.
    assert (Hone : map snd [used1] = counted_from (truncatedNonce_ e) 1).
    { unfold counted_from. cbn [seq map]. rewrite Hused. reflexivity. }
    destruct outcome as [n | |].
    + encryptor_cbn. cbn [List.length hd_error].
      split; [exact Hone | split; [exact Hnonce | split; [eauto |]]].
      intros Hf. right. rewrite (Hfresh Hf). reflexivity.
    + encryptor_cbn. cbn [List.length hd_error].
      split; [exact Hone | split; [exact Hnonce | split; [eauto |]]].
      intros Hf. right. rewrite (Hfresh Hf). reflexivity.
    + assert (Hn1 : is_u32 (truncatedNonce_ e1)) by (rewrite Hnonce; apply wrap32_range).
      specialize (IH (attempt + 1) e1 out r1 Hr1 Hn1).
      destruct (encrypt_loop fuel (attempt + 1) e1 mediaType frameProcessor out)
        as [[[[res n] e2] out'] rest]. cbn [fst snd] in *.
      destruct IH as [IHused [IHnonce [IHr _]]].
      cbn [map List.length hd_error].
      split; [| split; [| split; [exact IHr |]]].
      * rewrite counted_from_cons by exact Hn.
        rewrite Hused, IHused, Hnonce. reflexivity.
      * rewrite IHnonce, Hnonce. unfold wrap32.
        rewrite Z.add_mod_idemp_l by lia. f_equal. lia.
      * intros Hf. right. rewrite (Hfresh Hf). reflexivity.
Qed.

Lemma attempts_from_none e e' :
  is_u32 (truncatedNonce_ e) ->
  cryptor_ e' = cryptor_ e -> currentKeyGeneration_ e' = currentKeyGeneration_ e ->
  truncatedNonce_ e' = truncatedNonce_ e ->
  attempts_from e e' [].
Proof.
  intros Hn Hc Hg Ht. unfold attempts_from, fresh. cbn [List.length map].
  rewrite Hc, Hg, Ht, Z.add_0_r, wrap32_small by exact Hn.
  split; [reflexivity | split; [reflexivity | intros Hf; left; split; [reflexivity | exact Hf]]].
Qed.

Lemma Encrypt_used e mediaType ssrc frame encryptedFrame k :
  is_u32 (truncatedNonce_ e) ->
  attempts_from e (snd (fst (Encrypt e mediaType ssrc frame encryptedFrame k)))
    (attempts (fst (fst (Encrypt e mediaType ssrc frame encryptedFrame k)))).
Proof.
  intros Hn. unfold Encrypt, bind, ret, now.
  destruct (negb (mediaType =? Audio) && negb (mediaType =? Video)).
  { encryptor_cbn. apply attempts_from_none; [exact Hn | reflexivity ..]. }
  destruct (passthroughMode_ e).
  { encryptor_cbn. apply attempts_from_none; [exact Hn | reflexivity ..]. }
  destruct (keyRatchet_ e) as [r |] eqn:Hr.
  2: { encryptor_cbn. apply attempts_from_none; [exact Hn | reflexivity ..]. }
  pose proof (encrypt_loop_used (Z.to_nat MAX_CIPHERTEXT_VALIDATION_RETRIES) 1 e mediaType
                (ProcessFrame frame (CodecForSsrc e ssrc)) encryptedFrame r Hr Hn)
    as [Hused [Hnonce [_ Hfresh]]].
  destruct (encrypt_loop _ 1 e mediaType _ encryptedFrame) as [[[[res n] e1] out] used].
  cbn [fst snd] in *.
  assert (Hkeep : forall e2 : Encryptor,
            cryptor_ e2 = cryptor_ e1 -> currentKeyGeneration_ e2 = currentKeyGeneration_ e1 ->
            truncatedNonce_ e2 = truncatedNonce_ e1 -> attempts_from e e2 used).
  { intros e2 Hc Hg Ht. unfold attempts_from, fresh in *. rewrite Hc, Hg, Ht.
    split; [exact Hused | split; [exact Hnonce | exact Hfresh]]. }
  destruct (wrap_s64 _ <? _); destruct res; encryptor_cbn; apply Hkeep; reflexivity.
Qed.

Lemma run_calls_used calls e k :
  is_u32 (truncatedNonce_ e) ->
  attempts_from e (snd (fst (run_calls calls e k))) (fst (fst (run_calls calls e k))).
Proof.
  revert e k. induction calls as [| call calls IH]; intros e k Hn.
  - cbn [run_calls]. unfold ret. cbn [fst snd].
    apply attempts_from_none; [exact Hn | reflexivity ..].
  - destruct call as [mediaType ssrc frame encryptedFrame | passthroughMode | ssrc codecType];
      cbn [run_calls].
    + unfold bind, ret.
      pose proof (Encrypt_used e mediaType ssrc frame encryptedFrame k Hn) as [Hu1 [Hn1 Hf1]].
      destruct (Encrypt e mediaType ssrc frame encryptedFrame k) as [[r1 e1] k1].
      cbn [fst snd] in *.
      assert (Hr1 : is_u32 (truncatedNonce_ e1)) by (rewrite Hn1; apply wrap32_range).
      destruct (IH e1 k1 Hr1) as [Hu2 [Hn2 Hf2]].
      destruct (run_calls calls e1 k1) as [[used2 e2] k2]. cbn [fst snd] in *.
      unfold attempts_from.
      rewrite map_app, length_app, counted_from_app, Hu1, Hu2, Hn1.
      split; [reflexivity | split].
      * rewrite Hn2, Hn1. unfold wrap32.
        rewrite Z.add_mod_idemp_l by lia. f_equal. lia.
      * intros Hf. destruct (Hf1 Hf) as [[Hnil Hfresh1] | Hhd].
        -- rewrite Hnil. cbn [app]. apply Hf2. exact Hfresh1.
        -- right. destruct (attempts r1) as [| a l]; [discriminate | exact Hhd].
    + assert (Hsame : attempts_from e (SetPassthroughMode e passthroughMode) []).
      { apply attempts_from_none; [exact Hn | | |];
          unfold SetPassthroughMode; destruct (_ =? _); reflexivity. }
      destruct Hsame as [_ [Hn1 Hf1]]. cbn [List.length] in Hn1.
      rewrite Z.add_0_r, wrap32_small in Hn1 by exact Hn.
      assert (Hr1 : is_u32 (truncatedNonce_ (SetPassthroughMode e passthroughMode)))
        by (rewrite Hn1; exact Hn).
      destruct (IH (SetPassthroughMode e passthroughMode) k Hr1) as [Hu2 [Hn2 Hf2]].
      unfold attempts_from. rewrite <- Hn1.
      split; [exact Hu2 | split; [exact Hn2 |]].
      intros Hf. destruct (Hf1 Hf) as [[_ Hfresh1] | Hhd]; [| discriminate].
      apply Hf2. exact Hfresh1.
    + assert (Hr1 : is_u32 (truncatedNonce_ (AssignSsrcToCodec e ssrc codecType))) by exact Hn.
      destruct (IH (AssignSsrcToCodec e ssrc codecType) k Hr1) as [Hu2 [Hn2 Hf2]].
      unfold attempts_from.
      split; [exact Hu2 | split; [exact Hn2 |]].
      intros Hf. apply Hf2. exact Hf.
Qed.

(** C9. [SetKeyRatchet] puts the key generation and the truncated nonce
    back to 0 and drops the cached cipher.  In any sequence of calls that
    follows, every encryption attempt, retries included, gets the counter
    after its increment: as long as fewer than [2^32] attempts have been
    made the [i]-th attempt carries truncated nonce [i], so the nonces are
    strictly increasing and pairwise different, and the first attempt carries
    nonce 1 with generation 0. *)
Theorem SetKeyRatchet_nonce_sequence e keyRatchet calls k :
  let e0 := SetKeyRatchet e keyRatchet in
  let used := fst (fst (run_calls calls e0 k)) in
  (keyRatchet_ e0 = keyRatchet /\ cryptor_ e0 = None /\
   currentKeyGeneration_ e0 = 0 /\ truncatedNonce_ e0 = 0) /\
  (Z.of_nat (List.length used) < 2 ^ 32 ->
   map snd used = map Z.of_nat (seq 1 (List.length used)) /\
   StronglySorted Z.lt (map snd used) /\
   NoDup (map snd used)) /\
  (forall first rest, used = first :: rest -> first = (0, 1)).
Proof.
  intros e0 used.
  assert (Hn0 : is_u32 (truncatedNonce_ e0)) by (unfold is_u32; cbn; lia).
  assert (Hfresh0 : fresh e0) by (unfold fresh; cbn; auto).
  destruct (run_calls_used calls e0 k Hn0) as [Hused [_ Hhd]]. fold used in Hused, Hhd.
  split; [cbn; auto | split].
  - intros Hlen.
    assert (Heq : map snd used = map Z.of_nat (seq 1 (List.length used))).
    { rewrite Hused. apply counted_from_zero. exact Hlen. }
    split; [exact Heq |].
    assert (Hsorted : StronglySorted Z.lt (map snd used)) by (rewrite Heq; apply seq_sorted).
    split; [exact Hsorted | apply sorted_NoDup; exact Hsorted].
  - intros first rest Hcons.
    destruct (Hhd Hfresh0) as [[Hnil _] | Hfirst].
    + rewrite Hnil in Hcons. discriminate.
    + rewrite Hcons in Hfirst. cbn in Hfirst. congruence.
Qed.

End encryptor_properties.

(** *** The encryptor on the mock platform *)

Section encryptor_examples.
Import cryptor_manager encryptor encryptor_scenario.
#[local] Existing Instance mock.clock.
#[local] Existing Instance mock.crypto.
#[local] Existing Instance mock.outbound.

Example two_frames_attempts :
  fst (fst (run_calls two_frames (SetKeyRatchet used_encryptor (Some [])) 0%nat))
  = [(0, 1); (0, 2); (0, 3); (0, 4)].
Proof. vm_compute. reflexivity. Qed.

Lemma SetKeyRatchet_nonce_sequence_witness :
  Z.of_nat (List.length (fst (fst (run_calls two_frames
                                     (SetKeyRatchet used_encryptor (Some [])) 0%nat))))
    < 2 ^ 32 /\
  NoDup (map snd (fst (fst (run_calls two_frames
                              (SetKeyRatchet used_encryptor (Some [])) 0%nat)))).
Proof.
  assert (Hlen : Z.of_nat (List.length (fst (fst (run_calls two_frames
                    (SetKeyRatchet used_encryptor (Some [])) 0%nat)))) < 2 ^ 32)
    by (vm_compute; reflexivity).
  split; [exact Hlen |].
  apply (proj1 (proj2 (SetKeyRatchet_nonce_sequence used_encryptor (Some []) two_frames 0%nat))).
  exact Hlen.
Defined.

End encryptor_examples.

(** ** The voice session *)

Section voice_client_properties.
Import voice_client.

(** *** Strings and digits *)

Lemma string_append_assoc (a b c : string) :
  String.append (String.append a b) c = String.append a (String.append b c).
Proof. induction a as [| x a IH]; cbn; [| rewrite IH]; reflexivity. Qed.

Lemma string_append_nil_r (a : string) : String.append a EmptyString = a.
Proof. induction a as [| x a IH]; cbn; [| rewrite IH]; reflexivity. Qed.

Lemma to_string_from_step fuel n acc :
  to_string_from (S fuel) n acc =
  if n / 10 =? 0 then String (digit_char (n mod 10)) acc
  else to_string_from fuel (n / 10) (String (digit_char (n mod 10)) acc).
Proof. reflexivity. Qed.

(** Padding the decimal digits of a value below [10^5] to width 5 gives
    its five digits: by cases on the number of digits. *)
Lemma setw_to_string_five_digits v :
  0 <= v < 10 ^ 5 -> setw_setfill 5 "0"%char (to_string v) = five_digits v.
Proof.
  intros Hv. unfold to_string, five_digits.
  assert (H4 : v / 10000 = v / 10 / 10 / 10 / 10)
    by (rewrite !Z.div_div by lia; reflexivity).
  assert (H3 : v / 1000 = v / 10 / 10 / 10) by (rewrite !Z.div_div by lia; reflexivity).
  assert (H2 : v / 100 = v / 10 / 10) by (rewrite !Z.div_div by lia; reflexivity).
  rewrite H4, H3, H2.
  rewrite to_string_from_step.
  destruct (v / 10 =? 0) eqn:E1.
  { apply Z.eqb_eq in E1. rewrite E1. reflexivity. }
  rewrite to_string_from_step.
  destruct (v / 10 / 10 =? 0) eqn:E2.
  { apply Z.eqb_eq in E2. rewrite E2. reflexivity. }
  rewrite to_string_from_step.
  destruct (v / 10 / 10 / 10 =? 0) eqn:E3.
  { apply Z.eqb_eq in E3. rewrite E3. reflexivity. }
  rewrite to_string_from_step.
  destruct (v / 10 / 10 / 10 / 10 =? 0) eqn:E4.
  { apply Z.eqb_eq in E4. rewrite E4. reflexivity. }
  rewrite to_string_from_step.
  assert (E5 : (v / 10 / 10 / 10 / 10 / 10 =? 0) = true).
  { apply Z.eqb_eq. rewrite !Z.div_div by lia. apply Z.div_small. exact Hv. }
  rewrite E5. reflexivity.
Qed.

(** *** Reading the groups *)

Lemma byte_value_range (b : byte) : 0 <= Z.of_N (Byte.to_N b) < 256.
Proof. pose proof (Byte.to_N_bounded b). lia. Qed.

Lemma skipn_nth_error (l : list byte) n a :
  nth_error l n = Some a -> skipn n l = a :: skipn (S n) l.
Proof.
  revert l. induction n as [| n IH]; intros [| x l] Hn; cbn in Hn; try discriminate.
  - inversion Hn. reflexivity.
  - cbn [skipn]. rewrite (IH l Hn). reflexivity.
Qed.

(** The inner loop reads the [j] bytes that end the group at [i] and
    appends them, most significant first, to the value read so far. *)
Lemma group_value_from_fold j data i group_size acc :
  (j <= group_size)%nat -> (group_size <= 8)%nat ->
  (i + group_size <= List.length data)%nat ->
  0 <= acc < 2 ^ (64 - 8 * Z.of_nat j) ->
  group_value_from j data i group_size acc =
  Some (fold_left (fun a b => a * 256 + Z.of_N (Byte.to_N b))
          (firstn j (skipn (i + (group_size - j)) data)) acc).
Proof.
  revert acc. induction j as [| j IH]; intros acc Hj Hgs Hlen Hacc.
  - reflexivity.
  - cbn [group_value_from].
    destruct (nth_error data (i + (group_size - S j))) as [b |] eqn:Hb.
    2: { apply nth_error_None in Hb. lia. }
    rewrite (skipn_nth_error _ _ _ Hb). cbn [firstn fold_left].
    pose proof (byte_value_range b) as Hbyte.
    assert (Hpow : 2 ^ (64 - 8 * Z.of_nat j) = 2 ^ (64 - 8 * Z.of_nat (S j)) * 2 ^ 8).
    { rewrite <- Z.pow_add_r by lia. f_equal. lia. }
    assert (Hstep : Z.lor (wrap64 (Z.shiftl acc 8)) (Z.of_N (Byte.to_N b))
                    = acc * 256 + Z.of_N (Byte.to_N b)).
    { assert (Htop : 2 ^ (64 - 8 * Z.of_nat j) <= 2 ^ 64) by (apply Z.pow_le_mono_r; lia).
      rewrite wrap64_small by (rewrite Z.shiftl_mul_pow2 by lia; lia).
      apply (lor_shiftl_low acc _ 8); [lia | exact Hbyte]. }
    rewrite Hstep.
    replace (S (i + (group_size - S j))) with (i + (group_size - j))%nat by lia.
    apply IH; [lia | exact Hgs | exact Hlen | lia].
Qed.

Lemma group_value_from_5 data i :
  (i + 5 <= List.length data)%nat ->
  group_value_from 5 data i 5 0 = Some (big_endian (firstn 5 (skipn i data))).
Proof.
  intros Hlen.
  rewrite group_value_from_fold; [| lia | lia | exact Hlen | cbn; lia].
  rewrite Nat.sub_diag, Nat.add_0_r. reflexivity.
Qed.

(** The outer loop emits, for each group in turn, its code and a
    space. *)
Lemma code_from_groups n fuel data i result :
  (n <= fuel)%nat -> (i + 5 * n <= List.length data)%nat ->
  code_from fuel data (i + 5 * n) 5 i result =
  returns (String.append result
             (space_terminated (map group_code (groups_of_5 n (skipn i data))))).
Proof.
  revert fuel i result. induction n as [| n IH]; intros fuel i result Hfuel Hlen.
  - replace (i + 5 * 0)%nat with i by lia.
    destruct fuel; cbn [code_from]; rewrite Nat.ltb_irrefl; cbn;
      rewrite string_append_nil_r; reflexivity.
  - destruct fuel as [| fuel]; [lia |]. cbn [code_from].
    assert (Hlt : (i <? i + 5 * S n)%nat = true) by (apply Nat.ltb_lt; lia).
    rewrite Hlt, group_value_from_5 by lia.
    replace (i + 5 * S n)%nat with ((i + 5) + 5 * n)%nat by lia.
    rewrite IH by lia.
    cbn [groups_of_5 map space_terminated].
    rewrite skipn_skipn, (Nat.add_comm 5 i).
    change (10 ^ Z.of_nat 5) with (10 ^ 5).
    rewrite setw_to_string_five_digits by (apply Z.mod_pos_bound; lia).
    unfold group_code. rewrite !string_append_assoc. reflexivity.
Qed.

(** *** The privacy code *)

(** Data that ends inside a group makes [data.at] throw. *)
Lemma group_value_from_short j data i group_size acc :
  (0 < j <= group_size)%nat -> (List.length data < i + group_size)%nat ->
  group_value_from j data i group_size acc = None.
Proof.
  revert acc. induction j as [| j IH]; intros acc Hj Hlen; [lia |].
  cbn [group_value_from].
  destruct (nth_error data (i + (group_size - S j))) as [b |] eqn:Hb; [| reflexivity].
  destruct j as [| j].
  - assert (Hnone : nth_error data (i + (group_size - 1)) = None)
      by (apply nth_error_None; lia).
    congruence.
  - apply IH; lia.
Qed.

Lemma code_from_short n fuel data desired_length i result :
  (n < fuel)%nat -> (i + 5 * n <= List.length data)%nat ->
  (List.length data < i + 5 * n + 5)%nat -> (i + 5 * n < desired_length)%nat ->
  code_from fuel data desired_length 5 i result = throws_out_of_range.
Proof.
  revert fuel i result. induction n as [| n IH]; intros fuel i result Hfuel Hlo Hhi Hdes;
    (destruct fuel as [| fuel]; [lia |]); cbn [code_from];
    assert (Hlt : (i <? desired_length)%nat = true) by (apply Nat.ltb_lt; lia);
    rewrite Hlt.
  - rewrite group_value_from_short by lia. reflexivity.
  - rewrite group_value_from_5 by lia. apply IH; lia.
Qed.

Lemma space_terminated_nonempty (code : string) (rest : list string) :
  code <> EmptyString ->
  String.eqb (space_terminated (code :: rest)) EmptyString = false.
Proof.
  intros Hcode. destruct code as [| x code]; [congruence | reflexivity].
Qed.

(** C6 (amended). [generate_displayable_code] takes the data in
    consecutive groups of 5 bytes, reads each group as a big-endian
    unsigned integer modulo [10^5], and emits it as five zero-padded decimal
    digits followed by one space, the last group included.  The session
    privacy code is made of 6 groups, 30 digits, and none is made from an
    authenticator of less than 30 bytes.  [get_user_privacy_code], on an
    end-to-end encrypted session, yields 9 groups, 45 digits, when the
    pairwise fingerprint has exactly 64 bytes and the empty string for any
    other length. *)
Theorem privacy_code_groups :
  (forall data n,
     (5 * n <= List.length data)%nat ->
     generate_displayable_code data (5 * n) 5 =
     returns (space_terminated (map group_code (groups_of_5 n data)))) /\
  (forall c authenticator,
     (30 <= List.length authenticator)%nat ->
     exists c',
       update_privacy_code c authenticator = returns c' /\
       get_privacy_code c' =
       space_terminated (map group_code (groups_of_5 6 authenticator))) /\
  (forall c authenticator,
     (List.length authenticator < 30)%nat ->
     update_privacy_code c authenticator = throws_out_of_range) /\
  (forall c data,
     is_end_to_end_encrypted c = true ->
     (List.length data = 64%nat ->
      get_user_privacy_code c data =
      returns (space_terminated (map group_code (groups_of_5 9 data)))) /\
     (List.length data <> 64%nat -> get_user_privacy_code c data = returns EmptyString)).
Proof.
  assert (Hgroups : forall data n,
            (5 * n <= List.length data)%nat ->
            generate_displayable_code data (5 * n) 5 =
            returns (space_terminated (map group_code (groups_of_5 n data)))).
  { intros data n Hlen. unfold generate_displayable_code.
    change (5 * n)%nat with (0 + 5 * n)%nat at 2.
    rewrite code_from_groups by lia. reflexivity. }
  split; [exact Hgroups | split; [| split]].
  - intros c authenticator Hlen. unfold update_privacy_code.
    change 30%nat with (5 * 6)%nat.
    rewrite (Hgroups authenticator 6%nat Hlen).
    eexists. split; [reflexivity |].
    unfold get_privacy_code, is_end_to_end_encrypted.
    cbn [log set_privacy_code_field privacy_code].
    cbn [groups_of_5 map].
    rewrite space_terminated_nonempty; [reflexivity |].
    unfold group_code, five_digits. discriminate.
  - intros c authenticator Hlen. unfold update_privacy_code, generate_displayable_code.
    rewrite (code_from_short (List.length authenticator / 5)).
    + reflexivity.
    + assert (List.length authenticator / 5 < 6)%nat
        by (apply Nat.Div0.div_lt_upper_bound; lia).
      lia.
    + pose proof (Nat.Div0.mul_div_le (List.length authenticator) 5). lia.
    + pose proof (Nat.div_mod_eq (List.length authenticator) 5).
      pose proof (Nat.mod_upper_bound (List.length authenticator) 5). lia.
    + pose proof (Nat.Div0.mul_div_le (List.length authenticator) 5). lia.
  - intros c data He2ee. unfold get_user_privacy_code. rewrite He2ee. cbn [negb].
    split.
    + intros Hlen. rewrite Hlen, Nat.eqb_refl.
      apply (Hgroups data 9%nat). lia.
    + intros Hlen. apply Nat.eqb_neq in Hlen. rewrite Hlen. reflexivity.
Qed.

(** *** Error codes *)

(** Every code from 4003 upwards stops the audio and marks the session as
    terminating. *)
Lemma error_from_4003 c errorcode :
  4003 <= errorcode ->
  outbuf (error c errorcode) = [] /\
  track_meta (error c errorcode) = [] /\
  tracks (error c errorcode) = 0 /\
  terminating (error c errorcode) = true.
Proof.
  intros Hcode. unfold error.
  assert (Hfatal : (4003 <=? errorcode) = true) by (apply Z.leb_le; exact Hcode).
  rewrite Hfatal. repeat split; reflexivity.
Qed.

(** C7, at the code the claim excepts: [error] with 4014 clears the queued
    audio and marks the session as terminating, like every other code from
    4003 upwards. *)
Theorem error_4014_terminates c :
  outbuf (error c 4014) = [] /\
  track_meta (error c 4014) = [] /\
  tracks (error c 4014) = 0 /\
  terminating (error c 4014) = true.
Proof.
  unfold error.
  change (4003 <=? 4014) with true. cbv iota.
  repeat split; reflexivity.
Qed.

(** *** The sending loop *)

Section sending_loop.
Context `{system_interface}.

(** Whenever [time(nullptr)] is odd at the first two evaluations of the
    loop bound, the loop writes the first two queued messages. *)
Lemma send_queued_odd_second c k m1 m2 rest :
  Z.rem (time_reading k) 2 = 1 -> Z.rem (time_reading (S k)) 2 = 1 ->
  message_queue c = m1 :: m2 :: rest ->
  written (fst (send_queued 3 0 c k)) = written c ++ [m1; m2] /\
  message_queue (fst (send_queued 3 0 c k)) = rest.
Proof.
  intros Hodd0 Hodd1 Hqueue.
  cbn [send_queued]. unfold bind, ret, time_now.
  rewrite Hodd0, Hqueue. cbn [Z.add Z.ltb Z.compare Pos.add].
  cbn [write set_queue message_queue].
  rewrite Hodd1. cbn [Z.add Z.ltb Z.compare Pos.add Pos.compare Pos.compare_cont].
  cbn [write set_queue message_queue].
  destruct (_ <? Z.rem (time_reading (S (S k))) 2 + 1) eqn:Hthird.
  - apply Z.ltb_lt in Hthird.
    pose proof (Z.rem_bound_abs (time_reading (S (S k))) 2). lia.
  - cbn [fst written message_queue write set_queue].
    rewrite <- app_assoc. split; reflexivity.
Qed.

(** Whenever it is even at the first two evaluations, the loop writes
    one. *)
Lemma send_queued_even_second c k m1 rest :
  Z.rem (time_reading k) 2 = 0 -> Z.rem (time_reading (S k)) 2 = 0 ->
  message_queue c = m1 :: rest ->
  written (fst (send_queued 3 0 c k)) = written c ++ [m1] /\
  message_queue (fst (send_queued 3 0 c k)) = rest.
Proof.
  intros Heven0 Heven1 Hqueue.
  cbn [send_queued]. unfold bind, ret, time_now.
  rewrite Heven0, Hqueue. cbn [Z.add Z.ltb Z.compare Pos.add].
  cbn [write set_queue message_queue].
  rewrite Heven1. cbn [Z.add Z.ltb Z.compare Pos.add Pos.compare Pos.compare_cont].
  cbn [fst written message_queue write set_queue]. split; reflexivity.
Qed.

End sending_loop.

End voice_client_properties.

(** *** The voice session on the mock platform *)

Section voice_client_examples.
Import voice_client voice_scenario.

Example sample_privacy_code :
  generate_displayable_code sample_authenticator 30 5
  = returns "09060 60585 12110 63635 15160 66685 "%string.
Proof. vm_compute. reflexivity. Qed.

Lemma privacy_code_groups_witness :
  (5 * 6 <= List.length sample_authenticator)%nat /\
  generate_displayable_code sample_authenticator (5 * 6) 5 =
  returns (space_terminated (map group_code (groups_of_5 6 sample_authenticator))).
Proof.
  assert (Hlen : (5 * 6 <= List.length sample_authenticator)%nat) by (cbn; lia).
  split; [exact Hlen |].
  apply (proj1 privacy_code_groups sample_authenticator 6%nat Hlen).
Defined.

(** C6, as the specification states it, fails on every authenticator: the
    code ends with a space, which a sequence of groups separated by spaces
    does not. *)
Lemma privacy_code_not_space_separated :
  generate_displayable_code sample_authenticator 30 5
  <> returns (space_separated sample_authenticator 6).
Proof. vm_compute. discriminate. Qed.

(** C8, at an odd and at an even second: the tick of an odd second writes
    two queued messages, the tick of an even second one. *)
Theorem one_second_timer_sends :
  option_map written
    (fst (@one_second_timer mock.odd_second connected_client 0%nat))
    = Some ["a"; "b"]%string /\
  option_map written
    (fst (@one_second_timer mock.even_second connected_client 0%nat))
    = Some ["a"]%string.
Proof. vm_compute. split; reflexivity. Qed.

End voice_client_examples.

(** * Further properties *)

(** ** The cipher manager over its history *)

Section manager_history_properties.
Import cryptor_manager manager_history.
Context `{clock_interface} `{key_ratchet_interface}.

Ltac history_cbn :=
  cbn [fst snd keyRatchet_ cryptors_ ratchetCreation_ ratchetExpiry_ oldestGeneration_
       newestGeneration_ newestProcessedNonce_ missingNonces_ set_nonces update_expiry].

Lemma step_reachable m m' : reachable m -> step m m' -> reachable m'.
Proof.
  intros Hm Hstep. destruct Hstep.
  - apply reach_get_cipher; assumption.
  - apply reach_report; assumption.
  - apply reach_update_expiry; assumption.
Qed.

Lemma steps_reachable m m' : reachable m -> steps m m' -> reachable m'.
Proof.
  intros Hm Hsteps. induction Hsteps as [m | m1 m2 m3 Hstep _ IH]; [exact Hm |].
  apply IH. eapply step_reachable; eassumption.
Qed.

(** Recording a big nonce settles it. *)
Lemma record_nonce_settles m b :
  nonce_window m -> 0 <= b < 2 ^ 56 -> settled b (record_nonce m b).
Proof.
  intros Hw Hb. unfold settled.
  destruct (newestProcessedNonce_ m) as [prev |] eqn:Hprev.
  - destruct (Z.lt_ge_cases prev b) as [Hlt | Hge].
    + destruct (record_nonce_advance m prev b Hw Hprev Hlt) as [Hn Hm]; [lia |].
      exists b. rewrite Hn, Hm. split; [reflexivity | split; [lia |]].
      unfold nonce_window in Hw. rewrite Hprev in Hw. destruct Hw as [_ [_ Hall]].
      rewrite Forall_forall in Hall.
      intros Hin. apply in_app_or in Hin. destruct Hin as [Hin | Hin].
      * apply prune_front_incl in Hin. specialize (Hall b Hin). lia.
      * apply in_zrange in Hin. lia.
    + destruct (record_nonce_late m prev b Hprev Hge) as [Hn Hm].
      exists prev. rewrite Hn, Hm. split; [reflexivity | split; [lia |]].
      unfold nonce_window in Hw. rewrite Hprev in Hw. destruct Hw as [_ [Hsorted _]].
      rewrite erase_first_filter by exact Hsorted.
      intros Hin. apply filter_In in Hin. destruct Hin as [_ Hne].
      rewrite Z.eqb_refl in Hne. discriminate.
  - destruct (record_nonce_first m b Hprev) as [Hn Hm].
    exists b. rewrite Hn, Hm. split; [reflexivity | split; [lia |]].
    unfold nonce_window in Hw. rewrite Hprev in Hw. rewrite Hw. intros [].
Qed.

(** A settled big nonce stays settled when another one is recorded. *)
Lemma record_nonce_keeps_settled m b b' :
  nonce_window m -> 0 <= b' < 2 ^ 56 -> settled b m -> settled b (record_nonce m b').
Proof.
  intros Hw Hb' [newest [Hnewest [Hle Hnotin]]]. unfold settled.
  destruct (Z.lt_ge_cases newest b') as [Hlt | Hge].
  - destruct (record_nonce_advance m newest b' Hw Hnewest Hlt) as [Hn Hm]; [lia |].
    exists b'. rewrite Hn, Hm. split; [reflexivity | split; [lia |]].
    intros Hin. apply in_app_or in Hin. destruct Hin as [Hin | Hin].
    + apply prune_front_incl in Hin. contradiction.
    + apply in_zrange in Hin. lia.
  - destruct (record_nonce_late m newest b' Hnewest Hge) as [Hn Hm].
    exists newest. rewrite Hn, Hm. split; [reflexivity | split; [exact Hle |]].
    intros Hin. apply erase_first_incl in Hin. contradiction.
Qed.

Lemma step_keeps_settled m m' b :
  reachable m -> step m m' -> settled b m -> settled b m'.
Proof.
  intros Hreach Hstep Hsettled.
  pose proof (reachable_nonce_window m Hreach) as Hw.
  destruct Hstep as [m g k Hg | m g n k Hg Hn | m d].
  - destruct (get_cipher_frame m g k) as [Hn [Hmiss _]].
    destruct (cleanup_expired_ciphers_frame m k) as [Hn1 [Hmiss1 _]].
    unfold settled in *. rewrite Hn, Hmiss, Hn1, Hmiss1. exact Hsettled.
  - destruct (report_cipher_success_nonces m g n k) as [Hnew Hmiss].
    pose proof (record_nonce_keeps_settled m b (compute_wrapped_big_nonce g n) Hw
                  (big_nonce_range g n Hg) Hsettled) as Hkeep.
    unfold settled in *. rewrite Hnew, Hmiss. exact Hkeep.
  - exact Hsettled.
Qed.

Lemma steps_keep_settled m m' b :
  reachable m -> steps m m' -> settled b m -> settled b m'.
Proof.
  intros Hreach Hsteps. induction Hsteps as [m | m1 m2 m3 Hstep _ IH]; intros Hs.
  - exact Hs.
  - apply IH.
    + eapply step_reachable; eassumption.
    + eapply step_keeps_settled; eassumption.
Qed.

Lemma settled_refused m g n :
  is_u32 g -> settled (compute_wrapped_big_nonce g n) m -> can_process_nonce m g n = false.
Proof.
  intros Hg [newest [Hnewest [Hle Hnotin]]].
  unfold can_process_nonce. rewrite Hnewest.
  apply orb_false_iff. split; [apply Z.ltb_ge; exact Hle |].
  apply not_true_is_false. intros Hfind.
  unfold find_nonce in Hfind. apply existsb_exists in Hfind.
  destruct Hfind as [x [Hin Heq]]. apply Z.eqb_eq in Heq. subst x. contradiction.
Qed.

(** X1. Replay protection lasts: once [report_cipher_success] has been
    called for a generation and a truncated nonce, [can_process_nonce]
    refuses that pair straight away and after any number of further calls
    of [get_cipher], [report_cipher_success] and [update_expiry]. *)
Theorem reported_nonce_refused_for_good m generation nonce k m' :
  reachable m -> is_u32 generation -> is_u32 nonce ->
  steps (fst (report_cipher_success m generation nonce k)) m' ->
  can_process_nonce m' generation nonce = false.
Proof.
  intros Hreach Hg Hn Hsteps.
  apply settled_refused; [exact Hg |].
  assert (Hreach1 : reachable (fst (report_cipher_success m generation nonce k)))
    by (apply reach_report; assumption).
  assert (Hsettled1 : settled (compute_wrapped_big_nonce generation nonce)
                        (fst (report_cipher_success m generation nonce k))).
  { destruct (report_cipher_success_nonces m generation nonce k) as [Hnew Hmiss].
    pose proof (record_nonce_settles m (compute_wrapped_big_nonce generation nonce)
                  (reachable_nonce_window m Hreach) (big_nonce_range generation nonce Hg))
      as Hs.
    unfold settled in *. rewrite Hnew, Hmiss. exact Hs. }
  exact (steps_keep_settled _ _ _ Hreach1 Hsteps Hsettled1).
Qed.

(** X2. The big nonce orders the pairs of a generation and the low
    [RATCHET_GENERATION_SHIFT_BITS] bits of a truncated nonce
    lexicographically, and different pairs have different big nonces. *)
Theorem big_nonce_lexicographic g n g' n' :
  is_u32 g -> is_u32 g' ->
  (compute_wrapped_big_nonce g n < compute_wrapped_big_nonce g' n' <->
   g < g' \/ (g = g' /\ n mod 2 ^ RATCHET_GENERATION_SHIFT_BITS
                         < n' mod 2 ^ RATCHET_GENERATION_SHIFT_BITS)) /\
  (compute_wrapped_big_nonce g n = compute_wrapped_big_nonce g' n' <->
   g = g' /\ n mod 2 ^ RATCHET_GENERATION_SHIFT_BITS
             = n' mod 2 ^ RATCHET_GENERATION_SHIFT_BITS).
Proof.
  intros Hg Hg'. rewrite !big_nonce_sum by assumption.
  unfold RATCHET_GENERATION_SHIFT_BITS.
  pose proof (Z.mod_pos_bound n (2 ^ 24) ltac:(lia)) as Hr.
  pose proof (Z.mod_pos_bound n' (2 ^ 24) ltac:(lia)) as Hr'.
  unfold is_u32 in *. split; split; intros Hx; lia.
Qed.

Lemma generation_wrap_positive : 0 < GENERATION_WRAP.
Proof. reflexivity. Qed.

(** The result lies in the window of [GENERATION_WRAP] generations that
    starts at [oldest], and has the truncated generation as its residue. *)
Lemma wrapped_generation_window oldest generation :
  is_u32 oldest -> 0 <= generation < GENERATION_WRAP ->
  oldest + GENERATION_WRAP <= 2 ^ 32 ->
  oldest <= compute_wrapped_generation oldest generation < oldest + GENERATION_WRAP /\
  compute_wrapped_generation oldest generation mod GENERATION_WRAP = generation.
Proof.
  intros Ho Hg Hfit. unfold is_u32 in Ho.
  pose proof generation_wrap_positive as Hpos.
  pose proof (Z.div_mod oldest GENERATION_WRAP ltac:(lia)) as Hdiv.
  pose proof (Z.mod_pos_bound oldest GENERATION_WRAP Hpos) as Hrem.
  assert (Hq : 0 <= oldest / GENERATION_WRAP) by (apply Z.div_pos; lia).
  unfold compute_wrapped_generation.
  set (q := oldest / GENERATION_WRAP) in *.
  set (r := oldest mod GENERATION_WRAP) in *.
  set (carry := if generation <? r then 1 else 0).
  assert (Hcarry : (carry = 1 /\ generation < r) \/ (carry = 0 /\ r <= generation)).
  { subst carry. destruct (generation <? r) eqn:E;
      [apply Z.ltb_lt in E | apply Z.ltb_ge in E]; auto. }
  assert (Hproduct : (q + carry) * GENERATION_WRAP = GENERATION_WRAP * q + carry * GENERATION_WRAP)
    by ring.
  assert (Hw : wrap32 (wrap32 (wrap32 (q + carry) * GENERATION_WRAP) + generation)
               = (q + carry) * GENERATION_WRAP + generation).
  { unfold wrap32. rewrite Z.mul_mod_idemp_l, Z.add_mod_idemp_l by lia.
    apply Z.mod_small. rewrite Hproduct.
    destruct Hcarry as [[-> Hlt] | [-> Hge]]; lia. }
  rewrite Hw. split.
  - rewrite Hproduct. destruct Hcarry as [[-> Hlt] | [-> Hge]]; lia.
  - rewrite Z.add_comm, Z.mod_add by lia. apply Z.mod_small. exact Hg.
Qed.

(** Two values with the same residue in one window of [GENERATION_WRAP]
    consecutive values are the same. *)
Lemma same_window_same_value lo x y :
  lo <= x < lo + GENERATION_WRAP -> lo <= y < lo + GENERATION_WRAP ->
  x mod GENERATION_WRAP = y mod GENERATION_WRAP -> x = y.
Proof.
  intros Hx Hy Hmod.
  pose proof generation_wrap_positive as Hpos.
  pose proof (Z.div_mod x GENERATION_WRAP ltac:(lia)) as Hxdiv.
  pose proof (Z.div_mod y GENERATION_WRAP ltac:(lia)) as Hydiv.
  rewrite Hmod in Hxdiv.
  assert (Hdiff : x - y = GENERATION_WRAP * (x / GENERATION_WRAP - y / GENERATION_WRAP))
    by (rewrite Z.mul_sub_distr_l; lia).
  assert (Hsame : x / GENERATION_WRAP - y / GENERATION_WRAP = 0) by nia.
  rewrite Hsame, Z.mul_0_r in Hdiff. lia.
Qed.

(** X3. For a truncated generation below [GENERATION_WRAP], and as long
    as the result fits in 32 bits, [compute_wrapped_generation] is the one
    generation among the [GENERATION_WRAP] generations from [oldest] on
    whose residue modulo [GENERATION_WRAP] is the truncated generation. *)
Theorem wrapped_generation_least_above oldest generation :
  is_u32 oldest -> 0 <= generation < GENERATION_WRAP ->
  oldest + GENERATION_WRAP <= 2 ^ 32 ->
  let wrapped := compute_wrapped_generation oldest generation in
  oldest <= wrapped < oldest + GENERATION_WRAP /\
  wrapped mod GENERATION_WRAP = generation /\
  (forall x, oldest <= x < oldest + GENERATION_WRAP ->
     x mod GENERATION_WRAP = generation -> x = wrapped).
Proof.
  intros Ho Hg Hfit wrapped.
  destruct (wrapped_generation_window oldest generation Ho Hg Hfit) as [Hrange Hmod].
  fold wrapped in Hrange, Hmod.
  split; [exact Hrange | split; [exact Hmod |]].
  intros x Hx Hxmod.
  apply (same_window_same_value oldest); [exact Hx | exact Hrange |].
  rewrite Hxmod, Hmod. reflexivity.
Qed.

(** *** The generation counters *)

Lemma delete_old_keys_bounds fuel cs newest oldest r :
  is_u32 newest -> 0 <= oldest <= newest ->
  oldest <= fst (delete_old_keys fuel cs newest oldest r) <= newest.
Proof.
  intros Hn. revert oldest r. induction fuel as [| fuel IH]; intros oldest r Ho;
    cbn [delete_old_keys].
  - cbn [fst]. lia.
  - destruct (oldest <? newest) eqn:Hlt; cbn [andb]; [| cbn [fst]; lia].
    apply Z.ltb_lt in Hlt.
    destruct (find_cryptor cs oldest); [cbn [fst]; lia |].
    unfold is_u32 in Hn. rewrite wrap32_small by lia.
    specialize (IH (oldest + 1) (DeleteKey r oldest)). lia.
Qed.

Lemma cleanup_expired_ciphers_oldest_bounds m k :
  is_u32 (newestGeneration_ m) -> 0 <= oldestGeneration_ m <= newestGeneration_ m ->
  oldestGeneration_ m <= oldestGeneration_ (fst (cleanup_expired_ciphers m k))
                      <= newestGeneration_ m.
Proof.
  intros Hn Ho. unfold cleanup_expired_ciphers, bind, ret.
  destruct (erase_expired (cryptors_ m) k) as [cs k1].
  pose proof (delete_old_keys_bounds
                (Z.to_nat (newestGeneration_ m - oldestGeneration_ m)) cs
                (newestGeneration_ m) (oldestGeneration_ m) (keyRatchet_ m) Hn Ho) as Hb.
  destruct (delete_old_keys _ cs _ _ _) as [oldest r]. history_cbn. exact Hb.
Qed.

Lemma report_cipher_success_generations m g n k :
  let m' := fst (report_cipher_success m g n k) in
  oldestGeneration_ m' = oldestGeneration_ m /\
  (newestGeneration_ m' = newestGeneration_ m \/
   (newestGeneration_ m < g /\ newestGeneration_ m' = g)).
Proof.
  destruct (record_nonce_generations m (compute_wrapped_big_nonce g n)) as [Ho Hn].
  unfold report_cipher_success, bind, ret, now.
  destruct (g <=? newestGeneration_ (record_nonce m (compute_wrapped_big_nonce g n))) eqn:Hle;
    cbn [orb].
  - history_cbn. auto.
  - apply Z.leb_gt in Hle. rewrite Hn in Hle.
    destruct (find_cryptor _ g); history_cbn; auto.
Qed.

(** What a step does to the two counters, given that they were in order. *)
Lemma step_generations m m' :
  generations_in_range m -> oldestGeneration_ m <= newestGeneration_ m -> step m m' ->
  oldestGeneration_ m <= oldestGeneration_ m' /\
  newestGeneration_ m <= newestGeneration_ m' /\
  oldestGeneration_ m' <= newestGeneration_ m'.
Proof.
  intros [Ho Hn] Hle Hstep. unfold is_u32 in Ho.
  destruct Hstep as [m g k Hg | m g n k Hg Hnonce | m d].
  - destruct (get_cipher_frame m g k) as [_ [_ [Hnew [Hold _]]]].
    destruct (cleanup_expired_ciphers_frame m k) as [_ [_ [Hnew1 _]]].
    pose proof (cleanup_expired_ciphers_oldest_bounds m k Hn ltac:(lia)) as Hb.
    rewrite Hnew, Hold, Hnew1. lia.
  - destruct (report_cipher_success_generations m g n k) as [Hold [Hsame | [Hlt Hnew]]];
      rewrite Hold; [rewrite Hsame | rewrite Hnew]; lia.
  - cbn [update_expiry oldestGeneration_ newestGeneration_]. lia.
Qed.

Lemma reachable_generations_ordered m :
  reachable m -> oldestGeneration_ m <= newestGeneration_ m.
Proof.
  induction 1 as [r k | m g k Hm IH Hg | m g n k Hm IH Hg Hn | m d Hm IH].
  - unfold make_manager, bind, ret, now. history_cbn. lia.
  - apply (step_generations m _ (reachable_generations m Hm) IH).
    apply step_get_cipher. exact Hg.
  - apply (step_generations m _ (reachable_generations m Hm) IH).
    apply step_report; assumption.
  - exact IH.
Qed.

(** X4. The generation counters only move forward: no call of
    [get_cipher], [report_cipher_success] or [update_expiry] lowers the
    oldest or the newest generation, and the oldest generation never
    passes the newest. *)
Theorem generations_only_advance m m' :
  reachable m -> steps m m' ->
  oldestGeneration_ m <= oldestGeneration_ m' /\
  newestGeneration_ m <= newestGeneration_ m' /\
  oldestGeneration_ m' <= newestGeneration_ m'.
Proof.
  intros Hreach Hsteps.
  induction Hsteps as [m | m1 m2 m3 Hstep _ IH].
  - pose proof (reachable_generations_ordered m Hreach). lia.
  - pose proof (step_generations m1 m2 (reachable_generations m1 Hreach)
                  (reachable_generations_ordered m1 Hreach) Hstep) as H12.
    specialize (IH (step_reachable m1 m2 Hreach Hstep)). lia.
Qed.

(** *** The cached ciphers *)

Lemma find_cryptor_none cs g :
  find_cryptor cs g = None <-> ~ In g (map fst cs).
Proof.
  induction cs as [| [g' c] rest IH]; cbn [find_cryptor map fst In].
  - tauto.
  - destruct (g' =? g) eqn:E; [apply Z.eqb_eq in E | apply Z.eqb_neq in E].
    + split; [discriminate | intros Hnot; exfalso; apply Hnot; left; exact E].
    + rewrite IH. tauto.
Qed.

Lemma erase_expired_incl cs k entry :
  In entry (fst (erase_expired cs k)) -> In entry cs.
Proof.
  revert k. induction cs as [| [g c] rest IH]; intros k; cbn [erase_expired].
  - unfold ret. cbn [fst]. tauto.
  - unfold bind, ret, now.
    specialize (IH (S k)). destruct (erase_expired rest (S k)) as [rest' k'].
    cbn [fst] in *.
    destruct (expiry c <? clock_reading k); cbn [In]; tauto.
Qed.

Lemma erase_expired_nodup cs k :
  NoDup (map fst cs) -> NoDup (map fst (fst (erase_expired cs k))).
Proof.
  revert k. induction cs as [| [g c] rest IH]; intros k Hnodup; cbn [erase_expired].
  - unfold ret. cbn [fst map]. constructor.
  - unfold bind, ret, now. cbn [map fst] in Hnodup.
    inversion Hnodup as [| x l Hnotin Hrest]; subst.
    specialize (IH (S k) Hrest).
    pose proof (fun entry => erase_expired_incl rest (S k) entry) as Hincl.
    destruct (erase_expired rest (S k)) as [rest' k'].
    cbn [fst] in *.
    destruct (expiry c <? clock_reading k); [exact IH |].
    cbn [map fst]. constructor; [| exact IH].
    intros Hin. apply in_map_iff in Hin. destruct Hin as [entry [Hfst Hentry]].
    apply Hnotin. apply in_map_iff. exists entry. split; [exact Hfst | apply Hincl, Hentry].
Qed.

(** The ciphers that survive the first loop of the clean-up were not yet
    past their expiry at any reading the loop took, so they outlive every
    time all those readings are beyond. *)
Lemma erase_expired_outlive cs k bound entry :
  (forall j, (k <= j)%nat -> bound < clock_reading j) ->
  In entry (fst (erase_expired cs k)) -> bound < expiry (snd entry).
Proof.
  revert k. induction cs as [| [g c] rest IH]; intros k Hlate; cbn [erase_expired].
  - unfold ret. cbn [fst In]. tauto.
  - unfold bind, ret, now.
    specialize (IH (S k) (fun j Hj => Hlate j ltac:(lia))).
    destruct (erase_expired rest (S k)) as [rest' k'].
    cbn [fst] in *.
    destruct (expiry c <? clock_reading k) eqn:E; [exact IH |].
    apply Z.ltb_ge in E. cbn [In]. intros [Heq | Hin]; [| exact (IH Hin)].
    subst entry. cbn [snd]. specialize (Hlate k ltac:(lia)). lia.
Qed.

Lemma delete_old_keys_below fuel cs newest oldest r :
  0 <= oldest -> Forall (fun entry => oldest <= fst entry) cs ->
  Forall (fun entry => fst (delete_old_keys fuel cs newest oldest r) <= fst entry) cs.
Proof.
  revert oldest r. induction fuel as [| fuel IH]; intros oldest r Ho Hcs;
    cbn [delete_old_keys].
  - exact Hcs.
  - destruct (oldest <? newest); cbn [andb]; [| exact Hcs].
    destruct (find_cryptor cs oldest) eqn:Hfind; [exact Hcs |].
    apply find_cryptor_none in Hfind.
    pose proof (wrap32_le (oldest + 1) ltac:(lia)) as Hwrap.
    apply IH.
    + unfold wrap32. apply Z.mod_pos_bound. lia.
    + rewrite Forall_forall in *. intros entry Hin.
      specialize (Hcs entry Hin).
      assert (fst entry <> oldest)
        by (intros Heq; apply Hfind; rewrite <- Heq; apply in_map; exact Hin).
      lia.
Qed.

Lemma cleanup_expired_ciphers_parts m k :
  let m' := fst (cleanup_expired_ciphers m k) in
  let cs := fst (erase_expired (cryptors_ m) k) in
  cryptors_ m' = cs /\
  oldestGeneration_ m' =
    fst (delete_old_keys (Z.to_nat (newestGeneration_ m - oldestGeneration_ m)) cs
           (newestGeneration_ m) (oldestGeneration_ m) (keyRatchet_ m)).
Proof.
  unfold cleanup_expired_ciphers, bind, ret.
  destruct (erase_expired (cryptors_ m) k) as [cs k1]. cbn [fst].
  destruct (delete_old_keys _ cs _ _ _) as [oldest r]. history_cbn. auto.
Qed.

(** [get_cipher] keeps the ciphers the clean-up left, and adds at most one:
    for the generation asked, when it has none and is not below the oldest. *)
Lemma get_cipher_cryptors m g k :
  let m1 := fst (cleanup_expired_ciphers m k) in
  let m' := snd (fst (get_cipher m g k)) in
  cryptors_ m' = cryptors_ m1 \/
  (exists c, cryptors_ m' = cryptors_ m1 ++ [(g, c)] /\
             find_cryptor (cryptors_ m1) g = None /\ oldestGeneration_ m1 <= g).
Proof.
  unfold get_cipher, bind, ret, now.
  destruct (cleanup_expired_ciphers m k) as [m1 k1]. history_cbn.
  destruct (g <? oldestGeneration_ m1) eqn:Hold; [history_cbn; auto |].
  apply Z.ltb_ge in Hold.
  destruct (wrap32 (newestGeneration_ m1 + MAX_GENERATION_GAP) <? g); [history_cbn; auto |].
  destruct (Z.shiftr _ _ <? g); [history_cbn; auto |].
  destruct (find_cryptor (cryptors_ m1) g) eqn:Hfind; [history_cbn; auto |].
  destruct (make_expiring_cipher (keyRatchet_ m1) (newestGeneration_ m1) g (S k1))
    as [[c r] k2].
  history_cbn. right. exists c. auto.
Qed.

Lemma shorten_expiry_generation newest expiryTime entry :
  fst (shorten_expiry newest expiryTime entry) = fst entry.
Proof.
  destruct entry as [gen c]. unfold shorten_expiry.
  destruct (gen <? newest); reflexivity.
Qed.

Lemma record_nonce_cryptors m b : cryptors_ (record_nonce m b) = cryptors_ m.
Proof.
  unfold record_nonce.
  destruct (newestProcessedNonce_ m) as [p |]; [destruct (p <? b) |]; reflexivity.
Qed.

Lemma report_cipher_success_generations_of_cryptors m g n k :
  map fst (cryptors_ (fst (report_cipher_success m g n k))) = map fst (cryptors_ m).
Proof.
  unfold report_cipher_success, bind, ret, now.
  destruct (_ || _); history_cbn; rewrite record_nonce_cryptors; [reflexivity |].
  rewrite map_map. apply map_ext. intros entry. apply shorten_expiry_generation.
Qed.

Lemma nodup_snoc (l : list Z) (a : Z) : NoDup l -> ~ In a l -> NoDup (l ++ [a]).
Proof.
  induction l as [| x l IH]; intros Hnodup Hnotin; cbn [app].
  - constructor; [intros [] | constructor].
  - inversion Hnodup as [| y l' Hx Hl]; subst.
    constructor.
    + rewrite in_app_iff. cbn [In] in *. intros [Hin | [Heq | []]]; [tauto |].
      apply Hnotin. left. symmetry. exact Heq.
    + apply IH; [exact Hl |]. cbn [In] in Hnotin. tauto.
Qed.

Lemma step_ciphers_in_order m m' :
  generations_in_range m -> ciphers_in_order m -> step m m' -> ciphers_in_order m'.
Proof.
  intros [Ho Hn] [Hnodup Hbelow] Hstep. unfold is_u32 in Ho.
  destruct Hstep as [m g k Hg | m g n k Hg Hnonce | m d].
  - destruct (cleanup_expired_ciphers_parts m k) as [Hcs Hold].
    destruct (get_cipher_frame m g k) as [_ [_ [_ [Hold' _]]]].
    assert (Hclean : ciphers_in_order (fst (cleanup_expired_ciphers m k))).
    { split.
      - rewrite Hcs. apply erase_expired_nodup. exact Hnodup.
      - rewrite Hcs, Hold. apply delete_old_keys_below; [lia |].
        rewrite Forall_forall in *. intros entry Hin.
        apply Hbelow. eapply erase_expired_incl. exact Hin. }
    destruct Hclean as [Hnodup1 Hbelow1].
    destruct (get_cipher_cryptors m g k) as [Hsame | [c [Hadd [Hfind Hle]]]];
      unfold ciphers_in_order; rewrite Hold'.
    + rewrite Hsame. auto.
    + rewrite Hadd. split.
      * rewrite map_app. cbn [map fst].
        apply find_cryptor_none in Hfind.
        apply nodup_snoc; assumption.
      * apply Forall_app. split; [exact Hbelow1 |].
        constructor; [exact Hle | constructor].
  - destruct (report_cipher_success_generations m g n k) as [Hold _].
    pose proof (report_cipher_success_generations_of_cryptors m g n k) as Hkeys.
    split.
    + rewrite Hkeys. exact Hnodup.
    + rewrite Hold.
      apply Forall_forall. intros entry Hin.
      assert (Hkey : In (fst entry) (map fst (cryptors_ m)))
        by (rewrite <- Hkeys; apply in_map; exact Hin).
      apply in_map_iff in Hkey. destruct Hkey as [entry0 [Hfst Hin0]].
      rewrite Forall_forall in Hbelow. rewrite <- Hfst. apply Hbelow. exact Hin0.
  - split; assumption.
Qed.

Lemma reachable_ciphers_in_order m : reachable m -> ciphers_in_order m.
Proof.
  induction 1 as [r k | m g k Hm IH Hg | m g n k Hm IH Hg Hn | m d Hm IH].
  - unfold make_manager, bind, ret, now, ciphers_in_order. history_cbn.
    cbn [map]. split; constructor.
  - apply (step_ciphers_in_order m _ (reachable_generations m Hm) IH).
    apply step_get_cipher. exact Hg.
  - apply (step_ciphers_in_order m _ (reachable_generations m Hm) IH).
    apply step_report; assumption.
  - exact IH.
Qed.

(** X5. A manager never keeps a cipher for a generation it has given up:
    whatever calls led to it, it has no cipher below its oldest generation,
    and no generation has two ciphers. *)
Theorem no_cipher_below_oldest m generation :
  reachable m -> generation < oldestGeneration_ m ->
  find_cryptor (cryptors_ m) generation = None /\ NoDup (map fst (cryptors_ m)).
Proof.
  intros Hreach Hlt.
  destruct (reachable_ciphers_in_order m Hreach) as [Hnodup Hbelow].
  split; [| exact Hnodup].
  apply find_cryptor_none. intros Hin.
  apply in_map_iff in Hin. destruct Hin as [entry [Hfst Hentry]].
  rewrite Forall_forall in Hbelow. specialize (Hbelow entry Hentry).
  assert (Hle : oldestGeneration_ m <= generation) by (rewrite <- Hfst; exact Hbelow).
  lia.
Qed.

(** *** Retiring a generation *)

Lemma report_cipher_success_advance m generation nonce k :
  newestGeneration_ m < generation ->
  find_cryptor (cryptors_ m) generation <> None ->
  let m' := fst (report_cipher_success m generation nonce k) in
  cryptors_ m' =
    map (shorten_expiry generation (wrap_s64 (clock_reading k + CIPHER_EXPIRY))) (cryptors_ m) /\
  newestGeneration_ m' = generation /\
  oldestGeneration_ m' = oldestGeneration_ m.
Proof.
  intros Hnew Hfind.
  destruct (record_nonce_generations m (compute_wrapped_big_nonce generation nonce))
    as [Ho Hn].
  unfold report_cipher_success, bind, ret, now.
  rewrite Hn, record_nonce_cryptors.
  destruct (generation <=? newestGeneration_ m) eqn:Hle;
    [apply Z.leb_le in Hle; lia |].
  cbn [orb].
  destruct (find_cryptor (cryptors_ m) generation); [| congruence].
  history_cbn. rewrite ?record_nonce_cryptors, ?Ho. auto.
Qed.

Lemma shorten_expiry_older newest expiryTime entry :
  fst entry < newest -> expiry (snd (shorten_expiry newest expiryTime entry)) <= expiryTime.
Proof.
  destruct entry as [gen c]. cbn [fst]. intros Hlt. unfold shorten_expiry.
  destruct (gen <? newest) eqn:E; [| apply Z.ltb_ge in E; lia].
  cbn [snd expiry]. lia.
Qed.

(** X6. An old generation is retired ten seconds after a newer one has
    proved itself.  When a frame of a generation newer than the newest is
    reported as decrypted at time [t], the first [get_cipher] whose clock
    readings are all after [t + CIPHER_EXPIRY] leaves no cipher of any older
    generation, and the oldest generation has caught up with the newest. *)
Theorem older_generations_retire m generation nonce k asked k' :
  steady_clock -> reachable m -> is_u32 generation ->
  newestGeneration_ m < generation ->
  find_cryptor (cryptors_ m) generation <> None ->
  is_s64 (clock_reading k + CIPHER_EXPIRY) ->
  clock_reading k + CIPHER_EXPIRY < clock_reading k' ->
  let m1 := fst (report_cipher_success m generation nonce k) in
  let m2 := snd (fst (get_cipher m1 asked k')) in
  newestGeneration_ m2 = generation /\
  oldestGeneration_ m2 = generation /\
  (forall g, g < generation -> find_cryptor (cryptors_ m2) g = None).
Proof.
  intros Hclock Hreach Hg Hnew Hfind Hfits Hlate m1 m2.
  destruct (report_cipher_success_advance m generation nonce k Hnew Hfind)
    as [Hcs1 [Hnew1 Hold1]].
  fold m1 in Hcs1, Hnew1, Hold1.
  rewrite (wrap_s64_small _ Hfits) in Hcs1.
  destruct (reachable_generations m Hreach) as [Ho _].
  pose proof (reachable_generations_ordered m Hreach) as Hordered.
  destruct (reachable_ciphers_in_order m Hreach) as [_ Hbelow].
  destruct (cleanup_expired_ciphers_parts m1 k') as [Hcs Hold].
  destruct (cleanup_expired_ciphers_frame m1 k') as [_ [_ [Hnewc _]]].
  destruct (get_cipher_frame m1 asked k') as [_ [_ [Hnew2 [Hold2 _]]]].
  fold m2 in Hnew2, Hold2.
  set (mc := fst (cleanup_expired_ciphers m1 k')) in *.
  set (cs := fst (erase_expired (cryptors_ m1) k')) in *.
  (* every cipher that survives the clean-up is of the new generation or later *)
  assert (Hkept : forall entry, In entry cs -> generation <= fst entry).
  { intros entry Hin.
    assert (Halive : clock_reading k + CIPHER_EXPIRY < expiry (snd entry)).
    { apply (erase_expired_outlive (cryptors_ m1) k'); [| exact Hin].
      intros j Hj. specialize (Hclock k' j Hj). lia. }
    apply erase_expired_incl in Hin. rewrite Hcs1 in Hin.
    apply in_map_iff in Hin. destruct Hin as [entry0 [Hshort _]].
    destruct (Z.lt_ge_cases (fst entry0) generation) as [Hlt | Hge].
    - pose proof (shorten_expiry_older generation
                    (clock_reading k + CIPHER_EXPIRY) entry0 Hlt) as Hshorter.
      rewrite Hshort in Hshorter. lia.
    - rewrite <- Hshort, shorten_expiry_generation. exact Hge. }
  assert (Hnone : forall g, g < generation -> find_cryptor cs g = None).
  { intros g Hlt. apply find_cryptor_none. intros Hin.
    apply in_map_iff in Hin. destruct Hin as [entry [Hfst Hentry]].
    specialize (Hkept entry Hentry).
    assert (generation <= g) by (rewrite <- Hfst; exact Hkept). lia. }
  assert (Holdc : oldestGeneration_ mc = generation).
  { rewrite Hold, Hnew1, Hold1.
    unfold is_u32 in Ho, Hg.
    pose proof (delete_old_keys_bounds
                  (Z.to_nat (generation - oldestGeneration_ m)) cs generation
                  (oldestGeneration_ m) (keyRatchet_ m1) Hg ltac:(lia)) as Hb.
    pose proof (delete_old_keys_done cs generation (oldestGeneration_ m) (keyRatchet_ m1)
                  Ho Hg) as Hdone.
    cbv zeta in Hdone.
    destruct (Z.lt_ge_cases
                (fst (delete_old_keys (Z.to_nat (generation - oldestGeneration_ m)) cs
                        generation (oldestGeneration_ m) (keyRatchet_ m1)))
                generation) as [Hlt | Hge]; [| lia].
    exfalso. apply Hdone. split; [exact Hlt | apply Hnone; exact Hlt]. }
  split; [rewrite Hnew2, Hnewc; exact Hnew1 |].
  split; [rewrite Hold2; exact Holdc |].
  intros g Hlt.
  destruct (get_cipher_cryptors m1 asked k') as [Hsame | [c [Hadd [_ Hle]]]];
    fold mc in Hsame || fold mc in Hadd, Hle; fold m2 in Hsame || fold m2 in Hadd.
  - rewrite Hsame, Hcs. apply Hnone. exact Hlt.
  - rewrite Hadd, Hcs. apply find_cryptor_none. rewrite map_app, in_app_iff.
    cbn [map fst In]. intros [Hin | [Heq | []]].
    + apply (proj1 (find_cryptor_none cs g) (Hnone g Hlt)). exact Hin.
    + rewrite Holdc in Hle. lia.
Qed.

End manager_history_properties.

Section manager_history_examples.
Import cryptor_manager manager_history scenario.
#[local] Existing Instance mock.clock.
#[local] Existing Instance mock.crypto.

Lemma manager_busy_steps :
  steps (fst (report_cipher_success manager_after_5 0 100 2%nat)) manager_busy.
Proof.
  unfold manager_busy.
  refine (steps_more _ _ _ (step_report _ 0 200 3%nat _ _)
            (steps_more _ _ _ (step_get_cipher _ 0 4%nat _) (steps_none _)));
    unfold is_u32; lia.
Qed.

Lemma reported_nonce_refused_for_good_witness :
  reachable manager_after_5 /\ is_u32 0 /\ is_u32 100 /\
  steps (fst (report_cipher_success manager_after_5 0 100 2%nat)) manager_busy /\
  can_process_nonce manager_busy 0 100 = false.
Proof.
  assert (H0 : is_u32 0) by (unfold is_u32; lia).
  assert (H100 : is_u32 100) by (unfold is_u32; lia).
  split; [exact manager_after_5_reachable | split; [exact H0 | split; [exact H100 |]]].
  split; [exact manager_busy_steps |].
  exact (reported_nonce_refused_for_good manager_after_5 0 100 2%nat manager_busy
           manager_after_5_reachable H0 H100 manager_busy_steps).
Defined.

Lemma big_nonce_lexicographic_witness :
  is_u32 1 /\ is_u32 2 /\
  (compute_wrapped_big_nonce 1 16777215 < compute_wrapped_big_nonce 2 0 <->
   1 < 2 \/ (1 = 2 /\ 16777215 mod 2 ^ 24 < 0 mod 2 ^ 24)).
Proof.
  assert (H1 : is_u32 1) by (unfold is_u32; lia).
  assert (H2 : is_u32 2) by (unfold is_u32; lia).
  split; [exact H1 | split; [exact H2 |]].
  exact (proj1 (big_nonce_lexicographic 1 16777215 2 0 H1 H2)).
Defined.

Lemma wrapped_generation_least_above_witness :
  is_u32 16777000 /\ 0 <= 5 < GENERATION_WRAP /\ 16777000 + GENERATION_WRAP <= 2 ^ 32 /\
  compute_wrapped_generation 16777000 5 mod GENERATION_WRAP = 5.
Proof.
  assert (Ho : is_u32 16777000) by (unfold is_u32; lia).
  assert (Hg : 0 <= 5 < GENERATION_WRAP) by (unfold GENERATION_WRAP; lia).
  assert (Hfit : 16777000 + GENERATION_WRAP <= 2 ^ 32) by (unfold GENERATION_WRAP; lia).
  split; [exact Ho | split; [exact Hg | split; [exact Hfit |]]].
  exact (proj1 (proj2 (wrapped_generation_least_above 16777000 5 Ho Hg Hfit))).
Defined.

End manager_history_examples.

Section retirement_examples.
Import cryptor_manager manager_history history_scenario.
#[local] Existing Instance mock.daily_clock.
#[local] Existing Instance mock.crypto.

Lemma manager_two_generations_reachable : reachable manager_two_generations.
Proof.
  unfold manager_two_generations.
  apply reach_get_cipher; [| unfold is_u32; lia].
  apply reach_get_cipher; [| unfold is_u32; lia].
  apply reach_make.
Qed.

Lemma manager_retired_reachable : reachable manager_retired.
Proof.
  unfold manager_retired, manager_second_generation.
  apply reach_get_cipher; [| unfold is_u32; lia].
  apply reach_report; [| unfold is_u32; lia ..].
  exact manager_two_generations_reachable.
Qed.

Lemma found_cryptor (o : option expiring_cipher) :
  (match o with Some _ => true | None => false end) = true -> o <> None.
Proof. destruct o; [discriminate | intros Hfalse; discriminate Hfalse]. Qed.

Lemma daily_clock_steady : steady_clock.
Proof.
  intros i j Hij. cbn [clock_reading mock.daily_clock]. unfold ticks_per_second. lia.
Qed.

Lemma generations_only_advance_witness :
  reachable manager_two_generations /\
  steps manager_two_generations manager_retired /\
  oldestGeneration_ manager_two_generations <= oldestGeneration_ manager_retired /\
  newestGeneration_ manager_two_generations <= newestGeneration_ manager_retired /\
  oldestGeneration_ manager_retired <= newestGeneration_ manager_retired.
Proof.
  assert (Hsteps : steps manager_two_generations manager_retired).
  { unfold manager_retired, manager_second_generation.
    refine (steps_more _ _ _ (step_report _ 1 16777216 8%nat _ _)
              (steps_more _ _ _ (step_get_cipher _ 1 9%nat _) (steps_none _)));
      unfold is_u32; lia. }
  split; [exact manager_two_generations_reachable | split; [exact Hsteps |]].
  exact (generations_only_advance manager_two_generations manager_retired
           manager_two_generations_reachable Hsteps).
Defined.

Lemma no_cipher_below_oldest_witness :
  reachable manager_retired /\ 0 < oldestGeneration_ manager_retired /\
  find_cryptor (cryptors_ manager_retired) 0 = None /\
  NoDup (map fst (cryptors_ manager_retired)).
Proof.
  assert (Hold : 0 < oldestGeneration_ manager_retired) by (vm_compute; reflexivity).
  split; [exact manager_retired_reachable | split; [exact Hold |]].
  exact (no_cipher_below_oldest manager_retired 0 manager_retired_reachable Hold).
Defined.

Lemma older_generations_retire_witness :
  steady_clock /\ reachable manager_two_generations /\ is_u32 1 /\
  newestGeneration_ manager_two_generations < 1 /\
  find_cryptor (cryptors_ manager_two_generations) 0 <> None /\
  find_cryptor (cryptors_ manager_two_generations) 1 <> None /\
  is_s64 (clock_reading 8%nat + CIPHER_EXPIRY) /\
  clock_reading 8%nat + CIPHER_EXPIRY < clock_reading 9%nat /\
  newestGeneration_ manager_retired = 1 /\
  oldestGeneration_ manager_retired = 1 /\
  (forall g, g < 1 -> find_cryptor (cryptors_ manager_retired) g = None).
Proof.
  assert (H1 : is_u32 1) by (unfold is_u32; lia).
  assert (Hnew : newestGeneration_ manager_two_generations < 1) by (vm_compute; reflexivity).
  assert (Hzero : find_cryptor (cryptors_ manager_two_generations) 0 <> None)
    by (apply found_cryptor; vm_compute; reflexivity).
  assert (Hone : find_cryptor (cryptors_ manager_two_generations) 1 <> None)
    by (apply found_cryptor; vm_compute; reflexivity).
  assert (Hfits : is_s64 (clock_reading 8%nat + CIPHER_EXPIRY))
    by (split; [apply Z.leb_le | apply Z.ltb_lt]; vm_compute; reflexivity).
  assert (Hlate : clock_reading 8%nat + CIPHER_EXPIRY < clock_reading 9%nat)
    by (vm_compute; reflexivity).
  repeat (split; [assumption || exact daily_clock_steady
                  || exact manager_two_generations_reachable |]).
  exact (older_generations_retire manager_two_generations 1 16777216 8%nat 1 9%nat
           daily_clock_steady manager_two_generations_reachable H1 Hnew Hone Hfits Hlate).
Defined.

End retirement_examples.

(** ** More on the decryptor *)

Section decryptor_history_properties.
Import cryptor_manager manager_history decryptor decryptor_history.
Context `{clock_interface} `{key_ratchet_interface} `{frame_processor_interface}.

Ltac frames_cbn :=
  cbn [fst snd bytes_written frame_out parsed
       cryptorManagers_ allowPassThroughUntil_ lastStatsTime_ stats_audio stats_video
       frameProcessors_ set_stats set_managers set_passthrough_until set_last_stats_time
       set_pool GetOrCreateFrameProcessor ReturnFrameProcessor
       passthroughCount decryptSuccessCount decryptFailureCount decryptDuration
       decryptAttempts count_passthrough count_failure count_success count_attempt
       add_duration impl_success impl_manager impl_stats].

Lemma same_outcome_counts_refl s : same_outcome_counts s s.
Proof. unfold same_outcome_counts. auto. Qed.

Lemma same_outcome_counts_trans s1 s2 s3 :
  same_outcome_counts s1 s2 -> same_outcome_counts s2 s3 -> same_outcome_counts s1 s3.
Proof.
  unfold same_outcome_counts. intros [Ha [Hb [Hc Hd]]] [Ha' [Hb' [Hc' Hd']]].
  repeat split; congruence.
Qed.

Lemma DecryptImpl_counts m f s k :
  same_outcome_counts s (impl_stats (fst (DecryptImpl m f s k))).
Proof.
  unfold DecryptImpl, bind, ret.
  destruct (negb (can_process_nonce m _ _)); [apply same_outcome_counts_refl |].
  destruct (get_cipher m _ k) as [[c m1] k1].
  destruct c as [cipher |]; [| apply same_outcome_counts_refl].
  destruct (cipher_decrypt cipher _ _ _ _) as [plaintext |].
  - destruct (report_cipher_success m1 _ _ k1) as [m2 k2].
    unfold same_outcome_counts. frames_cbn. auto.
  - unfold same_outcome_counts. frames_cbn. auto.
Qed.

Lemma try_cryptor_managers_counts ms f s k :
  same_outcome_counts s (snd (fst (try_cryptor_managers ms f s k))) /\
  List.length (snd (fst (fst (fst (try_cryptor_managers ms f s k))))) = List.length ms.
Proof.
  revert f s k. induction ms as [| m rest IH]; intros f s k; cbn [try_cryptor_managers].
  - unfold ret. frames_cbn. split; [apply same_outcome_counts_refl | reflexivity].
  - unfold bind, ret.
    pose proof (DecryptImpl_counts m f s k) as Hone.
    destruct (DecryptImpl m f s k) as [[[[success m'] f'] s'] k1].
    unfold impl_stats in Hone. cbn [fst snd] in Hone.
    destruct success.
    + frames_cbn. split; [exact Hone | reflexivity].
    + specialize (IH f' s' k1).
      destruct (try_cryptor_managers rest f' s' k1) as [[[[success' rest'] f''] s''] k2].
      cbn [fst snd] in *. destruct IH as [Hrest Hlen].
      split; [eapply same_outcome_counts_trans; eassumption |].
      cbn [List.length]. rewrite Hlen. reflexivity.
Qed.

Lemma CleanupExpiredCryptorManagers_length ms k :
  (List.length (fst (CleanupExpiredCryptorManagers ms k)) <= List.length ms)%nat.
Proof.
  revert k. induction ms as [| front rest IH]; intros k; cbn [CleanupExpiredCryptorManagers].
  - unfold ret. cbn [fst List.length]. lia.
  - unfold is_expired. unfold bind, ret, now.
    destruct (ratchetExpiry_ front <? clock_reading k).
    + specialize (IH (S k)). cbn [List.length]. lia.
    + cbn [fst]. lia.
Qed.

Lemma stats_other d mediaType other s :
  (mediaType = media_audio \/ mediaType = media_video) ->
  (other = media_audio \/ other = media_video) -> other <> mediaType ->
  stats_ (set_stats d mediaType s) other = stats_ d other.
Proof.
  unfold stats_, set_stats, media_audio, media_video. frames_cbn.
  intros [-> | ->] [-> | ->] Hneq; try contradiction; reflexivity.
Qed.

Lemma stats_set_last_stats_time d t mediaType :
  stats_ (set_last_stats_time d t) mediaType = stats_ d mediaType.
Proof. reflexivity. Qed.

(** X7. What [decrypt] does with a frame that parses as encrypted, in
    passthrough mode or not: it never counts a passthrough; it counts
    either one success, or one failure, and then returns 0 with the output
    buffer untouched; it leaves the statistics of the other media type
    alone and never adds a cipher manager.  Without any cipher manager the
    call fails. *)
Theorem decrypt_encrypted_frame d mediaType encryptedFrame frame k :
  (mediaType = media_audio \/ mediaType = media_video) ->
  is_silence mediaType encryptedFrame = false ->
  IsEncrypted (ParseFrame encryptedFrame) = true ->
  let r := fst (fst (decrypt d mediaType encryptedFrame frame k)) in
  let d' := snd (fst (decrypt d mediaType encryptedFrame frame k)) in
  let s := stats_ d mediaType in
  let s' := stats_ d' mediaType in
  passthroughCount s' = passthroughCount s /\
  ((decryptSuccessCount s' = wrap64 (decryptSuccessCount s + 1) /\
    decryptFailureCount s' = decryptFailureCount s) \/
   (decryptFailureCount s' = wrap64 (decryptFailureCount s + 1) /\
    decryptSuccessCount s' = decryptSuccessCount s /\
    bytes_written r = 0 /\ frame_out r = frame)) /\
  (cryptorManagers_ d = [] ->
   decryptFailureCount s' = wrap64 (decryptFailureCount s + 1) /\ bytes_written r = 0) /\
  (forall other, (other = media_audio \/ other = media_video) -> other <> mediaType ->
     stats_ d' other = stats_ d other) /\
  (List.length (cryptorManagers_ d') <= List.length (cryptorManagers_ d))%nat.
Proof.
  intros Hmt Hsil Henc r d' s s'. subst r d' s s'.
  pose proof Hmt as Hvalid. apply media_type_valid_dec in Hvalid.
  unfold decrypt, bind, ret, now. rewrite Hvalid, Hsil.
  pose proof (CleanupExpiredCryptorManagers_length
                (cryptorManagers_ (GetOrCreateFrameProcessor d)) (S k)) as Hclean.
  assert (Hempty : cryptorManagers_ d = [] ->
            fst (CleanupExpiredCryptorManagers
                   (cryptorManagers_ (GetOrCreateFrameProcessor d)) (S k)) = []).
  { intros Hnone. frames_cbn. rewrite Hnone. reflexivity. }
  destruct (CleanupExpiredCryptorManagers _ (S k)) as [ms k1].
  cbn [fst cryptorManagers_ set_pool GetOrCreateFrameProcessor] in Hclean, Hempty.
  rewrite Henc. cbn [negb andb]. frames_cbn.
  pose proof (try_cryptor_managers_counts (rev ms) (ParseFrame encryptedFrame)
                (stats_ (set_managers (GetOrCreateFrameProcessor d) ms) mediaType) k1)
    as [Hcounts Hlen].
  assert (Hnone : ms = [] ->
            fst (fst (fst (fst (try_cryptor_managers (rev ms) (ParseFrame encryptedFrame)
                 (stats_ (set_managers (GetOrCreateFrameProcessor d) ms) mediaType) k1))))
            = false).
  { intros ->. reflexivity. }
  destruct (try_cryptor_managers _ _ _ k1) as [[[[success ms'] f'] s'] k2].
  cbn [fst snd] in Hcounts, Hlen, Hnone.
  rewrite stats_set_managers, stats_GetOrCreateFrameProcessor in Hcounts.
  destruct Hcounts as [Hpass [Hsucc [Hfail _]]].
  rewrite length_rev in Hlen.
  destruct success.
  - destruct (ReconstructFrame f' frame) as [n out]. frames_cbn.
    match goal with
    | |- context [if ?c then _ else _] => destruct c
    end;
      rewrite ?stats_ReturnFrameProcessor, ?stats_set_stats, ?stats_set_last_stats_time,
        ?stats_set_stats; frames_cbn.
    all: split; [exact Hpass |].
    all: split; [left; split; [rewrite Hsucc; reflexivity | exact Hfail] |].
    all: split; [intros Hd; specialize (Hnone (Hempty Hd)); discriminate |].
    all: split; [| rewrite length_rev; lia].
    all: intros other Hother Hneq.
    all: repeat (rewrite ?stats_ReturnFrameProcessor, ?stats_set_last_stats_time;
                 rewrite stats_other by assumption).
    all: reflexivity.
  - frames_cbn.
    match goal with
    | |- context [if ?c then _ else _] => destruct c
    end;
      rewrite ?stats_ReturnFrameProcessor, ?stats_set_stats, ?stats_set_last_stats_time,
        ?stats_set_stats; frames_cbn.
    all: split; [exact Hpass |].
    all: split; [right; split; [rewrite Hfail; reflexivity | auto] |].
    all: split; [intros _; split; [rewrite Hfail; reflexivity | reflexivity] |].
    all: split; [| rewrite length_rev; lia].
    all: intros other Hother Hneq.
    all: repeat (rewrite ?stats_ReturnFrameProcessor, ?stats_set_last_stats_time;
                 rewrite stats_other by assumption).
    all: reflexivity.
Qed.

(** *** Replayed frames *)

Lemma get_cipher_some_oldest m g k :
  fst (fst (get_cipher m g k)) <> None ->
  oldestGeneration_ (snd (fst (get_cipher m g k))) <= g.
Proof.
  unfold get_cipher, bind, ret, now.
  destruct (cleanup_expired_ciphers m k) as [m1 k1].
  destruct (g <? oldestGeneration_ m1) eqn:Hold; [cbn [fst]; congruence |].
  apply Z.ltb_ge in Hold. intros _.
  destruct (wrap32 (newestGeneration_ m1 + MAX_GENERATION_GAP) <? g); [exact Hold |].
  destruct (Z.shiftr _ _ <? g); [exact Hold |].
  destruct (find_cryptor (cryptors_ m1) g); [exact Hold |].
  destruct (make_expiring_cipher (keyRatchet_ m1) (newestGeneration_ m1) g (S k1))
    as [[c r] k2].
  exact Hold.
Qed.

Lemma steps_oldest m m' :
  reachable m -> steps m m' -> oldestGeneration_ m <= oldestGeneration_ m'.
Proof.
  intros Hreach Hsteps. induction Hsteps as [m | m1 m2 m3 Hstep _ IH]; [lia |].
  pose proof (step_generations m1 m2 (reachable_generations m1 Hreach)
                (reachable_generations_ordered m1 Hreach) Hstep) as [H12 _].
  specialize (IH (step_reachable m1 m2 Hreach Hstep)). lia.
Qed.

Lemma report_cipher_success_settles m g n k :
  reachable m -> is_u32 g ->
  settled (compute_wrapped_big_nonce g n) (fst (report_cipher_success m g n k)).
Proof.
  intros Hreach Hg.
  destruct (report_cipher_success_nonces m g n k) as [Hnew Hmiss].
  pose proof (record_nonce_settles m (compute_wrapped_big_nonce g n)
                (reachable_nonce_window m Hreach) (big_nonce_range g n Hg)) as Hs.
  unfold settled in *. rewrite Hnew, Hmiss. exact Hs.
Qed.

(** A successful [DecryptImpl] is a cipher obtained for the generation of
    the frame, followed by the report of its nonce. *)
Lemma DecryptImpl_success_inv m f s k :
  impl_success (fst (DecryptImpl m f s k)) = true ->
  let n := GetTruncatedNonce f in
  let g := compute_wrapped_generation_of m (Z.shiftr n RATCHET_GENERATION_SHIFT_BITS) in
  fst (fst (get_cipher m g k)) <> None /\
  impl_manager (fst (DecryptImpl m f s k)) =
    fst (report_cipher_success (snd (fst (get_cipher m g k))) g n (snd (get_cipher m g k))).
Proof.
  intros Hok n g. revert Hok. unfold DecryptImpl, bind, ret. fold n. fold g.
  destruct (negb (can_process_nonce m g n)); [frames_cbn; discriminate |].
  destruct (get_cipher m g k) as [[c m1] k1].
  destruct c as [cipher |]; [| frames_cbn; discriminate].
  destruct (cipher_decrypt cipher _ _ _ _) as [plaintext |]; [| frames_cbn; discriminate].
  frames_cbn.
  destruct (report_cipher_success m1 g n k1) as [m2 k2]. frames_cbn.
  intros _. split; [discriminate | reflexivity].
Qed.

(** X8. A frame that [DecryptImpl] has decrypted is refused when it comes
    again.  Whatever the manager does in between, as long as it has not
    retired the generation of the frame (and generations stay clear of the
    32-bit limit), [DecryptImpl] on a frame with the same truncated nonce
    returns [false] without asking for a cipher: the manager and the
    statistics are untouched and the clock is not read. *)
Theorem DecryptImpl_refuses_replay m f s k m3 f' s' k' :
  reachable m -> is_u32 (GetTruncatedNonce f) ->
  impl_success (fst (DecryptImpl m f s k)) = true ->
  steps (impl_manager (fst (DecryptImpl m f s k))) m3 ->
  oldestGeneration_ m3 <=
    compute_wrapped_generation_of m
      (Z.shiftr (GetTruncatedNonce f) RATCHET_GENERATION_SHIFT_BITS) ->
  oldestGeneration_ m3 + GENERATION_WRAP <= 2 ^ 32 ->
  GetTruncatedNonce f' = GetTruncatedNonce f ->
  DecryptImpl m3 f' s' k' = (false, m3, f', s', k').
Proof.
  intros Hreach Hn Hok Hsteps Hkept Hfit Hsame.
  destruct (DecryptImpl_success_inv m f s k Hok) as [Hcipher Hm2].
  rewrite Hm2 in Hsteps. clear Hm2 Hok.
  set (n := GetTruncatedNonce f) in *.
  set (x := Z.shiftr n RATCHET_GENERATION_SHIFT_BITS) in *.
  set (g := compute_wrapped_generation_of m x) in *.
  assert (Hx : 0 <= x < GENERATION_WRAP).
  { subst x. unfold RATCHET_GENERATION_SHIFT_BITS, GENERATION_WRAP.
    rewrite Z.shiftr_div_pow2 by lia.
    unfold is_u32 in Hn. split; [apply Z.div_pos; lia |].
    apply Z.div_lt_upper_bound; lia. }
  assert (Hg : is_u32 g) by (apply wrap32_range).
  set (m1 := snd (fst (get_cipher m g k))) in *.
  assert (Hreach1 : reachable m1) by (apply reach_get_cipher; assumption).
  assert (Hreach2 : reachable (fst (report_cipher_success m1 g n (snd (get_cipher m g k)))))
    by (apply reach_report; assumption).
  pose proof (get_cipher_some_oldest m g k Hcipher) as Hold1. fold m1 in Hold1.
  pose proof (step_generations m m1 (reachable_generations m Hreach)
                (reachable_generations_ordered m Hreach)
                (step_get_cipher m g k Hg)) as [Hold01 _].
  destruct (report_cipher_success_generations m1 g n (snd (get_cipher m g k))) as [Hold2 _].
  pose proof (steps_oldest _ m3 Hreach2 Hsteps) as Hold23.
  rewrite Hold2 in Hold23.
  destruct (reachable_generations m Hreach) as [Ho _].
  destruct (reachable_generations m3 (steps_reachable _ m3 Hreach2 Hsteps)) as [Ho3 _].
  (* the frame has the same generation for the later manager *)
  destruct (wrapped_generation_window (oldestGeneration_ m) x Ho Hx ltac:(lia))
    as [Hwin Hmod].
  destruct (wrapped_generation_window (oldestGeneration_ m3) x Ho3 Hx Hfit)
    as [Hwin3 Hmod3].
  assert (Hg3 : compute_wrapped_generation (oldestGeneration_ m3) x = g).
  { apply (same_window_same_value (oldestGeneration_ m3)); [exact Hwin3 | |].
    - unfold g, compute_wrapped_generation_of in *. lia.
    - rewrite Hmod3. symmetry. exact Hmod. }
  assert (Hrefused : can_process_nonce m3 g n = false).
  { apply settled_refused; [exact Hg |].
    apply (steps_keep_settled _ m3 _ Hreach2 Hsteps).
    apply report_cipher_success_settles; assumption. }
  unfold DecryptImpl, compute_wrapped_generation_of. rewrite Hsame. fold n. fold x.
  rewrite Hg3, Hrefused. reflexivity.
Qed.

End decryptor_history_properties.

Section decryptor_history_examples.
Import cryptor_manager manager_history decryptor decryptor_history scenario.
#[local] Existing Instance mock.clock.
#[local] Existing Instance mock.crypto.
#[local] Existing Instance mock.frame_processor.

Lemma decrypt_encrypted_frame_witness :
  (media_audio = media_audio \/ media_audio = media_video) /\
  is_silence media_audio marked_frame = false /\
  IsEncrypted (ParseFrame marked_frame) = true /\
  passthroughCount
    (stats_ (snd (fst (decrypt keyed_decryptor media_audio marked_frame output_buffer 2%nat)))
       media_audio)
  = passthroughCount (stats_ keyed_decryptor media_audio).
Proof.
  assert (Hmt : media_audio = media_audio \/ media_audio = media_video) by (left; reflexivity).
  assert (Hsil : is_silence media_audio marked_frame = false) by reflexivity.
  assert (Henc : IsEncrypted (ParseFrame marked_frame) = true) by reflexivity.
  split; [exact Hmt | split; [exact Hsil | split; [exact Henc |]]].
  exact (proj1 (decrypt_encrypted_frame keyed_decryptor media_audio marked_frame
                  output_buffer 2%nat Hmt Hsil Henc)).
Defined.

Lemma DecryptImpl_refuses_replay_witness :
  reachable new_manager /\ is_u32 (GetTruncatedNonce sealed_frame) /\
  impl_success (fst (DecryptImpl new_manager sealed_frame no_decryption_stats 1%nat)) = true /\
  DecryptImpl
    (impl_manager (fst (DecryptImpl new_manager sealed_frame no_decryption_stats 1%nat)))
    sealed_frame no_decryption_stats 5%nat
  = (false,
     impl_manager (fst (DecryptImpl new_manager sealed_frame no_decryption_stats 1%nat)),
     sealed_frame, no_decryption_stats, 5%nat).
Proof.
  assert (Hreach : reachable new_manager) by apply reach_make.
  assert (Hn : is_u32 (GetTruncatedNonce sealed_frame))
    by (cbn [GetTruncatedNonce sealed_frame]; unfold is_u32; lia).
  assert (Hok : impl_success
                  (fst (DecryptImpl new_manager sealed_frame no_decryption_stats 1%nat)) = true)
    by (vm_compute; reflexivity).
  split; [exact Hreach | split; [exact Hn | split; [exact Hok |]]].
  apply (DecryptImpl_refuses_replay new_manager sealed_frame no_decryption_stats 1%nat
           _ sealed_frame no_decryption_stats 5%nat Hreach Hn Hok (steps_none _)).
  - apply Z.leb_le. vm_compute. reflexivity.
  - apply Z.leb_le. vm_compute. reflexivity.
  - reflexivity.
Defined.

End decryptor_history_examples.

(** ** More on the encryptor *)

Section encryptor_further_properties.
Import cryptor_manager encryptor encryptor_layout.
Context `{clock_interface} `{key_ratchet_interface} `{outbound_interface}.

Ltac sender_cbn :=
  cbn [fst snd keyRatchet_ cryptor_ currentKeyGeneration_ truncatedNonce_ passthroughMode_
       currentProtocolVersion_ protocolVersionChangedCallback_ protocolVersionChanges
       ssrcCodecPairs_ stats_audio stats_video lastStatsTime_ frameProcessors_
       set_stats set_key_state set_protocol set_codecs set_pool_and_time
       result bytesWritten encryptedFrame_out attempts].

(** *** The retry loop *)




(** *** The codec of a sender *)

Lemma codec_for_assign_codec pairs ssrc codecType other :
  codec_for (assign_codec pairs ssrc codecType) other =
  if other =? ssrc then codecType else codec_for pairs other.
Proof.
  induction pairs as [| [s c] rest IH]; cbn [assign_codec codec_for].
  - rewrite (Z.eqb_sym ssrc other). reflexivity.
  - destruct (s =? ssrc) eqn:Hs; cbn [codec_for].
    + apply Z.eqb_eq in Hs. subst s.
      rewrite (Z.eqb_sym ssrc other). destruct (other =? ssrc); reflexivity.
    + destruct (s =? other) eqn:Ho.
      * apply Z.eqb_eq in Ho. subst s. rewrite Hs. reflexivity.
      * exact IH.
Qed.

Lemma assign_codec_keys pairs ssrc codecType :
  map fst (assign_codec pairs ssrc codecType) =
  if existsb (Z.eqb ssrc) (map fst pairs) then map fst pairs else map fst pairs ++ [ssrc].
Proof.
  induction pairs as [| [s c] rest IH]; cbn [assign_codec map fst existsb app].
  - reflexivity.
  - rewrite (Z.eqb_sym ssrc s).
    destruct (s =? ssrc) eqn:Hs; cbn [orb map fst].
    + reflexivity.
    + rewrite IH. destruct (existsb (Z.eqb ssrc) (map fst rest)); reflexivity.
Qed.

(** X10. The table of codecs behaves as a map from SSRC to codec.  After
    [AssignSsrcToCodec(ssrc, codec)], [CodecForSsrc] answers [codec] for
    that SSRC and what it answered before for every other; an SSRC that has
    never been assigned has [Codec::Unknown]; and the table never holds
    two entries for one SSRC. *)
Theorem AssignSsrcToCodec_lookup e ssrc codecType other :
  CodecForSsrc (AssignSsrcToCodec e ssrc codecType) other =
    (if other =? ssrc then codecType else CodecForSsrc e other) /\
  (~ In other (map fst (ssrcCodecPairs_ e)) -> CodecForSsrc e other = Codec_Unknown) /\
  (NoDup (map fst (ssrcCodecPairs_ e)) ->
   NoDup (map fst (ssrcCodecPairs_ (AssignSsrcToCodec e ssrc codecType)))).
Proof.
  unfold CodecForSsrc, AssignSsrcToCodec. sender_cbn.
  split; [apply codec_for_assign_codec | split].
  - induction (ssrcCodecPairs_ e) as [| [s c] rest IH]; cbn [codec_for map fst In].
    + reflexivity.
    + intros Hnotin. destruct (s =? other) eqn:Hs.
      * apply Z.eqb_eq in Hs. tauto.
      * apply IH. tauto.
  - intros Hnodup. rewrite assign_codec_keys.
    destruct (existsb (Z.eqb ssrc) (map fst (ssrcCodecPairs_ e))) eqn:Hfound;
      [exact Hnodup |].
    apply nodup_snoc; [exact Hnodup |].
    intros Hin. assert (Htrue : existsb (Z.eqb ssrc) (map fst (ssrcCodecPairs_ e)) = true).
    { apply existsb_exists. exists ssrc. split; [exact Hin | apply Z.eqb_refl]. }
    congruence.
Qed.

(** *** The bytes of an encrypted frame *)

Lemma overwritten_extend buf prefix out bytes offset :
  overwritten buf prefix out -> offset = List.length prefix ->
  overwritten buf (prefix ++ bytes) (write_at out offset bytes).
Proof.
  unfold overwritten, write_at. intros -> ->.
  rewrite firstn_app, Nat.sub_diag, firstn_all. cbn [firstn]. rewrite app_nil_r.
  rewrite skipn_app, skipn_all2 by lia. cbn [app].
  replace (List.length prefix + List.length bytes - List.length prefix)%nat
    with (List.length bytes) by lia.
  rewrite skipn_skipn, length_app, <- app_assoc.
  replace (List.length bytes + List.length prefix)%nat
    with (List.length prefix + List.length bytes)%nat by lia.
  reflexivity.
Qed.

(** The first two writes: the tag behind the frame, then the frame. *)
Lemma overwritten_frame_and_tag buf reconstructed tag :
  (List.length reconstructed <= List.length buf)%nat ->
  overwritten buf (reconstructed ++ tag)
    (write_at (write_at buf (List.length reconstructed) tag) 0 reconstructed).
Proof.
  intros Hfits. unfold overwritten, write_at. cbn [firstn app Nat.add].
  rewrite <- app_assoc. f_equal.
  rewrite skipn_app, firstn_length_le by exact Hfits.
  rewrite skipn_all2 by (rewrite firstn_length_le by exact Hfits; lia).
  rewrite Nat.sub_diag. cbn [skipn app].
  rewrite length_app. reflexivity.
Qed.

(** X11. The wire format of an encrypted frame.  When an attempt of the
    retry loop of [Encrypt] ends with a frame the codec accepts, and the
    cipher has produced a tag of 8 bytes, the frame processor has
    reconstructed a frame of the size it was given, and the output buffer
    holds the bytes written, then the bytes written are, in this order: the
    reconstructed frame, the tag, the truncated nonce, the unencrypted
    ranges, one byte with the size of the supplemental section, and the
    marker [0xFA 0xFA]; the number returned is their count, and the rest of
    the output buffer is as it was. *)
Theorem encrypt_attempt_layout e mediaType frameProcessor buf attempt c ciphertext tag n :
  let truncatedNonce := snd (fst (GetNextCryptorAndNonce e)) in
  fst (fst (GetNextCryptorAndNonce e)) = Some c ->
  cipher_encrypt c (GetEncryptedBytes frameProcessor) (expand_nonce truncatedNonce)
    (GetUnencryptedBytes frameProcessor) = Some (ciphertext, tag) ->
  List.length tag = kAesGcm128TruncatedTagBytes ->
  List.length (ReconstructOutboundFrame (SetCiphertextBytes frameProcessor ciphertext)) =
    (List.length (GetEncryptedBytes frameProcessor) +
     List.length (GetUnencryptedBytes frameProcessor))%nat ->
  fst (fst (fst (encrypt_attempt e mediaType frameProcessor buf attempt))) = Validated n ->
  n <= Z.of_nat (List.length buf) ->
  let out := snd (fst (encrypt_attempt e mediaType frameProcessor buf attempt)) in
  let wire := encrypted_frame_layout frameProcessor ciphertext tag truncatedNonce in
  n = Z.of_nat (List.length wire) /\
  firstn (Z.to_nat n) out = wire /\
  skipn (Z.to_nat n) out = skipn (Z.to_nat n) buf /\
  List.length out = List.length buf.
Proof.
  intros truncatedNonce Hcipher Hencrypt Htag Hframe Hvalidated Hfits out wire.
  subst out. revert Hvalidated. unfold encrypt_attempt.
  subst truncatedNonce wire. revert Hcipher Hencrypt.
  destruct (GetNextCryptorAndNonce e) as [[cryptor truncatedNonce] e1]. cbn [fst snd].
  intros -> Hencrypt. rewrite Hencrypt.
  rewrite <- Hframe.
  set (reconstructed := ReconstructOutboundFrame (SetCiphertextBytes frameProcessor ciphertext)).
  destruct (negb (_ =? _)%nat) eqn:Hnonce; [cbn [fst]; discriminate |].
  apply negb_false_iff, Nat.eqb_eq in Hnonce.
  destruct (negb (List.length (SerializeUnencryptedRanges frameProcessor) =? _)%nat) eqn:Hranges;
    [cbn [fst]; discriminate |].
  apply negb_false_iff, Nat.eqb_eq in Hranges.
  destruct (validate_encrypted_frame _ _);
    [| destruct (MAX_CIPHERTEXT_VALIDATION_RETRIES <=? attempt); cbn [fst]; discriminate].
  cbn [fst snd]. intros Hn. injection Hn as Hn.
  assert (Hcount : List.length (encrypted_frame_layout frameProcessor ciphertext tag truncatedNonce)
                   = (List.length reconstructed + kAesGcm128TruncatedTagBytes
                      + Leb128Size truncatedNonce + UnencryptedRangesSize frameProcessor
                      + 1 + 2)%nat).
  { unfold encrypted_frame_layout. fold reconstructed.
    rewrite !length_app, Htag, Hnonce, Hranges. cbn [List.length kMarkerBytes]. lia. }
  assert (Hwritten : overwritten buf
            (encrypted_frame_layout frameProcessor ciphertext tag truncatedNonce)
            (write_at
               (write_at
                  (write_at
                     (write_at
                        (write_at (write_at buf (List.length reconstructed) tag) 0 reconstructed)
                        (List.length reconstructed + kAesGcm128TruncatedTagBytes)
                        (WriteLeb128 truncatedNonce))
                     (List.length reconstructed + kAesGcm128TruncatedTagBytes
                      + Leb128Size truncatedNonce)
                     (SerializeUnencryptedRanges frameProcessor))
                  (List.length reconstructed + kAesGcm128TruncatedTagBytes
                   + Leb128Size truncatedNonce + UnencryptedRangesSize frameProcessor)
                  [decryptor.byte_of_Z
                     ((kSupplementalBytes + Z.of_nat (Leb128Size truncatedNonce)
                       + Z.of_nat (UnencryptedRangesSize frameProcessor)) mod 256)])
               (List.length reconstructed + kAesGcm128TruncatedTagBytes
                + Leb128Size truncatedNonce + UnencryptedRangesSize frameProcessor + 1)
               kMarkerBytes)).
  { unfold encrypted_frame_layout. fold reconstructed.
    rewrite !app_assoc.
    repeat (apply overwritten_extend;
            [| rewrite !length_app, ?Htag, ?Hnonce, ?Hranges; cbn [List.length]; lia]).
    apply overwritten_frame_and_tag. lia. }
  set (wire := encrypted_frame_layout frameProcessor ciphertext tag truncatedNonce) in *.
  unfold overwritten in Hwritten. rewrite Hwritten.
  assert (Hto : Z.to_nat n = List.length wire) by lia.
  rewrite Hto.
  split; [lia |].
  split; [rewrite firstn_app, Nat.sub_diag, firstn_all; cbn [firstn]; apply app_nil_r |].
  split.
  - rewrite skipn_app, skipn_all, Nat.sub_diag. reflexivity.
  - rewrite length_app, length_skipn. lia.
Qed.

End encryptor_further_properties.

Section encryptor_layout_examples.
Import cryptor_manager encryptor encryptor_layout layout_scenario.
#[local] Existing Instance mock.clock.
#[local] Existing Instance mock.crypto8.
#[local] Existing Instance mock.outbound.

Lemma encrypt_attempt_layout_witness :
  fst (fst (GetNextCryptorAndNonce ready_encryptor)) = Some 3 /\
  cipher_encrypt 3 (GetEncryptedBytes (ProcessFrame four_bytes tt))
    (expand_nonce (snd (fst (GetNextCryptorAndNonce ready_encryptor))))
    (GetUnencryptedBytes (ProcessFrame four_bytes tt)) = Some (four_bytes, repeat x03 8) /\
  fst (fst (fst (encrypt_attempt ready_encryptor Audio (ProcessFrame four_bytes tt)
                   (repeat x00 32) 1))) = Validated 16 /\
  firstn 16 (snd (fst (encrypt_attempt ready_encryptor Audio (ProcessFrame four_bytes tt)
                         (repeat x00 32) 1)))
  = [x01; x02; x03; x04; x03; x03; x03; x03; x03; x03; x03; x03; x36; x0c; xfa; xfa].
Proof.
  assert (Hcipher : fst (fst (GetNextCryptorAndNonce ready_encryptor)) = Some 3)
    by (vm_compute; reflexivity).
  assert (Hencrypt :
            cipher_encrypt 3 (GetEncryptedBytes (ProcessFrame four_bytes tt))
              (expand_nonce (snd (fst (GetNextCryptorAndNonce ready_encryptor))))
              (GetUnencryptedBytes (ProcessFrame four_bytes tt))
            = Some (four_bytes, repeat x03 8))
    by (vm_compute; reflexivity).
  assert (Hvalidated :
            fst (fst (fst (encrypt_attempt ready_encryptor Audio (ProcessFrame four_bytes tt)
                             (repeat x00 32) 1))) = Validated 16)
    by (vm_compute; reflexivity).
  split; [exact Hcipher | split; [exact Hencrypt | split; [exact Hvalidated |]]].
  exact (proj1 (proj2 (encrypt_attempt_layout ready_encryptor Audio
                         (ProcessFrame four_bytes tt) (repeat x00 32) 1 3 four_bytes
                         (repeat x03 8) 16 Hcipher Hencrypt eq_refl eq_refl Hvalidated
                         ltac:(cbn [List.length repeat]; lia)))).
Defined.

End encryptor_layout_examples.

(** ** More on the voice client *)

Section timer_properties.
Import voice_client.
Context `{system_interface}.

(** The sending loop writes queued messages from the front of the queue,
    in order, and no more of them than the loop bound allows: the bound is
    at most 2 whatever the time is. *)
Lemma send_queued_prefix fuel x c k :
  0 <= x ->
  exists j : nat,
    Z.of_nat j <= Z.max 0 (2 - x) /\
    written (fst (send_queued fuel x c k)) = written c ++ firstn j (message_queue c) /\
    message_queue (fst (send_queued fuel x c k)) = skipn j (message_queue c) /\
    heartbeat_interval (fst (send_queued fuel x c k)) = heartbeat_interval c /\
    last_heartbeat (fst (send_queued fuel x c k)) = last_heartbeat c.
Proof.
  revert x c k. induction fuel as [| fuel IH]; intros x c k Hx; cbn [send_queued].
  - exists 0%nat. unfold ret. cbn [fst firstn skipn]. rewrite app_nil_r.
    repeat split; try reflexivity. lia.
  - unfold bind, time_now, ret.
    destruct (x <? Z.rem (time_reading k) 2 + 1) eqn:Hbound.
    + apply Z.ltb_lt in Hbound.
      assert (Hrem : Z.rem (time_reading k) 2 <= 1).
      { pose proof (Z.rem_bound_abs (time_reading k) 2 ltac:(lia)). lia. }
      destruct (message_queue c) as [| message rest] eqn:Hqueue.
      * destruct (IH (x + 1) c (S k) ltac:(lia)) as [j [Hj [Hw [Hq [Hi Hl]]]]].
        rewrite Hqueue in Hw, Hq.
        exists 0%nat. cbn [firstn skipn]. rewrite Hw, Hq, Hi, Hl.
        destruct j; cbn [firstn skipn]; repeat split; try reflexivity; lia.
      * destruct (IH (x + 1) (write (set_queue c rest) message) (S k) ltac:(lia))
          as [j [Hj [Hw [Hq [Hi Hl]]]]].
        cbn [written message_queue heartbeat_interval last_heartbeat write set_queue]
          in Hw, Hq, Hi, Hl.
        exists (S j). cbn [firstn skipn]. rewrite Hw, Hq, Hi, Hl, <- app_assoc.
        repeat split; try reflexivity. lia.
    + exists 0%nat. cbn [fst firstn skipn]. rewrite app_nil_r.
      repeat split; try reflexivity. lia.
Qed.

(** X12. A tick of [one_second_timer] that does not throw writes at most
    two queued messages, taken from the front of the queue in their order;
    the messages behind them stay queued in their order, with at most a
    heartbeat put in front; nothing is written that was not queued.  When
    the connection is not in state [CONNECTED], nothing changes. *)
Theorem one_second_timer_keeps_order c k c' :
  fst (one_second_timer c k) = Some c' ->
  (exists j : nat,
     (j <= 2)%nat /\
     written c' = written c ++ firstn j (message_queue c) /\
     (message_queue c' = skipn j (message_queue c) \/
      exists heartbeat, message_queue c' = heartbeat :: skipn j (message_queue c))) /\
  (state c <> CONNECTED -> c' = c).
Proof.
  unfold one_second_timer. destruct (terminating c); [unfold ret; cbn [fst]; discriminate |].
  destruct (state c) eqn:Hstate.
  - unfold ret. cbn [fst]. intros Hsome. injection Hsome as <-.
    split; [| reflexivity].
    exists 0%nat. cbn [firstn skipn]. rewrite app_nil_r. auto.
  - unfold bind.
    destruct (send_queued_prefix 3 0 c k ltac:(lia)) as [j [Hj [Hw [Hq _]]]].
    destruct (send_queued 3 0 c k) as [c1 k1]. cbn [fst] in Hw, Hq.
    assert (Hsplit : forall c2 : discord_voice_client,
              written c2 = written c1 ->
              message_queue c2 = message_queue c1 \/
              (exists heartbeat, message_queue c2 = heartbeat :: message_queue c1) ->
              (exists j0 : nat,
                 (j0 <= 2)%nat /\
                 written c2 = written c ++ firstn j0 (message_queue c) /\
                 (message_queue c2 = skipn j0 (message_queue c) \/
                  exists heartbeat, message_queue c2 = heartbeat :: skipn j0 (message_queue c)))
              /\ (CONNECTED <> CONNECTED -> c2 = c)).
    { intros c2 Hw2 Hq2. split; [| congruence].
      exists j. split; [lia |]. rewrite Hw2, Hw. split; [reflexivity |].
      rewrite <- Hq. exact Hq2. }
    destruct (negb (heartbeat_interval c1 =? 0)).
    + unfold time_now, rand, ret.
      destruct (heartbeat_due (time_reading k1) (last_heartbeat c1) (heartbeat_interval c1)).
      * cbn [fst]. intros Hsome. injection Hsome as <-.
        apply Hsplit; [reflexivity |]. right. eexists. reflexivity.
      * cbn [fst]. intros Hsome. injection Hsome as <-. apply Hsplit; auto.
    + unfold ret. cbn [fst]. intros Hsome. injection Hsome as <-. apply Hsplit; auto.
Qed.

End timer_properties.

(** ** The order of received payloads, and the gain average *)

Section voice_receive_properties.
Import voice_receive.

Ltac order_cases :=
  repeat match goal with
         | |- context [?a <? ?b] => destruct (Z.ltb_spec a b)
         | |- context [?a <=? ?b] => destruct (Z.leb_spec a b)
         | |- context [?a =? ?b] => destruct (Z.eqb_spec a b)
         | H : context [?a <? ?b] |- _ => destruct (Z.ltb_spec a b)
         | H : context [?a <=? ?b] |- _ => destruct (Z.leb_spec a b)
         | H : context [?a =? ?b] |- _ => destruct (Z.eqb_spec a b)
         end.

Lemma payload_lt_asymmetric a b : payload_lt a b = true -> payload_lt b a = false.
Proof.
  unfold payload_lt, wrap_around_test_boundary.
  destruct (Z.eqb_spec (timestamp a) (timestamp b)) as [Hts | Hts];
    [rewrite Hts, Z.eqb_refl | rewrite (proj2 (Z.eqb_neq _ _) (not_eq_sym Hts))];
    cbn [negb]; order_cases; cbn [andb orb]; order_cases;
    try reflexivity; try discriminate; try lia.
Qed.

Lemma wrap16_shift_injective x y :
  is_u16 x -> is_u16 y -> wrap16 (x + 5000) = wrap16 (y + 5000) -> x = y.
Proof.
  unfold is_u16, wrap16. intros Hx Hy Heq.
  pose proof (Z.div_mod (x + 5000) (2 ^ 16) ltac:(lia)) as Hdx.
  pose proof (Z.div_mod (y + 5000) (2 ^ 16) ltac:(lia)) as Hdy.
  pose proof (Z.mod_pos_bound (x + 5000) (2 ^ 16) ltac:(lia)) as Hbx.
  pose proof (Z.mod_pos_bound (y + 5000) (2 ^ 16) ltac:(lia)) as Hby.
  rewrite Heq in Hdx, Hbx.
  (* a multiple of 2^16 strictly between -2^16 and 2^16 is 0 *)
  assert (Hq : (x + 5000) / 2 ^ 16 = (y + 5000) / 2 ^ 16).
  { assert (Hdiff : x - y = 2 ^ 16 * ((x + 5000) / 2 ^ 16 - (y + 5000) / 2 ^ 16)) by lia.
    lia. }
  lia.
Qed.

(** X13. [voice_payload::operator<] compares timestamps first: the
    payload with the greater timestamp is the lesser one, so that a
    priority queue serves the earliest first.  It is irreflexive and
    asymmetric, and any two payloads that differ in timestamp or in
    sequence number are ordered one way or the other.  It is not
    transitive: on equal timestamps the sequence numbers 4999, 5000 and
    65535 form a cycle. *)
Theorem payload_lt_order :
  (forall a b, timestamp a < timestamp b -> payload_lt b a = true /\ payload_lt a b = false) /\
  (forall a, payload_lt a a = false) /\
  (forall a b, payload_lt a b = true -> payload_lt b a = false) /\
  (forall a b, is_u16 (seq a) -> is_u16 (seq b) ->
     timestamp a <> timestamp b \/ seq a <> seq b ->
     payload_lt a b = true \/ payload_lt b a = true) /\
  (exists a b c,
     is_u16 (seq a) /\ is_u16 (seq b) /\ is_u16 (seq c) /\
     timestamp a = timestamp b /\ timestamp b = timestamp c /\
     payload_lt a b = true /\ payload_lt b c = true /\ payload_lt c a = true).
Proof.
  split; [| split; [| split; [| split]]].
  - intros a b Hlt. unfold payload_lt.
    rewrite (proj2 (Z.eqb_neq (timestamp b) (timestamp a)) ltac:(lia)).
    rewrite (proj2 (Z.eqb_neq (timestamp a) (timestamp b)) ltac:(lia)).
    cbn [negb]. split; [apply Z.ltb_lt; exact Hlt | apply Z.ltb_ge; lia].
  - intros a. unfold payload_lt. rewrite Z.eqb_refl. cbn [negb].
    destruct (_ || _); apply Z.ltb_irrefl.
  - exact payload_lt_asymmetric.
  - intros a b Ha Hb Hdiff. unfold payload_lt, wrap_around_test_boundary.
    destruct (Z.eqb_spec (timestamp a) (timestamp b)) as [Hts | Hts].
    + rewrite Hts, Z.eqb_refl. cbn [negb].
      assert (Hseq : seq a <> seq b) by (destruct Hdiff; congruence).
      assert (Hwrap : wrap16 (seq a + 5000) <> wrap16 (seq b + 5000))
        by (intros Heq; apply Hseq; apply wrap16_shift_injective; assumption).
      order_cases; cbn [andb orb]; order_cases; try (left; reflexivity);
        try (right; reflexivity); lia.
    + rewrite (proj2 (Z.eqb_neq _ _) (not_eq_sym Hts)). cbn [negb].
      order_cases; try (left; reflexivity); try (right; reflexivity); lia.
  - exists {| seq := 65535; timestamp := 0 |}, {| seq := 5000; timestamp := 0 |},
      {| seq := 4999; timestamp := 0 |}.
    unfold is_u16. cbn [seq timestamp]. repeat split; try lia; reflexivity.
Qed.

(** The values pushed so far, newest first. *)
Lemma averager_add_all_snoc m pushed value :
  fold_left averager_add (pushed ++ [value]) m
  = averager_add (fold_left averager_add pushed m) value.
Proof. rewrite fold_left_app. reflexivity. Qed.

Lemma averager_add_step m value :
  averager_add m value =
  {| values := if collectionCount m <=? Z.of_nat (List.length (value :: values m))
               then removelast (value :: values m) else value :: values m;
     collectionCount := collectionCount m |}.
Proof. reflexivity. Qed.

(** X14. A [moving_averager] built with collection count [n] and fed
    values one by one holds the newest [n - 1] of them, newest first (all
    of them while there are fewer): one less than its collection count, and
    with a count of 0 or 1 it holds nothing at all. *)
Theorem moving_averager_window count pushed :
  0 <= count ->
  let m := fold_left averager_add pushed (make_moving_averager count) in
  values m = firstn (Z.to_nat count - 1) (rev pushed) /\
  collectionCount m = count /\
  (count <= 1 -> values m = []).
Proof.
  intros Hcount m.
  assert (Hwindow : values m = firstn (Z.to_nat count - 1) (rev pushed) /\
                    collectionCount m = count).
  { subst m. induction pushed as [| value pushed IH] using rev_ind.
    - cbn [fold_left make_moving_averager values collectionCount rev].
      rewrite firstn_nil. auto.
    - rewrite averager_add_all_snoc, rev_app_distr. cbn [rev app].
      destruct IH as [IHvalues IHcount].
      rewrite averager_add_step. cbn [values collectionCount].
      rewrite IHvalues, IHcount. split; [| reflexivity].
      set (recent := rev pushed) in *.
      cbn [List.length]. rewrite length_firstn.
      destruct (Z.to_nat count) as [| n] eqn:Hn.
      + cbn [Nat.sub firstn Nat.min List.length].
        destruct (count <=? Z.of_nat 1) eqn:Hpop; [reflexivity |].
        apply Z.leb_gt in Hpop. lia.
      + replace (S n - 1)%nat with n by lia.
        destruct (count <=? Z.of_nat (S (Nat.min n (List.length recent)))) eqn:Hfull.
        * apply Z.leb_le in Hfull.
          assert (Hlong : (n <= List.length recent)%nat) by lia.
          destruct n as [| n].
          -- reflexivity.
          -- rewrite firstn_cons.
             change (value :: firstn (S n) recent) with ([value] ++ firstn (S n) recent).
             rewrite removelast_app.
             ++ cbn [app]. rewrite removelast_firstn by lia. reflexivity.
             ++ destruct recent; [cbn [List.length] in Hlong; lia | cbn [firstn]; discriminate].
        * apply Z.leb_gt in Hfull.
          assert (Hshort : (List.length recent < n)%nat) by lia.
          rewrite firstn_all2 by lia.
          destruct n as [| n]; [lia |].
          rewrite firstn_cons, firstn_all2 by lia. reflexivity. }
  destruct Hwindow as [Hvalues Hc].
  split; [exact Hvalues | split; [exact Hc |]].
  intros Hsmall. rewrite Hvalues.
  replace (Z.to_nat count - 1)%nat with 0%nat by lia. reflexivity.
Qed.

End voice_receive_properties.

(** ** The queue of outgoing audio *)

Section audio_queue_properties.
Import voice_client voice_audio.

Ltac audio_cbn :=
  cbn [outbuf track_meta tracks set_audio send stop_audio client_after handed_to_udp
       marker_event fst snd andb].

Lemma count_markers_nonneg q : 0 <= count_markers q.
Proof. unfold count_markers. lia. Qed.

Lemma count_markers_cons packet duration q :
  count_markers ((packet, duration) :: q) =
  (if is_track_marker packet then 1 else 0) + count_markers q.
Proof.
  unfold count_markers. cbn [filter fst].
  destruct (is_track_marker packet); cbn [List.length]; lia.
Qed.

Lemma count_markers_app q1 q2 :
  count_markers (q1 ++ q2) = count_markers q1 + count_markers q2.
Proof.
  unfold count_markers. rewrite filter_app, length_app. lia.
Qed.

Lemma marker_packet_is_marker : is_track_marker marker_packet = true.
Proof. reflexivity. Qed.

Lemma after_first_marker_count q :
  match after_first_marker q with
  | Some rest => count_markers rest = count_markers q - 1
  | None => count_markers q = 0
  end.
Proof.
  induction q as [| [packet duration] q IH]; cbn [after_first_marker].
  - reflexivity.
  - rewrite count_markers_cons.
    destruct (is_track_marker packet); [lia |].
    destruct (after_first_marker q); lia.
Qed.

(** What [std::find_if] and [erase] leave: the packets behind the first
    marker. *)
Lemma after_first_marker_split before packet duration behind :
  Forall (fun entry => is_track_marker (fst entry) = false) before ->
  is_track_marker packet = true ->
  after_first_marker (before ++ (packet, duration) :: behind) = Some behind.
Proof.
  intros Hbefore Hmarker.
  induction before as [| [p d] before IH]; cbn [app after_first_marker].
  - rewrite Hmarker. reflexivity.
  - inversion Hbefore as [| entry l Hp Hrest]; subst. cbn [fst] in Hp.
    rewrite Hp. apply IH. exact Hrest.
Qed.

Lemma after_first_marker_none q :
  Forall (fun entry => is_track_marker (fst entry) = false) q ->
  after_first_marker q = None.
Proof.
  induction 1 as [| [p d] q Hp _ IH]; cbn [after_first_marker]; [reflexivity |].
  cbn [fst] in Hp. rewrite Hp. exact IH.
Qed.

Lemma step_keeps_track_count c c' :
  tracks c = count_markers (outbuf c) -> audio_step c c' ->
  tracks c' = count_markers (outbuf c').
Proof.
  intros Hcount Hstep.
  pose proof (count_markers_nonneg (outbuf c)) as Hnonneg.
  destruct Hstep as [c packet duration Hplain | c metadata Hroom | c | c
                     | c paused udp_send_all has_marker_handler Hsingle].
  - audio_cbn. rewrite count_markers_app, count_markers_cons, Hplain.
    unfold count_markers at 2. cbn [filter List.length]. lia.
  - unfold insert_marker. audio_cbn.
    rewrite count_markers_app, count_markers_cons, marker_packet_is_marker.
    unfold count_markers at 2. cbn [filter List.length].
    rewrite wrap32_small by lia. lia.
  - unfold skip_to_next_marker. audio_cbn.
    pose proof (after_first_marker_count (outbuf c)) as Hafter.
    unfold decrement_tracks.
    destruct (outbuf c) as [| entry q] eqn:Hq.
    + rewrite Hcount. reflexivity.
    + destruct (after_first_marker (entry :: q)) as [rest |].
      * pose proof (count_markers_nonneg rest).
        destruct (0 <? tracks c) eqn:Hpos;
          [apply Z.ltb_lt in Hpos | apply Z.ltb_ge in Hpos]; lia.
      * destruct (0 <? tracks c) eqn:Hpos;
          [apply Z.ltb_lt in Hpos | apply Z.ltb_ge in Hpos];
          unfold count_markers at 1; cbn [filter List.length]; lia.
  - audio_cbn. reflexivity.
  - unfold write_ready.
    destruct (outbuf c) as [| [front duration] behind] eqn:Hq;
      [audio_cbn; rewrite Hq; exact Hcount |].
    destruct paused; [audio_cbn; rewrite Hq; exact Hcount |].
    rewrite count_markers_cons in Hcount, Hnonneg.
    unfold decrement_tracks.
    destruct (is_track_marker front) eqn:Hfront.
    + pose proof (count_markers_nonneg behind) as Hbehind.
      assert (Hpos : (0 <? tracks c) = true) by (apply Z.ltb_lt; lia).
      rewrite Hpos.
      destruct behind as [| [second duration2] rest].
      * change (count_markers []) with 0 in *.
        destruct has_marker_handler; audio_cbn; change (count_markers []) with 0; lia.
      * cbn [single_marker_in_front] in Hsingle. specialize (Hsingle Hfront).
        rewrite count_markers_cons, Hsingle in Hcount.
        destruct (udp_send_all second), has_marker_handler; audio_cbn;
          rewrite ?count_markers_cons, ?Hsingle; lia.
    + cbn [andb].
      destruct (udp_send_all front); audio_cbn;
        rewrite ?count_markers_cons, ?Hfront; lia.
Qed.

(** X15. [tracks] counts the markers in the queue.  From a state in which
    it does (a fresh or stopped client), it still does after any sequence
    of sends of audio packets, [insert_marker], [skip_to_next_marker],
    [stop_audio] and [write_ready], as long as [tracks] stays below [2^32]
    and [write_ready] never finds a marker directly behind the marker it
    removes. *)
Theorem tracks_counts_markers c c' :
  tracks c = count_markers (outbuf c) -> audio_steps c c' ->
  tracks c' = count_markers (outbuf c').
Proof.
  intros Hcount Hsteps.
  induction Hsteps as [c | c1 c2 c3 Hstep _ IH]; [exact Hcount |].
  apply IH. eapply step_keeps_track_count; eassumption.
Qed.

(** X16. One call of [write_ready] takes at most a marker and a packet
    from the front of the queue and leaves the packets behind them in their
    order; what it hands to [udp_send] is one of the first two packets
    queued; it never raises [tracks].  On a paused client, or with an empty
    queue, it does nothing: a paused client does not even consume the
    marker at the front. *)
Theorem write_ready_takes_front paused udp_send_all has_marker_handler c :
  let r := write_ready paused udp_send_all has_marker_handler c in
  (exists n : nat, (n <= 2)%nat /\ outbuf (client_after r) = skipn n (outbuf c)) /\
  (forall packet, handed_to_udp r = Some packet ->
     exists duration, In (packet, duration) (firstn 2 (outbuf c))) /\
  tracks (client_after r) <= tracks c /\
  (paused = true \/ outbuf c = [] ->
   client_after r = c /\ handed_to_udp r = None /\ marker_event r = None).
Proof.
  unfold write_ready.
  assert (Hdec : decrement_tracks (tracks c) <= tracks c)
    by (unfold decrement_tracks; destruct (0 <? tracks c); lia).
  destruct (outbuf c) as [| [front duration] behind] eqn:Hq.
  { audio_cbn. rewrite Hq. split; [exists 0%nat; auto |].
    split; [discriminate | split; [lia | auto]]. }
  destruct paused.
  { audio_cbn. rewrite Hq. split; [exists 0%nat; auto |].
    split; [discriminate | split; [lia | auto]]. }
  destruct (is_track_marker front).
  - destruct behind as [| [second duration2] rest].
    + destruct has_marker_handler; audio_cbn.
      all: split; [exists 1%nat; auto |].
      all: split; [discriminate | split; [exact Hdec |]].
      all: intros [Hp | Hnil]; discriminate.
    + destruct (udp_send_all second), has_marker_handler; audio_cbn.
      all: split; [first [exists 2%nat; split; [lia | reflexivity]
                         | exists 1%nat; split; [lia | reflexivity]] |].
      all: split; [intros packet Hpacket; injection Hpacket as <-;
                   exists duration2; cbn [firstn In]; auto |].
      all: split; [exact Hdec |].
      all: intros [Hp | Hnil]; discriminate.
  - cbn [andb]. destruct (udp_send_all front); audio_cbn.
    all: split; [first [exists 1%nat; split; [lia | reflexivity]
                       | exists 0%nat; split; [lia | reflexivity]] |].
    all: split; [intros packet Hpacket; injection Hpacket as <-;
                 exists duration; cbn [firstn In]; auto |].
    all: split; [lia |].
    all: intros [Hp | Hnil]; discriminate.
Qed.

(** X17. A marker directly behind another marker is not treated as a
    marker.  [write_ready] removes the first, hands the second to
    [udp_send] as if it were an audio packet, and, when that succeeds,
    removes it without touching [tracks] again: two markers have left the
    queue and [tracks] has gone down by one, so that [tracks] counts one
    marker too many from then on. *)
Theorem write_ready_sends_second_marker udp_send_all has_marker_handler c
    first duration1 second duration2 rest :
  outbuf c = (first, duration1) :: (second, duration2) :: rest ->
  is_track_marker first = true -> is_track_marker second = true ->
  tracks c = count_markers (outbuf c) ->
  let r := write_ready false udp_send_all has_marker_handler c in
  handed_to_udp r = Some second /\
  (udp_send_all second = true ->
   outbuf (client_after r) = rest /\
   tracks (client_after r) = count_markers (outbuf (client_after r)) + 1).
Proof.
  intros Hq Hfirst Hsecond Hcount r. subst r.
  rewrite Hq, !count_markers_cons, Hfirst, Hsecond in Hcount.
  pose proof (count_markers_nonneg rest) as Hrest.
  unfold write_ready. rewrite Hq, Hfirst. cbn [andb].
  unfold decrement_tracks.
  assert (Hpos : (0 <? tracks c) = true) by (apply Z.ltb_lt; lia). rewrite Hpos.
  destruct (udp_send_all second), has_marker_handler; audio_cbn.
  all: split; [reflexivity |].
  all: intros Hsent; try discriminate.
  all: split; [reflexivity | lia].
Qed.

(** X18. [skip_to_next_marker] drops the rest of the current track and
    nothing else.  When a marker is queued, the queue becomes what lay
    behind the first marker; when none is, the queue is emptied.  In both
    cases the first entry of the track metadata is dropped and [tracks]
    goes down by one unless it is 0. *)
Theorem skip_to_next_marker_drops_track c :
  (forall before packet duration behind,
     outbuf c = before ++ (packet, duration) :: behind ->
     Forall (fun entry => is_track_marker (fst entry) = false) before ->
     is_track_marker packet = true ->
     outbuf (skip_to_next_marker c) = behind) /\
  (Forall (fun entry => is_track_marker (fst entry) = false) (outbuf c) ->
   outbuf (skip_to_next_marker c) = []) /\
  track_meta (skip_to_next_marker c) = tl (track_meta c) /\
  tracks (skip_to_next_marker c) = (if 0 <? tracks c then tracks c - 1 else tracks c).
Proof.
  unfold skip_to_next_marker. audio_cbn.
  split; [| split; [| split; reflexivity]].
  - intros before packet duration behind Hq Hbefore Hmarker.
    rewrite Hq, (after_first_marker_split before packet duration behind Hbefore Hmarker).
    destruct before; reflexivity.
  - intros Hplain. rewrite (after_first_marker_none _ Hplain).
    destruct (outbuf c); reflexivity.
Qed.

End audio_queue_properties.

Section voice_further_examples.
Import voice_client voice_audio voice_scenario audio_scenario.

Lemma one_second_timer_keeps_order_witness :
  exists c',
    fst (@one_second_timer mock.odd_second connected_client 0%nat) = Some c' /\
    exists j : nat,
      (j <= 2)%nat /\
      written c' = written connected_client ++ firstn j (message_queue connected_client) /\
      (message_queue c' = skipn j (message_queue connected_client) \/
       exists heartbeat,
         message_queue c' = heartbeat :: skipn j (message_queue connected_client)).
Proof.
  assert (Htick : exists c',
            fst (@one_second_timer mock.odd_second connected_client 0%nat) = Some c')
    by (vm_compute; eexists; reflexivity).
  destruct Htick as [c' Htick]. exists c'. split; [exact Htick |].
  exact (proj1 (@one_second_timer_keeps_order mock.odd_second connected_client 0%nat c' Htick)).
Defined.

Lemma moving_averager_window_witness :
  0 <= 3 /\
  voice_receive.values
    (fold_left voice_receive.averager_add [1; 2; 3; 4] (voice_receive.make_moving_averager 3))
  = [4; 3].
Proof.
  assert (Hcount : 0 <= 3) by lia.
  split; [exact Hcount |].
  exact (proj1 (moving_averager_window 3 [1; 2; 3; 4] Hcount)).
Defined.

Lemma two_tracks_steps : audio_steps connected_client two_tracks.
Proof.
  unfold two_tracks.
  refine (audio_steps_more _ _ _ (step_send _ "a1" 20 _)
         (audio_steps_more _ _ _ (step_send _ "a2" 20 _)
         (audio_steps_more _ _ _ (step_insert_marker _ "first" _)
         (audio_steps_more _ _ _ (step_send _ "b1" 20 _)
         (audio_steps_more _ _ _ (step_send _ "b2" 20 _)
         (audio_steps_more _ _ _ (step_insert_marker _ "second" _)
         (audio_steps_none _)))))));
    try reflexivity; vm_compute; reflexivity.
Qed.

Lemma tracks_counts_markers_witness :
  tracks connected_client = count_markers (outbuf connected_client) /\
  audio_steps connected_client two_tracks /\
  tracks two_tracks = count_markers (outbuf two_tracks).
Proof.
  assert (Hcount : tracks connected_client = count_markers (outbuf connected_client))
    by reflexivity.
  split; [exact Hcount | split; [exact two_tracks_steps |]].
  exact (tracks_counts_markers connected_client two_tracks Hcount two_tracks_steps).
Defined.

Lemma write_ready_sends_second_marker_witness :
  outbuf double_marker = [(marker_packet, 0); (marker_packet, 0); ("b1"%string, 20)] /\
  is_track_marker marker_packet = true /\
  tracks double_marker = count_markers (outbuf double_marker) /\
  handed_to_udp (write_ready false (fun _ => true) true double_marker) = Some marker_packet.
Proof.
  assert (Hq : outbuf double_marker
               = [(marker_packet, 0); (marker_packet, 0); ("b1"%string, 20)])
    by reflexivity.
  assert (Hmarker : is_track_marker marker_packet = true) by reflexivity.
  assert (Hcount : tracks double_marker = count_markers (outbuf double_marker))
    by (vm_compute; reflexivity).
  split; [exact Hq | split; [exact Hmarker | split; [exact Hcount |]]].
  exact (proj1 (write_ready_sends_second_marker (fun _ => true) true double_marker
                  marker_packet 0 marker_packet 0 [("b1"%string, 20)]
                  Hq Hmarker Hmarker Hcount)).
Defined.

End voice_further_examples.

(** ** Voice packets on the wire *)

Section voice_rtp_properties.
Import voice_client voice_audio voice_rtp.
Context `{voice_codec}.

Ltac rtp_cbn :=
  cbn [client sequence timestamp packet_nonce ssrc sending timescale secret_key
       outbuf track_meta tracks message_queue set_audio send queue_message set_queue
       fst snd].

(** *** Bytes *)

Lemma byte_value_byte_of z : byte_value (byte_of z) = z mod 256.
Proof.
  unfold byte_value, byte_of, decryptor.byte_of_Z.
  pose proof (Z.mod_pos_bound z 256 ltac:(lia)) as Hrange.
  destruct (Byte.of_N (Z.to_N (z mod 256))) as [b |] eqn:Hb.
  - apply Byte.to_of_N in Hb. rewrite Hb. lia.
  - apply Byte.of_N_None_iff in Hb. lia.
Qed.

Lemma two_bytes z :
  0 <= z < 2 ^ 16 -> 2 ^ 8 * ((z / 2 ^ 8) mod 256) + z mod 256 = z.
Proof.
  intros Hz.
  rewrite (Z.mod_small (z / 2 ^ 8)) by (split; [apply Z.div_pos | apply Z.div_lt_upper_bound]; lia).
  pose proof (Z.div_mod z (2 ^ 8) ltac:(lia)) as Hdiv.
  change (2 ^ 8) with 256 in *. lia.
Qed.

Lemma four_bytes_of z :
  0 <= z < 2 ^ 32 ->
  2 ^ 24 * ((z / 2 ^ 24) mod 256) + 2 ^ 16 * ((z / 2 ^ 16) mod 256)
  + 2 ^ 8 * ((z / 2 ^ 8) mod 256) + z mod 256 = z.
Proof.
  intros Hz.
  assert (H3 : z / 2 ^ 24 = z / 256 / 256 / 256) by (rewrite !Z.div_div by lia; reflexivity).
  assert (H2 : z / 2 ^ 16 = z / 256 / 256) by (rewrite !Z.div_div by lia; reflexivity).
  change (2 ^ 8) with 256.
  rewrite H3, H2.
  pose proof (Z.div_mod z 256 ltac:(lia)) as D0.
  pose proof (Z.div_mod (z / 256) 256 ltac:(lia)) as D1.
  pose proof (Z.div_mod (z / 256 / 256) 256 ltac:(lia)) as D2.
  assert (Hsmall : 0 <= z / 256 / 256 / 256 < 256).
  { rewrite !Z.div_div by lia. split; [apply Z.div_pos | apply Z.div_lt_upper_bound]; lia. }
  rewrite (Z.mod_small (z / 256 / 256 / 256)) by exact Hsmall.
  lia.
Qed.

Lemma string_of_list_byte_length (l : list byte) :
  String.length (string_of_list_byte l) = List.length l.
Proof.
  unfold string_of_list_byte.
  induction l as [| b l IH]; cbn [map string_of_list_ascii String.length List.length];
    [reflexivity | rewrite IH; reflexivity].
Qed.

Lemma rtp_header_length seq ts ssrc0 : List.length (rtp_header seq ts ssrc0) = 12%nat.
Proof. reflexivity. Qed.

Lemma outbuf_speak s : outbuf (client (speak s)) = outbuf (client s).
Proof. unfold speak. destruct (sending s); reflexivity. Qed.

(** *** What is sent can be received *)

(** X19. A packet that [send_audio_opus] queues is one that [read_ready]
    of a client with the same key takes apart again.  When the cipher has
    produced the 16 bytes of tag it must, and decrypts what it has
    encrypted, [read_ready] finds in the packet the SSRC, the sequence
    number and the timestamp of the sender and the Opus packet that was
    sent, provided the Opus packet has 12 bytes or more (and the packet
    fits the 65535 bytes of the receive buffer); a shorter one makes a
    packet of less than 44 bytes, which [read_ready] throws away. *)
Theorem sent_packet_is_received s opus_packet duration :
  let seq := wrap16 (sequence s + 1) in
  let header := rtp_header seq (timestamp s) (wrap32 (ssrc s)) in
  let npub := encrypt_nonce (packet_nonce s) in
  List.length (aead_encrypt opus_packet header npub (secret_key s))
    = (List.length opus_packet + crypto_aead_xchacha20poly1305_ietf_ABYTES)%nat ->
  aead_decrypt (aead_encrypt opus_packet header npub (secret_key s)) header npub (secret_key s)
    = Some opus_packet ->
  is_u32 (timestamp s) -> is_u32 (packet_nonce s) ->
  exists packet,
    outbuf (client (send_audio_opus s opus_packet duration))
      = outbuf (client s) ++ [(packet, duration)] /\
    (12 <= Z.of_nat (List.length opus_packet) <= 65503 ->
     read_ready true (secret_key s) (list_byte_of_string packet)
       = payload_ready (wrap32 (ssrc s)) seq (timestamp s) opus_packet) /\
    ((List.length opus_packet < 12)%nat ->
     read_ready true (secret_key s) (list_byte_of_string packet) = ignored).
Proof.
  intros seq header npub Hlen Hdecrypt Hts Hnonce.
  exists (string_of_list_byte
            (voice_packet seq (timestamp s) (wrap32 (ssrc s)) (packet_nonce s)
               (secret_key s) opus_packet)).
  split.
  { unfold send_audio_opus. rewrite outbuf_speak. rtp_cbn. reflexivity. }
  rewrite list_byte_of_string_of_list_byte.
  unfold voice_packet. fold header. fold npub.
  set (sealed := aead_encrypt opus_packet header npub (secret_key s)) in *.
  assert (Hsize : List.length (header ++ sealed ++ be32 (packet_nonce s))
                  = (List.length opus_packet + 32)%nat).
  { rewrite !length_app, Hlen. subst header. rewrite rtp_header_length.
    unfold crypto_aead_xchacha20poly1305_ietf_ABYTES. cbn [List.length be32]. lia. }
  assert (Hseq : is_u32 (wrap32 (ssrc s))) by apply wrap32_range.
  assert (Hseq16 : 0 <= seq < 2 ^ 16)
    by (subst seq; unfold wrap16; apply Z.mod_pos_bound; lia).
  split.
  - intros Hlong. unfold read_ready. rewrite Hsize.
    replace (List.length opus_packet + 32 =? 0)%nat with false
      by (symmetry; apply Nat.eqb_neq; lia).
    replace (List.length opus_packet + 32 <? 12)%nat with false
      by (symmetry; apply Nat.ltb_ge; lia).
    replace (List.length opus_packet + 32 <? 44)%nat with false
      by (symmetry; apply Nat.ltb_ge; lia).
    cbn [negb orb].
    (* the fields of the header *)
    assert (H0 : at_ (header ++ sealed ++ be32 (packet_nonce s)) 0 = 128)
      by (subst header; unfold at_; cbn [rtp_header be16 be32 app nth];
          rewrite byte_value_byte_of; reflexivity).
    assert (H1 : at_ (header ++ sealed ++ be32 (packet_nonce s)) 1 = 120)
      by (subst header; unfold at_; cbn [rtp_header be16 be32 app nth];
          rewrite byte_value_byte_of; reflexivity).
    assert (Hrseq : read_be16 (header ++ sealed ++ be32 (packet_nonce s)) 2 = seq).
    { subst header. unfold read_be16, at_. cbn [rtp_header be16 be32 app nth Nat.add].
      rewrite !byte_value_byte_of. apply two_bytes. exact Hseq16. }
    assert (Hrts : read_be32 (header ++ sealed ++ be32 (packet_nonce s)) 4 = timestamp s).
    { subst header. unfold read_be32, at_. cbn [rtp_header be16 be32 app nth Nat.add].
      rewrite !byte_value_byte_of. apply four_bytes_of. exact Hts. }
    assert (Hrssrc : read_be32 (header ++ sealed ++ be32 (packet_nonce s)) 8
                     = wrap32 (ssrc s)).
    { subst header. unfold read_be32, at_. cbn [rtp_header be16 be32 app nth Nat.add].
      rewrite !byte_value_byte_of. apply four_bytes_of. exact Hseq. }
    rewrite H0, H1, Hrseq, Hrts, Hrssrc.
    change (Z.land 120 127) with 120. change (Z.land 128 15) with 0.
    change (Z.shiftr 128 4) with 8. change (Z.land 8 1) with 0.
    cbn [Z.leb Z.compare Pos.compare Pos.compare_cont andb Z.eqb negb Z.to_nat
         Nat.mul Nat.add].
    (* the lengths *)
    assert (Hclen : wrap64 (Z.of_nat (List.length opus_packet + 32) - Z.of_nat 12 - 4)
                    = Z.of_nat (List.length sealed)).
    { rewrite Hlen. unfold crypto_aead_xchacha20poly1305_ietf_ABYTES.
      replace (Z.of_nat (List.length opus_packet + 32) - Z.of_nat 12 - 4)
        with (Z.of_nat (List.length opus_packet + 16)) by lia.
      apply wrap64_small. lia. }
    rewrite Hclen.
    replace (Z.of_nat (List.length opus_packet + 32) <? Z.of_nat 12 + 4) with false
      by (symmetry; apply Z.ltb_ge; lia).
    rewrite Nat2Z.id.
    (* the three parts of the packet *)
    assert (Hheader : firstn 12 (header ++ sealed ++ be32 (packet_nonce s)) = header)
      by (subst header; reflexivity).
    assert (Hbody : skipn 12 (header ++ sealed ++ be32 (packet_nonce s))
                    = sealed ++ be32 (packet_nonce s))
      by (subst header; reflexivity).
    assert (Htail : skipn (List.length opus_packet + 32 - 4)
                      (header ++ sealed ++ be32 (packet_nonce s))
                    = be32 (packet_nonce s)).
    { rewrite app_assoc.
      replace (List.length opus_packet + 32 - 4)%nat with (List.length (header ++ sealed))
        by (rewrite length_app, Hlen; subst header; rewrite rtp_header_length;
            unfold crypto_aead_xchacha20poly1305_ietf_ABYTES; lia).
      rewrite skipn_app, skipn_all, Nat.sub_diag. reflexivity. }
    rewrite Hheader, Hbody, Htail.
    rewrite firstn_app, Nat.sub_diag, firstn_all. cbn [firstn]. rewrite app_nil_r.
    change (be32 (packet_nonce s)
            ++ repeat x00 (crypto_aead_xchacha20poly1305_ietf_NPUBBYTES - 4)) with npub.
    rewrite Hdecrypt.
    cbn [List.length Nat.ltb Nat.leb skipn]. reflexivity.
  - intros Hshort. unfold read_ready. rewrite Hsize.
    replace (List.length opus_packet + 32 =? 0)%nat with false
      by (symmetry; apply Nat.eqb_neq; lia).
    replace (List.length opus_packet + 32 <? 12)%nat with false
      by (symmetry; apply Nat.ltb_ge; lia).
    replace (List.length opus_packet + 32 <? 44)%nat with true
      by (symmetry; apply Nat.ltb_lt; lia).
    reflexivity.
Qed.

(** *** Sequence numbers and nonces *)

Lemma outbuf_send_all s frames :
  outbuf (client (send_all s frames)) = outbuf (client s) ++ packets_of s frames.
Proof.
  revert s. induction frames as [| [opus_packet duration] rest IH]; intros s.
  - cbn [send_all fold_left packets_of]. rewrite app_nil_r. reflexivity.
  - unfold send_all in *. cbn [fold_left packets_of fst snd].
    rewrite IH. unfold send_audio_opus at 1. rewrite outbuf_speak. rtp_cbn.
    rewrite <- app_assoc. reflexivity.
Qed.

Lemma send_audio_opus_counters s opus_packet duration :
  sequence (send_audio_opus s opus_packet duration) = wrap16 (sequence s + 1) /\
  packet_nonce (send_audio_opus s opus_packet duration) = wrap32 (packet_nonce s + 1).
Proof. unfold send_audio_opus, speak. rtp_cbn. destruct (sending s); auto. Qed.

Lemma voice_packet_carries seq ts ssrc0 nonce key opus_packet duration :
  0 <= seq < 2 ^ 16 -> is_u32 nonce ->
  let entry := (string_of_list_byte (voice_packet seq ts ssrc0 nonce key opus_packet), duration) in
  carried_sequence entry = seq /\ carried_nonce entry = nonce.
Proof.
  intros Hseq Hnonce entry. subst entry.
  unfold carried_sequence, carried_nonce. cbn [fst].
  rewrite list_byte_of_string_of_list_byte. unfold voice_packet.
  set (header := rtp_header seq ts ssrc0).
  set (sealed := aead_encrypt opus_packet header (encrypt_nonce nonce) key).
  split.
  - subst header. unfold read_be16, at_. cbn [rtp_header be16 be32 app nth Nat.add].
    rewrite !byte_value_byte_of. apply two_bytes. exact Hseq.
  - rewrite app_assoc.
    replace (List.length ((header ++ sealed) ++ be32 nonce) - 4)%nat
      with (List.length (header ++ sealed))
      by (rewrite (length_app (header ++ sealed)); cbn [List.length be32]; lia).
    unfold read_be32, at_.
    rewrite !app_nth2 by lia.
    replace (List.length (header ++ sealed) - List.length (header ++ sealed))%nat
      with 0%nat by lia.
    replace (List.length (header ++ sealed) + 1 - List.length (header ++ sealed))%nat
      with 1%nat by lia.
    replace (List.length (header ++ sealed) + 2 - List.length (header ++ sealed))%nat
      with 2%nat by lia.
    replace (List.length (header ++ sealed) + 3 - List.length (header ++ sealed))%nat
      with 3%nat by lia.
    cbn [be32 nth]. rewrite !byte_value_byte_of. apply four_bytes_of. exact Hnonce.
Qed.

Lemma wrap16_range z : 0 <= wrap16 z < 2 ^ 16.
Proof. unfold wrap16. apply Z.mod_pos_bound. lia. Qed.

Lemma wrap16_add z i : wrap16 (wrap16 z + i) = wrap16 (z + i).
Proof. unfold wrap16. rewrite Z.add_mod_idemp_l by lia. reflexivity. Qed.

Lemma wrap32_add z i : wrap32 (wrap32 z + i) = wrap32 (z + i).
Proof. unfold wrap32. rewrite Z.add_mod_idemp_l by lia. reflexivity. Qed.

Lemma packets_of_counted s frames :
  is_u32 (packet_nonce s) ->
  map (fun entry => (carried_sequence entry, carried_nonce entry)) (packets_of s frames)
  = map (fun i => (wrap16 (sequence s + 1 + Z.of_nat i), wrap32 (packet_nonce s + Z.of_nat i)))
      (List.seq 0 (List.length frames)).
Proof.
  revert s. induction frames as [| [opus_packet duration] rest IH]; intros s Hnonce.
  - reflexivity.
  - cbn [packets_of List.length List.seq map].
    destruct (voice_packet_carries (wrap16 (sequence s + 1)) (timestamp s) (wrap32 (ssrc s))
                (packet_nonce s) (secret_key s) opus_packet duration
                (wrap16_range _) Hnonce) as [Hs Hn].
    rewrite Hs, Hn. f_equal.
    + rewrite !Z.add_0_r. rewrite (wrap32_small (packet_nonce s)) by exact Hnonce.
      reflexivity.
    + destruct (send_audio_opus_counters s opus_packet duration) as [Hseq' Hnonce'].
      rewrite IH by (rewrite Hnonce'; apply wrap32_range).
      rewrite Hseq', Hnonce', <- seq_shift, map_map.
      apply map_ext. intros i.
      rewrite <- (Z.add_assoc (wrap16 (sequence s + 1))), wrap16_add, wrap32_add.
      f_equal; f_equal; lia.
Qed.

Lemma wrap32_offset_injective base i j :
  0 <= i < 2 ^ 32 -> 0 <= j < 2 ^ 32 -> wrap32 (base + i) = wrap32 (base + j) -> i = j.
Proof.
  unfold wrap32. intros Hi Hj Heq.
  pose proof (Z.div_mod (base + i) (2 ^ 32) ltac:(lia)) as Hdi.
  pose proof (Z.div_mod (base + j) (2 ^ 32) ltac:(lia)) as Hdj.
  rewrite Heq in Hdi.
  assert (Hdiff : i - j = 2 ^ 32 * ((base + i) / 2 ^ 32 - (base + j) / 2 ^ 32)) by lia.
  lia.
Qed.

Lemma nodup_map_injective_on (f : nat -> Z) (l : list nat) :
  (forall x y, In x l -> In y l -> f x = f y -> x = y) -> NoDup l -> NoDup (map f l).
Proof.
  intros Hinj Hnodup. induction Hnodup as [| x l Hnotin Hl IH]; cbn [map]; constructor.
  - intros Hin. apply in_map_iff in Hin. destruct Hin as [y [Hfy Hy]].
    assert (y = x) by (apply Hinj; [right; exact Hy | left; reflexivity | exact Hfy]).
    subst y. contradiction.
  - apply IH. intros a b Ha Hb. apply Hinj; right; assumption.
Qed.

(** X20. The packets that a run of [send_audio_opus] calls queues are
    queued behind what was queued before, in the order of the calls; they
    carry consecutive sequence numbers (modulo [2^16]), starting one above
    the sender's, and consecutive nonces (modulo [2^32]), starting at the
    sender's; no nonce is used twice in a run of up to [2^32] packets. *)
Theorem send_audio_opus_counts_up s frames :
  is_u32 (packet_nonce s) ->
  outbuf (client (send_all s frames)) = outbuf (client s) ++ packets_of s frames /\
  List.length (packets_of s frames) = List.length frames /\
  map carried_sequence (packets_of s frames)
    = map (fun i => wrap16 (sequence s + 1 + Z.of_nat i)) (List.seq 0 (List.length frames)) /\
  map carried_nonce (packets_of s frames)
    = map (fun i => wrap32 (packet_nonce s + Z.of_nat i)) (List.seq 0 (List.length frames)) /\
  (Z.of_nat (List.length frames) <= 2 ^ 32 ->
   NoDup (map carried_nonce (packets_of s frames))).
Proof.
  intros Hnonce.
  pose proof (packets_of_counted s frames Hnonce) as Hcounted.
  assert (Hseq : map carried_sequence (packets_of s frames)
                 = map (fun i => wrap16 (sequence s + 1 + Z.of_nat i))
                     (List.seq 0 (List.length frames))).
  { apply (f_equal (map fst)) in Hcounted. rewrite !map_map in Hcounted. exact Hcounted. }
  assert (Hnonces : map carried_nonce (packets_of s frames)
                    = map (fun i => wrap32 (packet_nonce s + Z.of_nat i))
                        (List.seq 0 (List.length frames))).
  { apply (f_equal (map snd)) in Hcounted. rewrite !map_map in Hcounted. exact Hcounted. }
  split; [apply outbuf_send_all |].
  split.
  { apply (f_equal (@List.length _)) in Hseq. rewrite !length_map, length_seq in Hseq.
    exact Hseq. }
  split; [exact Hseq | split; [exact Hnonces |]].
  intros Hfew. rewrite Hnonces.
  apply nodup_map_injective_on; [| apply seq_NoDup].
  intros x y Hx Hy Heq. apply in_seq in Hx, Hy.
  apply Nat2Z.inj. apply (wrap32_offset_injective (packet_nonce s)); [lia | lia | exact Heq].
Qed.

(** *** Datagrams with a long header *)

(** X21. [read_ready] does not compare the length of the header that a
    datagram announces with the size of the datagram.  On a datagram of 44
    bytes or more that is not RTCP and whose twelve bytes of header, CSRC
    list, extension header and nonce are more than its size, the length of
    the ciphertext goes below zero: what the cipher is then asked to decrypt
    is a length of [2^64 - 36] bytes or more. *)
Theorem read_ready_header_beyond_datagram key buffer :
  let payload_type := Z.land (at_ buffer 1) 127 in
  let csrc_count := Z.land (at_ buffer 0) 15 in
  let ext_header_len := if Z.land (Z.shiftr (at_ buffer 0) 4) 1 =? 0 then 0 else 4 in
  44 <= Z.of_nat (List.length buffer) ->
  ~ (72 <= payload_type <= 76) ->
  Z.of_nat (List.length buffer) < 12 + 4 * csrc_count + ext_header_len + 4 ->
  exists len,
    read_ready true key buffer = length_wraps len /\
    len = 2 ^ 64 + Z.of_nat (List.length buffer) - (12 + 4 * csrc_count + ext_header_len + 4) /\
    2 ^ 64 - 36 <= len < 2 ^ 64.
Proof.
  intros payload_type csrc_count ext_header_len Hsize Hrtp Hbeyond.
  assert (Hcc : 0 <= csrc_count <= 15).
  { subst csrc_count. change 15 with (Z.ones 4) at 1 2. rewrite Z.land_ones by lia.
    pose proof (Z.mod_pos_bound (at_ buffer 0) (2 ^ 4) ltac:(lia)). lia. }
  assert (Hext : ext_header_len = 0 \/ ext_header_len = 4)
    by (subst ext_header_len; destruct (_ =? 0); auto).
  unfold read_ready.
  replace (List.length buffer =? 0)%nat with false by (symmetry; apply Nat.eqb_neq; lia).
  replace (List.length buffer <? 12)%nat with false by (symmetry; apply Nat.ltb_ge; lia).
  replace (List.length buffer <? 44)%nat with false by (symmetry; apply Nat.ltb_ge; lia).
  cbn [negb orb]. fold payload_type.
  replace ((72 <=? payload_type) && (payload_type <=? 76)) with false
    by (symmetry; apply andb_false_iff;
        destruct (Z.leb_spec 72 payload_type); [right; apply Z.leb_gt; lia | left; reflexivity]).
  fold csrc_count.
  set (total := if negb (Z.land (Z.shiftr (at_ buffer 0) 4) 1 =? 0)
                then (12 + 4 * Z.to_nat csrc_count + 4)%nat
                else (12 + 4 * Z.to_nat csrc_count)%nat).
  assert (Htotal : Z.of_nat total = 12 + 4 * csrc_count + ext_header_len).
  { subst total ext_header_len. destruct (_ =? 0); cbn [negb]; lia. }
  rewrite Htotal.
  replace (Z.of_nat (List.length buffer) <? 12 + 4 * csrc_count + ext_header_len + 4)
    with true by (symmetry; apply Z.ltb_lt; lia).
  eexists. split; [reflexivity |].
  unfold wrap64.
  assert (Hwrap : (Z.of_nat (List.length buffer) - (12 + 4 * csrc_count + ext_header_len) - 4)
                  mod 2 ^ 64
                  = 2 ^ 64 + Z.of_nat (List.length buffer)
                    - (12 + 4 * csrc_count + ext_header_len + 4)).
  { symmetry. apply (Z.mod_unique _ _ (-1)); lia. }
  rewrite Hwrap. split; [reflexivity | lia].
Qed.

(** *** Raw audio *)

Lemma send_frames_one frame s :
  send_frames [frame] s =
  match encode frame with
  | done encoded_audio => send_audio_opus_timed s encoded_audio
  | throws_voice_exception => throws_voice_exception
  | divides_by_zero => divides_by_zero
  | out_of_fuel => out_of_fuel
  end.
Proof.
  cbn [send_frames]. destruct (encode frame); try reflexivity.
  destruct (send_audio_opus_timed s a); reflexivity.
Qed.

(** A packet of exactly the maximal length is encoded and sent. *)
Lemma send_audio_raw_exact fuel frame s :
  List.length frame = send_audio_raw_max_length ->
  (4 <= send_audio_raw_max_length)%nat -> (send_audio_raw_max_length mod 4 = 0)%nat ->
  send_audio_raw (S fuel) frame s = send_frames [frame] s.
Proof.
  intros Hlen Hmin Hmod. rewrite send_frames_one. cbn [send_audio_raw].
  rewrite Hlen.
  replace (send_audio_raw_max_length <? 4)%nat with false
    by (symmetry; apply Nat.ltb_ge; exact Hmin).
  rewrite Hmod, Nat.eqb_refl, Nat.ltb_irrefl. cbn [negb]. reflexivity.
Qed.

Lemma blocks_step size count data :
  blocks size (S count) data = firstn size data :: blocks size count (skipn size data).
Proof. reflexivity. Qed.

Lemma send_chunks_blocks fuel inner data s :
  (4 <= send_audio_raw_max_length)%nat -> (send_audio_raw_max_length mod 4 = 0)%nat ->
  ((List.length data - 1) / send_audio_raw_max_length < fuel)%nat ->
  send_chunks fuel (send_audio_raw (S inner)) data s
  = send_frames
      (blocks send_audio_raw_max_length ((List.length data - 1) / send_audio_raw_max_length)
         data) s.
Proof.
  intros Hmin Hmod. revert data s.
  induction fuel as [| fuel IH]; intros data s Hfuel; [lia |].
  cbn [send_chunks].
  destruct (send_audio_raw_max_length <? List.length data)%nat eqn:Hmore.
  - apply Nat.ltb_lt in Hmore.
    assert (Hfirst : List.length (firstn send_audio_raw_max_length data)
                     = send_audio_raw_max_length)
      by (apply firstn_length_le; lia).
    assert (Hcount : ((List.length data - 1) / send_audio_raw_max_length
                      = S ((List.length (skipn send_audio_raw_max_length data) - 1)
                           / send_audio_raw_max_length))%nat).
    { rewrite length_skipn.
      replace (List.length data - 1)%nat
        with (List.length data - send_audio_raw_max_length - 1
              + 1 * send_audio_raw_max_length)%nat by lia.
      rewrite Nat.div_add by lia. lia. }
    rewrite Hcount, blocks_step, Hfirst.
    rewrite (send_audio_raw_exact inner _ s Hfirst Hmin Hmod), send_frames_one.
    cbn [send_frames].
    destruct (encode (firstn send_audio_raw_max_length data)) as [encoded_audio | | |];
      try reflexivity.
    destruct (send_audio_opus_timed s encoded_audio) as [s' | | |]; try reflexivity.
    apply IH. lia.
  - apply Nat.ltb_ge in Hmore.
    replace ((List.length data - 1) / send_audio_raw_max_length)%nat with 0%nat
      by (symmetry; apply Nat.div_small; lia).
    reflexivity.
Qed.

Lemma blocks_length size count data :
  (List.length (List.concat (blocks size count data)) <= size * count)%nat.
Proof.
  revert data. induction count as [| count IH]; intros data; cbn [blocks List.concat].
  - cbn [List.length]. lia.
  - rewrite length_app, length_firstn. specialize (IH (skipn size data)). lia.
Qed.

(** X22. [send_audio_raw] sends whole frames only, and not all of them.
    Audio of no more than [send_audio_raw_max_length] bytes is padded with
    zeros to that length and sent as one frame.  Longer audio is cut into
    frames of that length, which are encoded and sent one by one as long as
    more than one frame is left: what is left at the end, between one byte
    and a whole frame, is never encoded nor sent, so that fewer bytes are
    sent than were given. *)
Theorem send_audio_raw_whole_frames fuel audio_data s :
  (4 <= send_audio_raw_max_length)%nat -> (send_audio_raw_max_length mod 4 = 0)%nat ->
  (4 <= List.length audio_data)%nat -> (List.length audio_data mod 4 = 0)%nat ->
  (List.length audio_data / send_audio_raw_max_length + 3 <= fuel)%nat ->
  let frames :=
    blocks send_audio_raw_max_length
      ((List.length audio_data - 1) / send_audio_raw_max_length) audio_data in
  ((List.length audio_data <= send_audio_raw_max_length)%nat ->
   send_audio_raw fuel audio_data s
   = send_frames
       [audio_data ++ repeat x00 (send_audio_raw_max_length - List.length audio_data)] s) /\
  ((send_audio_raw_max_length < List.length audio_data)%nat ->
   send_audio_raw fuel audio_data s = send_frames frames s /\
   (List.length (List.concat frames) < List.length audio_data)%nat).
Proof.
  intros Hmin Hmod Hlen Hlen4 Hfuel frames.
  destruct fuel as [| [| [| fuel]]]; try lia.
  split.
  - intros Hshort. cbn [send_audio_raw].
    replace (List.length audio_data <? 4)%nat with false
      by (symmetry; apply Nat.ltb_ge; exact Hlen).
    rewrite Hlen4, Nat.eqb_refl. cbn [negb].
    replace (send_audio_raw_max_length <? List.length audio_data)%nat with false
      by (symmetry; apply Nat.ltb_ge; exact Hshort).
    destruct (List.length audio_data <? send_audio_raw_max_length)%nat eqn:Hpad.
    + apply Nat.ltb_lt in Hpad.
      fold (send_audio_raw (S (S fuel))).
      apply send_audio_raw_exact; [| exact Hmin | exact Hmod].
      rewrite length_app, repeat_length. lia.
    + apply Nat.ltb_ge in Hpad.
      replace (send_audio_raw_max_length - List.length audio_data)%nat with 0%nat by lia.
      cbn [repeat]. rewrite app_nil_r, send_frames_one. reflexivity.
  - intros Hlong. split.
    + change (send_audio_raw (S (S (S fuel))) audio_data s)
        with (let length := List.length audio_data in
              if (length <? 4)%nat then throws_voice_exception
              else if negb (length mod 4 =? 0)%nat then throws_voice_exception
              else if (send_audio_raw_max_length <? length)%nat
              then send_chunks (S (S fuel)) (send_audio_raw (S (S fuel))) audio_data s
              else if (length <? send_audio_raw_max_length)%nat
              then send_audio_raw (S (S fuel))
                     (audio_data ++ repeat x00 (send_audio_raw_max_length - length)) s
              else
                match encode audio_data with
                | done encoded_audio => send_audio_opus_timed s encoded_audio
                | throws_voice_exception => throws_voice_exception
                | divides_by_zero => divides_by_zero
                | out_of_fuel => out_of_fuel
                end).
      cbv zeta.
      replace (List.length audio_data <? 4)%nat with false
        by (symmetry; apply Nat.ltb_ge; exact Hlen).
      rewrite Hlen4, Nat.eqb_refl. cbn [negb].
      replace (send_audio_raw_max_length <? List.length audio_data)%nat with true
        by (symmetry; apply Nat.ltb_lt; exact Hlong).
      apply send_chunks_blocks; [exact Hmin | exact Hmod |].
      assert ((List.length audio_data - 1) / send_audio_raw_max_length
              <= List.length audio_data / send_audio_raw_max_length)%nat
        by (apply Nat.Div0.div_le_mono; lia).
      lia.
    + pose proof (blocks_length send_audio_raw_max_length
                    ((List.length audio_data - 1) / send_audio_raw_max_length) audio_data)
        as Hsent.
      fold frames in Hsent.
      pose proof (Nat.Div0.mul_div_le (List.length audio_data - 1) send_audio_raw_max_length)
        as Hfloor.
      lia.
Qed.

End voice_rtp_properties.

Section voice_rtp_examples.
Import voice_client voice_audio voice_rtp voice_scenario rtp_scenario.
#[local] Existing Instance mock.codec.

Lemma sent_packet_is_received_witness :
  is_u32 (timestamp new_sender) /\ is_u32 (packet_nonce new_sender) /\
  12 <= Z.of_nat (List.length twelve_bytes) <= 65503 /\
  exists packet,
    outbuf (client (send_audio_opus new_sender twelve_bytes 20))
      = outbuf (client new_sender) ++ [(packet, 20)] /\
    read_ready true (secret_key new_sender) (list_byte_of_string packet)
      = payload_ready 42 0 1000 twelve_bytes.
Proof.
  assert (Hts : is_u32 (timestamp new_sender))
    by (unfold is_u32; cbn [timestamp new_sender]; lia).
  assert (Hnonce : is_u32 (packet_nonce new_sender))
    by (unfold is_u32; cbn [packet_nonce new_sender]; lia).
  assert (Hlong : 12 <= Z.of_nat (List.length twelve_bytes) <= 65503)
    by (cbn [List.length twelve_bytes]; lia).
  split; [exact Hts | split; [exact Hnonce | split; [exact Hlong |]]].
  assert (Hsealed :
            List.length
              (aead_encrypt twelve_bytes
                 (rtp_header (wrap16 (sequence new_sender + 1)) (timestamp new_sender)
                    (wrap32 (ssrc new_sender)))
                 (encrypt_nonce (packet_nonce new_sender)) (secret_key new_sender))
            = (List.length twelve_bytes + crypto_aead_xchacha20poly1305_ietf_ABYTES)%nat)
    by (vm_compute; reflexivity).
  assert (Hopened :
            aead_decrypt
              (aead_encrypt twelve_bytes
                 (rtp_header (wrap16 (sequence new_sender + 1)) (timestamp new_sender)
                    (wrap32 (ssrc new_sender)))
                 (encrypt_nonce (packet_nonce new_sender)) (secret_key new_sender))
              (rtp_header (wrap16 (sequence new_sender + 1)) (timestamp new_sender)
                 (wrap32 (ssrc new_sender)))
              (encrypt_nonce (packet_nonce new_sender)) (secret_key new_sender)
            = Some twelve_bytes)
    by (vm_compute; reflexivity).
  destruct (sent_packet_is_received new_sender twelve_bytes 20 Hsealed Hopened Hts Hnonce)
    as [packet [Hqueued [Hreceived _]]].
  exists packet. split; [exact Hqueued | exact (Hreceived Hlong)].
Defined.

Lemma send_audio_opus_counts_up_witness :
  is_u32 (packet_nonce new_sender) /\
  map carried_nonce
    (packets_of new_sender [(twelve_bytes, 20); (twelve_bytes, 20); (twelve_bytes, 20)])
  = [7; 8; 9].
Proof.
  assert (Hnonce : is_u32 (packet_nonce new_sender))
    by (unfold is_u32; cbn [packet_nonce new_sender]; lia).
  split; [exact Hnonce |].
  exact (proj1 (proj2 (proj2 (proj2
           (send_audio_opus_counts_up new_sender
              [(twelve_bytes, 20); (twelve_bytes, 20); (twelve_bytes, 20)] Hnonce))))).
Defined.

Lemma read_ready_header_beyond_datagram_witness :
  44 <= Z.of_nat (List.length short_datagram) /\
  ~ (72 <= Z.land (at_ short_datagram 1) 127 <= 76) /\
  Z.of_nat (List.length short_datagram)
    < 12 + 4 * Z.land (at_ short_datagram 0) 15
      + (if Z.land (Z.shiftr (at_ short_datagram 0) 4) 1 =? 0 then 0 else 4) + 4 /\
  exists len,
    read_ready true [] short_datagram = length_wraps len /\ 2 ^ 64 - 36 <= len < 2 ^ 64.
Proof.
  assert (Hsize : 44 <= Z.of_nat (List.length short_datagram))
    by (apply Z.leb_le; vm_compute; reflexivity).
  assert (Htype : Z.land (at_ short_datagram 1) 127 = 0) by (vm_compute; reflexivity).
  assert (Hrtp : ~ (72 <= Z.land (at_ short_datagram 1) 127 <= 76))
    by (rewrite Htype; lia).
  assert (Hbeyond : Z.of_nat (List.length short_datagram)
                    < 12 + 4 * Z.land (at_ short_datagram 0) 15
                      + (if Z.land (Z.shiftr (at_ short_datagram 0) 4) 1 =? 0 then 0 else 4)
                      + 4)
    by (apply Z.ltb_lt; vm_compute; reflexivity).
  split; [exact Hsize | split; [exact Hrtp | split; [exact Hbeyond |]]].
  destruct (read_ready_header_beyond_datagram [] short_datagram Hsize Hrtp Hbeyond)
    as [len [Hresult [_ Hrange]]].
  exists len. split; [exact Hresult | exact Hrange].
Defined.

Lemma send_audio_raw_whole_frames_witness :
  (4 <= send_audio_raw_max_length)%nat /\ (send_audio_raw_max_length mod 4 = 0)%nat /\
  (4 <= List.length raw_audio)%nat /\ (List.length raw_audio mod 4 = 0)%nat /\
  (send_audio_raw_max_length < List.length raw_audio)%nat /\
  send_audio_raw 10 raw_audio new_sender
  = send_frames
      (blocks send_audio_raw_max_length
         ((List.length raw_audio - 1) / send_audio_raw_max_length) raw_audio)
      new_sender.
Proof.
  assert (Hmin : (4 <= send_audio_raw_max_length)%nat)
    by (apply Nat.leb_le; vm_compute; reflexivity).
  assert (Hmod : (send_audio_raw_max_length mod 4 = 0)%nat) by (vm_compute; reflexivity).
  assert (Hlen : (4 <= List.length raw_audio)%nat)
    by (apply Nat.leb_le; vm_compute; reflexivity).
  assert (Hlen4 : (List.length raw_audio mod 4 = 0)%nat) by (vm_compute; reflexivity).
  assert (Hlong : (send_audio_raw_max_length < List.length raw_audio)%nat)
    by (apply Nat.ltb_lt; vm_compute; reflexivity).
  assert (Hfuel : (List.length raw_audio / send_audio_raw_max_length + 3 <= 10)%nat)
    by (apply Nat.leb_le; vm_compute; reflexivity).
  repeat (split; [assumption |]).
  exact (proj1 (proj2 (send_audio_raw_whole_frames 10 raw_audio new_sender
                         Hmin Hmod Hlen Hlen4 Hfuel) Hlong)).
Defined.

(** Two and a half frames of raw audio: two packets are queued, and the
    last half frame is not sent. *)
Example raw_audio_queues_two_packets :
  match send_audio_raw 10 raw_audio new_sender with
  | done s => List.length (outbuf (client s))
  | _ => 0%nat
  end = 2%nat.
Proof. vm_compute. reflexivity. Qed.

End voice_rtp_examples.

(** ** The protocol version of the encryptor, and IP discovery *)

Section protocol_version_properties.
Import cryptor_manager encryptor.
Context `{clock_interface} `{key_ratchet_interface} `{outbound_interface}.

(** X23. [SetPassthroughMode] sets the protocol version to 0 in
    passthrough mode and to the maximal supported version otherwise, and
    calls the callback of version changes only when the version does
    change: at most once per call, and not at all when the mode is set
    again to what it is.  The key ratchet, the cipher and the nonce counter
    are not touched. *)
Theorem SetPassthroughMode_changes_once e passthroughMode :
  let e' := SetPassthroughMode e passthroughMode in
  passthroughMode_ e' = passthroughMode /\
  currentProtocolVersion_ e' = (if passthroughMode then 0 else MaxSupportedProtocolVersion) /\
  (protocolVersionChanges e <= protocolVersionChanges e' <= S (protocolVersionChanges e))%nat /\
  (currentProtocolVersion_ e' = currentProtocolVersion_ e ->
   protocolVersionChanges e' = protocolVersionChanges e) /\
  protocolVersionChanges (SetPassthroughMode e' passthroughMode) = protocolVersionChanges e' /\
  (keyRatchet_ e' = keyRatchet_ e /\ cryptor_ e' = cryptor_ e /\
   currentKeyGeneration_ e' = currentKeyGeneration_ e /\
   truncatedNonce_ e' = truncatedNonce_ e).
Proof.
  assert (Hfirst : forall e0,
            currentProtocolVersion_ (SetPassthroughMode e0 passthroughMode)
            = (if passthroughMode then 0 else MaxSupportedProtocolVersion)).
  { intros e0. unfold SetPassthroughMode.
    destruct (Z.eqb_spec (if passthroughMode then 0 else MaxSupportedProtocolVersion)
                (currentProtocolVersion_ e0)) as [Heq | Hneq];
      cbn [currentProtocolVersion_ set_protocol]; congruence. }
  assert (Hsame : forall e0,
            currentProtocolVersion_ e0
            = (if passthroughMode then 0 else MaxSupportedProtocolVersion) ->
            protocolVersionChanges (SetPassthroughMode e0 passthroughMode)
            = protocolVersionChanges e0).
  { intros e0 Hv. unfold SetPassthroughMode. rewrite Hv, Z.eqb_refl. reflexivity. }
  cbv zeta.
  split; [unfold SetPassthroughMode; destruct (_ =? _); reflexivity |].
  split; [apply Hfirst |].
  split.
  { unfold SetPassthroughMode.
    destruct (_ =? _); cbn [protocolVersionChanges set_protocol];
      [| destruct (protocolVersionChangedCallback_ e)]; lia. }
  split; [intros Hv; apply Hsame; rewrite <- Hv; apply Hfirst |].
  split; [apply Hsame; apply Hfirst |].
  unfold SetPassthroughMode. destruct (_ =? _); repeat split; reflexivity.
Qed.

End protocol_version_properties.

Section discovery_properties.
Import voice_rtp voice_discovery.

Lemma c_string_terminated characters rest :
  Forall (fun b => b <> x00) characters ->
  c_string (characters ++ x00 :: rest) = Some characters.
Proof.
  induction 1 as [| b characters Hb _ IH]; cbn [app c_string].
  - reflexivity.
  - destruct (Byte.eqb b x00) eqn:Heq.
    + apply Byte.byte_dec_bl in Heq. contradiction.
    + rewrite IH. reflexivity.
Qed.

Lemma c_string_unterminated bytes :
  Forall (fun b => b <> x00) bytes -> c_string bytes = None.
Proof.
  induction 1 as [| b bytes Hb _ IH]; cbn [c_string]; [reflexivity |].
  destruct (Byte.eqb b x00) eqn:Heq.
  - apply Byte.byte_dec_bl in Heq. contradiction.
  - rewrite IH. reflexivity.
Qed.

Lemma ip_discovery_packet_length ssrc : List.length (ip_discovery_packet ssrc) = 74%nat.
Proof. reflexivity. Qed.

(** X24. [discover_ip] asks with a packet of 74 bytes: type 1, length 70,
    the SSRC in network order, and zeros.  When every socket call succeeds
    and the answer carries, behind its 8 bytes of header, an address
    followed by a zero byte, it returns that address.  When an address is
    already known it returns it without sending anything.  When [bind],
    [connect], [send], [poll] or [recv] fails, or [poll] times out, it
    returns the empty string.  An answer that fills the packet without any
    zero byte behind the header makes it read beyond the packet. *)
Theorem discover_ip_reads_address net ssrc :
  let request := be16 1 ++ be16 70 ++ be32 (wrap32 ssrc) ++ repeat x00 66 in
  0 <= socket_fd net -> 0 <= bind_result net -> 0 <= connect_result net ->
  send_result net <> -1 ->
  (forall header address rest,
     poll_result net <> -1 -> poll_result net <> 0 ->
     recv_datagram net = Some (header ++ address ++ x00 :: rest) ->
     List.length header = 8%nat -> Forall (fun b => b <> x00) address ->
     (List.length address < 66)%nat ->
     discover_ip net EmptyString ssrc
     = {| discovered_ip := ip_string (string_of_list_byte address);
          request_sent := Some request |}) /\
  (forall datagram,
     poll_result net <> -1 -> poll_result net <> 0 ->
     recv_datagram net = Some datagram ->
     (74 <= List.length datagram)%nat -> Forall (fun b => b <> x00) (skipn 8 datagram) ->
     discovered_ip (discover_ip net EmptyString ssrc) = reads_beyond_packet) /\
  (poll_result net = -1 \/ poll_result net = 0 \/ recv_datagram net = None ->
   discover_ip net EmptyString ssrc
   = {| discovered_ip := ip_string EmptyString; request_sent := Some request |}) /\
  (forall known, known <> EmptyString ->
     discover_ip net known ssrc
     = {| discovered_ip := ip_string known; request_sent := None |}) /\
  List.length request = 74%nat.
Proof.
  intros request Hsocket Hbind Hconnect Hsend.
  assert (Hrequest : ip_discovery_packet (wrap32 ssrc) = request) by reflexivity.
  assert (Hopen : forall result : discovery,
            (if negb (String.eqb EmptyString EmptyString)
             then {| discovered_ip := ip_string EmptyString; request_sent := None |}
             else
               if socket_fd net <? 0 then nothing_found None
               else if bind_result net <? 0 then nothing_found None
               else if connect_result net <? 0 then nothing_found None
               else if send_result net =? -1 then nothing_found (Some request)
               else result) = result).
  { intros result. cbn [String.eqb negb].
    rewrite (proj2 (Z.ltb_ge _ _) Hsocket), (proj2 (Z.ltb_ge _ _) Hbind),
      (proj2 (Z.ltb_ge _ _) Hconnect), (proj2 (Z.eqb_neq _ _) Hsend).
    reflexivity. }
  split; [| split; [| split; [| split]]].
  - intros header address rest Hpoll Htimeout Hrecv Hheader Haddress Hshort.
    unfold discover_ip. rewrite Hrequest, Hopen.
    rewrite (proj2 (Z.eqb_neq _ _) Hpoll), (proj2 (Z.eqb_neq _ _) Htimeout), Hrecv.
    f_equal.
    assert (Hparsed : c_string (skipn 8 (received_over request
                                          (header ++ address ++ x00 :: rest)))
                      = Some address).
    { unfold received_over.
      change (List.length request) with 74%nat.
      set (datagram := header ++ address ++ x00 :: rest).
      assert (Hcopied : exists tail,
                firstn 74 datagram = header ++ address ++ x00 :: tail).
      { subst datagram. rewrite firstn_app, Hheader.
        rewrite (firstn_all2 header) by lia.
        rewrite firstn_app.
        rewrite (firstn_all2 address) by lia.
        destruct (74 - 8 - List.length address)%nat as [| n] eqn:Hn; [lia |].
        rewrite firstn_cons. eexists. reflexivity. }
      destruct Hcopied as [tail Hcopied].
      rewrite Hcopied, <- !app_assoc.
      rewrite skipn_app, Hheader, skipn_all2 by lia.
      cbn [app Nat.sub skipn].
      apply c_string_terminated. exact Haddress. }
    rewrite Hparsed. reflexivity.
  - intros datagram Hpoll Htimeout Hrecv Hfull Hnonzero.
    unfold discover_ip. rewrite Hrequest, Hopen.
    rewrite (proj2 (Z.eqb_neq _ _) Hpoll), (proj2 (Z.eqb_neq _ _) Htimeout), Hrecv.
    cbn [discovered_ip].
    assert (Hparsed : c_string (skipn 8 (received_over request datagram)) = None).
    { unfold received_over.
      change (List.length request) with 74%nat.
      rewrite firstn_length_le by exact Hfull.
      change (skipn 74 request) with (@nil byte). rewrite app_nil_r.
      apply c_string_unterminated.
      rewrite Forall_forall in *. intros b Hb. apply Hnonzero.
      rewrite <- (firstn_skipn 74 datagram) at 1.
      rewrite skipn_app, length_firstn.
      apply in_or_app. left.
      replace (8 - Nat.min 74 (List.length datagram))%nat with 0%nat in * by lia.
      exact Hb. }
    rewrite Hparsed. reflexivity.
  - intros Hfail. unfold discover_ip. rewrite Hrequest, Hopen.
    destruct (Z.eqb_spec (poll_result net) (-1)) as [| Hpoll]; [reflexivity |].
    destruct (Z.eqb_spec (poll_result net) 0) as [| Htimeout]; [reflexivity |].
    destruct Hfail as [Hp | [Hp | Hrecv]]; [contradiction | contradiction |].
    rewrite Hrecv. reflexivity.
  - intros known Hknown. unfold discover_ip.
    destruct (String.eqb_spec known EmptyString) as [Heq | Hneq]; [contradiction |].
    reflexivity.
  - reflexivity.
Qed.

End discovery_properties.

Section discovery_examples.
Import voice_rtp voice_discovery discovery_scenario.

Lemma discover_ip_reads_address_witness :
  0 <= socket_fd answering_network /\ 0 <= bind_result answering_network /\
  0 <= connect_result answering_network /\ send_result answering_network <> -1 /\
  discover_ip answering_network EmptyString 42
  = {| discovered_ip := ip_string "1.2.3.4";
       request_sent := Some ([x00; x01; x00; x46; x00; x00; x00; x2a] ++ repeat x00 66) |}.
Proof.
  assert (Hsocket : 0 <= socket_fd answering_network) by (cbn; lia).
  assert (Hbind : 0 <= bind_result answering_network) by (cbn; lia).
  assert (Hconnect : 0 <= connect_result answering_network) by (cbn; lia).
  assert (Hsend : send_result answering_network <> -1) by (cbn; lia).
  split; [exact Hsocket | split; [exact Hbind | split; [exact Hconnect | split; [exact Hsend |]]]].
  apply (proj1 (discover_ip_reads_address answering_network 42 Hsocket Hbind Hconnect Hsend)
           answer_header dotted_address (repeat x00 56 ++ [xc3; x50])).
  - cbn; lia.
  - cbn; lia.
  - reflexivity.
  - reflexivity.
  - repeat constructor; discriminate.
  - cbn; lia.
Defined.

End discovery_examples.

(** ** The generation of the sender, and its statistics *)

Section encryptor_generation_properties.
Import cryptor_manager encryptor encryptor_layout.
Context `{clock_interface} `{key_ratchet_interface} `{outbound_interface}.

Ltac keys_cbn :=
  cbn [fst snd keyRatchet_ cryptor_ currentKeyGeneration_ truncatedNonce_ passthroughMode_
       currentProtocolVersion_ protocolVersionChangedCallback_ protocolVersionChanges
       ssrcCodecPairs_ stats_audio stats_video lastStatsTime_ frameProcessors_
       set_stats set_key_state set_protocol set_codecs set_pool_and_time
       result bytesWritten encryptedFrame_out attempts].

(** X25. The key generation of the sender follows the top bits of its
    nonce and never goes back.  After [GetNextCryptorAndNonce], as long as
    generations stay clear of the 32-bit limit, the generation is the one
    among the [GENERATION_WRAP] generations from the previous one on whose
    residue is the nonce shifted right by [RATCHET_GENERATION_SHIFT_BITS].
    The cipher is kept, and the ratchet left alone, when the generation
    stays and a cipher is there; otherwise the cipher is made anew from the
    key of the generation. *)
Theorem GetNextCryptorAndNonce_generation e ratchet :
  keyRatchet_ e = Some ratchet -> is_u32 (currentKeyGeneration_ e) ->
  currentKeyGeneration_ e + GENERATION_WRAP <= 2 ^ 32 ->
  let truncatedNonce := snd (fst (GetNextCryptorAndNonce e)) in
  let e' := snd (GetNextCryptorAndNonce e) in
  currentKeyGeneration_ e <= currentKeyGeneration_ e'
    < currentKeyGeneration_ e + GENERATION_WRAP /\
  currentKeyGeneration_ e' mod GENERATION_WRAP
    = Z.shiftr truncatedNonce RATCHET_GENERATION_SHIFT_BITS /\
  fst (fst (GetNextCryptorAndNonce e)) = cryptor_ e' /\
  (currentKeyGeneration_ e' = currentKeyGeneration_ e -> cryptor_ e <> None ->
   cryptor_ e' = cryptor_ e /\ keyRatchet_ e' = keyRatchet_ e) /\
  (currentKeyGeneration_ e' <> currentKeyGeneration_ e \/ cryptor_ e = None ->
   cryptor_ e' = create_cipher (fst (GetKey ratchet (currentKeyGeneration_ e')))).
Proof.
  intros Hratchet Hgeneration Hfit truncatedNonce e'.
  subst truncatedNonce e'. unfold GetNextCryptorAndNonce. rewrite Hratchet.
  set (nonce := wrap32 (truncatedNonce_ e + 1)).
  set (top := Z.shiftr nonce RATCHET_GENERATION_SHIFT_BITS).
  assert (Htop : 0 <= top < GENERATION_WRAP).
  { subst top. unfold RATCHET_GENERATION_SHIFT_BITS, GENERATION_WRAP.
    rewrite Z.shiftr_div_pow2 by lia.
    pose proof (wrap32_range (truncatedNonce_ e + 1)) as Hnonce. fold nonce in Hnonce.
    unfold is_u32 in Hnonce. split; [apply Z.div_pos; lia |].
    apply Z.div_lt_upper_bound; lia. }
  destruct (wrapped_generation_window (currentKeyGeneration_ e) top Hgeneration Htop Hfit)
    as [Hwindow Hresidue].
  set (generation := compute_wrapped_generation (currentKeyGeneration_ e) top) in *.
  destruct (Z.eqb_spec generation (currentKeyGeneration_ e)) as [Hsame | Hchanged].
  - destruct (cryptor_ e) as [cipher |] eqn:Hcipher; cbn [negb orb].
    + keys_cbn. rewrite Hsame in Hwindow, Hresidue.
      split; [exact Hwindow | split; [exact Hresidue | split; [reflexivity |]]].
      split; [intros _ _; auto |].
      intros [Hneq | Hnone]; [contradiction | discriminate].
    + destruct (GetKey ratchet generation) as [encryptionKey ratchet'] eqn:Hkey. keys_cbn.
      split; [exact Hwindow | split; [exact Hresidue | split; [reflexivity |]]].
      split; [intros _ Hnone; contradiction |].
      intros _. rewrite Hkey. reflexivity.
  - cbn [negb orb].
    destruct (GetKey ratchet generation) as [encryptionKey ratchet'] eqn:Hkey. keys_cbn.
    split; [exact Hwindow | split; [exact Hresidue | split; [reflexivity |]]].
    split; [intros Heq; contradiction |].
    intros _. rewrite Hkey. reflexivity.
Qed.

(** *** Statistics *)









End encryptor_generation_properties.

Section want_write_properties.
Import voice_client voice_audio.

(** X27. [want_write] asks for the socket exactly when [write_ready] has
    something to do.  It returns [INVALID_SOCKET] if and only if the client
    is paused or its queue is empty, which is when [write_ready] leaves the
    client as it is and hands nothing to [udp_send]; otherwise
    [write_ready] removes a marker from the queue or hands a packet to
    [udp_send]. *)
Theorem want_write_agrees paused fd udp_send_all has_marker_handler c :
  fd <> INVALID_SOCKET ->
  let r := write_ready paused udp_send_all has_marker_handler c in
  (want_write paused fd c = INVALID_SOCKET <-> paused = true \/ outbuf c = []) /\
  (want_write paused fd c = INVALID_SOCKET ->
   client_after r = c /\ handed_to_udp r = None /\ marker_event r = None) /\
  (want_write paused fd c = fd ->
   handed_to_udp r <> None \/
   (List.length (outbuf (client_after r)) < List.length (outbuf c))%nat).
Proof.
  intros Hfd r. subst r. unfold want_write, write_ready.
  destruct (outbuf c) as [| [front duration] behind] eqn:Hq.
  { rewrite andb_false_r. split; [tauto |]. split; [auto | intros Heq; congruence]. }
  destruct paused; cbn [negb andb].
  { split; [tauto |]. split; [auto | intros Heq; congruence]. }
  split; [split; [intros Heq; congruence | intros [Hp | Hnil]; discriminate] |].
  split; [intros Heq; congruence |].
  intros _.
  destruct (is_track_marker front).
  - right. destruct behind as [| [second duration2] rest].
    + destruct has_marker_handler; cbn; lia.
    + destruct (udp_send_all second), has_marker_handler; cbn; lia.
  - left. cbn [andb]. destruct (udp_send_all front); cbn; discriminate.
Qed.

End want_write_properties.

Section further_examples.
Import cryptor_manager encryptor encryptor_layout layout_scenario.
Import voice_client voice_audio audio_scenario.
#[local] Existing Instance mock.clock.
#[local] Existing Instance mock.crypto8.
#[local] Existing Instance mock.outbound.

Lemma GetNextCryptorAndNonce_generation_witness :
  keyRatchet_ rotating_encryptor = Some [0; 1; 2] /\
  snd (fst (GetNextCryptorAndNonce rotating_encryptor)) = 4 * 2 ^ 24 /\
  currentKeyGeneration_ (snd (GetNextCryptorAndNonce rotating_encryptor)) = 4 /\
  currentKeyGeneration_ (snd (GetNextCryptorAndNonce rotating_encryptor)) mod GENERATION_WRAP
  = Z.shiftr (snd (fst (GetNextCryptorAndNonce rotating_encryptor)))
      RATCHET_GENERATION_SHIFT_BITS.
Proof.
  assert (Hratchet : keyRatchet_ rotating_encryptor = Some [0; 1; 2]) by reflexivity.
  assert (Hgeneration : is_u32 (currentKeyGeneration_ rotating_encryptor))
    by (unfold is_u32; cbn [currentKeyGeneration_ rotating_encryptor]; lia).
  assert (Hfit : currentKeyGeneration_ rotating_encryptor + GENERATION_WRAP <= 2 ^ 32)
    by (apply Z.leb_le; vm_compute; reflexivity).
  split; [exact Hratchet |].
  split; [vm_compute; reflexivity |].
  split; [vm_compute; reflexivity |].
  exact (proj1 (proj2 (GetNextCryptorAndNonce_generation rotating_encryptor [0; 1; 2]
                         Hratchet Hgeneration Hfit))).
Defined.


Lemma want_write_agrees_witness :
  3 <> INVALID_SOCKET /\
  want_write false 3 double_marker = 3 /\
  (want_write false 3 double_marker = INVALID_SOCKET <->
   false = true \/ outbuf double_marker = []).
Proof.
  assert (Hfd : 3 <> INVALID_SOCKET) by (unfold INVALID_SOCKET; lia).
  split; [exact Hfd | split; [reflexivity |]].
  exact (proj1 (want_write_agrees false 3 (fun _ => true) true double_marker Hfd)).
Defined.

End further_examples.
